(** * github-release-tool (grt): a shallow embedding of [grt/main.go]

    The development follows the Go source function by function:
    the helpers of package [strings], [strconv], [regexp] and [sort] the
    program calls, the pure routines ([getFixes], [labels], [contains],
    [wrap], [wrapParagraph], [printIssues]) and the three commands
    ([createMilestone], [changelog], [createRelease]) run against a remote
    service that is a parameter of the development. *)

From Stdlib Require Import ZArith Ascii String Lia.
From stdpp Require Import base option list sorting gmap pretty.

Local Open Scope Z_scope.

(** ** Go strings

    A Go string holding valid UTF-8 is modelled by the sequence of its code
    points; [len] counts the bytes of its UTF-8 encoding, as Go's [len]
    does. *)

Module GoString.

Abbreviation rune := Z (only parsing).
Abbreviation gostring := (list Z) (only parsing).

(** A literal: the code points of an ASCII Rocq string. *)
Definition str (s : String.string) : gostring :=
  (λ a, Z.of_N (N_of_ascii a)) <$> list_ascii_of_string s.

(** [utf8.RuneLen] on valid code points. *)
Definition RuneLen (r : rune) : Z :=
  if r <? 128 then 1
  else if r <? 2048 then 2
  else if r <? 65536 then 3
  else 4.

(** [len(s)] *)
Fixpoint len (s : gostring) : Z :=
  match s with
  | [] => 0
  | r :: s' => RuneLen r + len s'
  end.

(** [unicode.IsSpace] *)
Definition IsSpace (r : rune) : bool :=
  (r =? 9) || (r =? 10) || (r =? 11) || (r =? 12) || (r =? 13) || (r =? 32)
  || (r =? 133) || (r =? 160) || (r =? 5760)
  || ((8192 <=? r) && (r <=? 8202))
  || (r =? 8232) || (r =? 8233) || (r =? 8239) || (r =? 8287)
  || (r =? 12288).

(** [strings.Split(s, sep)] for a separator of one rune: the pieces
    between the occurrences of [sep], never an empty list. *)
Fixpoint Split (s : gostring) (sep : rune) : list gostring :=
  match s with
  | [] => [[]]
  | c :: s' =>
      if c =? sep then [] :: Split s' sep
      else match Split s' sep with
           | l :: ls => (c :: l) :: ls
           | [] => [[c]]
           end
  end.

(** [strings.Index] followed by the two slices around the match, for a
    separator of one rune. *)
Fixpoint cut (s : gostring) (sep : rune) : option (gostring * gostring) :=
  match s with
  | [] => None
  | c :: s' =>
      if c =? sep then Some ([], s')
      else match cut s' sep with
           | Some (b, a) => Some (c :: b, a)
           | None => None
           end
  end.

(** The loop of [genSplit] once [n] is positive: at most [n] pieces, the
    last one the unsplit remainder. *)
Fixpoint splitUpTo (n : nat) (s : gostring) (sep : rune) : list gostring :=
  match n with
  | O => []
  | S O => [s]
  | S n' =>
      match cut s sep with
      | Some (b, a) => b :: splitUpTo n' a sep
      | None => [s]
      end
  end.

(** [strings.SplitN(s, sep, n)] for a separator of one rune. *)
Definition SplitN (s : gostring) (sep : rune) (n : Z) : list gostring :=
  if n =? 0 then []
  else if n <? 0 then Split s sep
  else splitUpTo (Z.to_nat n) s sep.

(** [strings.Fields]: the maximal runs of non-space runes. [cur] is the
    field being read, most recent rune first. *)
Fixpoint fieldsFrom (cur : gostring) (s : gostring) : list gostring :=
  match s with
  | [] => if cur is [] then [] else [reverse cur]
  | c :: s' =>
      if IsSpace c
      then (if cur is [] then fieldsFrom [] s'
            else reverse cur :: fieldsFrom [] s')
      else fieldsFrom (c :: cur) s'
  end.

Definition Fields (s : gostring) : list gostring := fieldsFrom [] s.

(** [strings.TrimLeftFunc(s, unicode.IsSpace)] *)
Fixpoint trimLeftSpace (s : gostring) : gostring :=
  match s with
  | [] => []
  | c :: s' => if IsSpace c then trimLeftSpace s' else s
  end.

(** [strings.TrimSpace] *)
Definition TrimSpace (s : gostring) : gostring :=
  reverse (trimLeftSpace (reverse (trimLeftSpace s))).

(** [strings.Join(elems, sep)] *)
Fixpoint Join (elems : list gostring) (sep : gostring) : gostring :=
  match elems with
  | [] => []
  | [e] => e
  | e :: es => e ++ sep ++ Join es sep
  end.

(** Go's [int] has 64 bits. *)
Definition maxInt : Z := 2 ^ 63 - 1.
Definition minInt : Z := - 2 ^ 63.

(** A value that arrives in a variable of type [int]. *)
Definition asInt (z : Z) : Z := (z + 2 ^ 63) mod 2 ^ 64 - 2 ^ 63.

Definition isDigit (r : rune) : bool := (48 <=? r) && (r <=? 57).

(** The value of a run of decimal digits, [acc] being the value read so
    far. *)
Fixpoint digitsValue (acc : Z) (ds : gostring) : Z :=
  match ds with
  | [] => acc
  | d :: ds' => digitsValue (10 * acc + (d - 48)) ds'
  end.

(** [strconv.Atoi]: an optional sign and one or more decimal digits; [None]
    is the error result (syntax, or a value out of the range of [int]). *)
Definition Atoi (s : gostring) : option Z :=
  let '(neg, ds) :=
    match s with
    | 45 :: ds => (true, ds)
    | 43 :: ds => (false, ds)
    | _ => (false, s)
    end in
  if bool_decide (ds = []) then None
  else if forallb isDigit ds then
    let v := if neg then - digitsValue 0 ds else digitsValue 0 ds in
    if (minInt <=? v) && (v <=? maxInt) then Some v else None
  else None.

(** [strconv.Itoa] *)
Definition Itoa (n : Z) : gostring := str (pretty.pretty n).

(** [strings.HasPrefix] and the rest after the prefix. *)
Fixpoint stripPrefix (p s : gostring) : option gostring :=
  match p, s with
  | [], _ => Some s
  | a :: p', b :: s' => if a =? b then stripPrefix p' s' else None
  | _ :: _, [] => None
  end.

(** The longest prefix of digits and what follows it: the greedy [\d*]. *)
Fixpoint spanDigits (s : gostring) : gostring * gostring :=
  match s with
  | [] => ([], [])
  | c :: s' =>
      if isDigit c then let '(ds, r) := spanDigits s' in (c :: ds, r)
      else ([], s)
  end.

End GoString.

Import GoString.

(** ** Regular expressions of [getFixes] *)

(** [fixes #(\d+)] matched at the start of [s]: the capture group. *)
Definition matchFixesAt (s : gostring) : option gostring :=
  match stripPrefix (str "fixes #") s with
  | Some r =>
      let '(ds, _) := spanDigits r in
      if bool_decide (ds = []) then None else Some ds
  | None => None
  end.

(** [fixesRe.FindAllStringSubmatch(msg, -1)], each match given by its capture
    group: the leftmost match, then the search goes on after it. [skip]
    counts the runes of [s] that still belong to the previous match. *)
Fixpoint findAllFixesFrom (skip : nat) (s : gostring) : list gostring :=
  match s with
  | [] => []
  | _ :: s' =>
      match skip with
      | S k => findAllFixesFrom k s'
      | O =>
          match matchFixesAt s with
          | Some ds => ds :: findAllFixesFrom (6 + length ds) s'
          | None => findAllFixesFrom 0 s'
          end
      end
  end.

Definition findAllFixes (msg : gostring) : list gostring :=
  findAllFixesFrom 0 msg.

(** [\(#(\d+)\)$] matched at the start of [s]: the capture group. The [$]
    asks for the end of the text. *)
Definition matchPullReqAt (s : gostring) : option gostring :=
  match stripPrefix (str "(#") s with
  | Some r =>
      let '(ds, r') := spanDigits r in
      if bool_decide (ds = []) then None
      else if bool_decide (r' = str ")") then Some ds else None
  | None => None
  end.

(** [pullReqRe.FindStringSubmatch(msg)]: the capture group of the leftmost
    match, [None] when the result is nil. *)
Fixpoint findPullReq (s : gostring) : option gostring :=
  match matchPullReqAt s with
  | Some ds => Some ds
  | None =>
      match s with
      | [] => None
      | _ :: s' => findPullReq s'
      end
  end.

(** ** Commits and [getFixes] *)

(** [github.RepositoryCommit], by what [commit.Commit.GetMessage()]
    returns. *)
Record RepositoryCommit := { Commit_GetMessage : gostring }.

(** [sort.Ints] *)
Definition sortInts (l : list Z) : list Z := merge_sort Z.le l.

(** The body shared by the two [strconv.Atoi] blocks of [getFixes]: a
    number that does not parse or was seen is passed over, a new one is
    appended and recorded. *)
Definition addFix (st : list Z * gset Z) (digits : gostring)
  : list Z * gset Z :=
  let '(fixes, seen) := st in
  match Atoi digits with
  | None => st
  | Some num =>
      if decide (num ∈ seen) then st
      else (fixes ++ [num], {[num]} ∪ seen)
  end.

(** One iteration of the loop over the commits. *)
Definition getFixesCommit (st : list Z * gset Z) (commit : RepositoryCommit)
  : list Z * gset Z :=
  let msg := Commit_GetMessage commit in
  let lines := Split msg 10 in
  let msg := default [] (lines !! 0%nat) in
  let matches := findAllFixes msg in
  let st := foldl addFix st matches in
  match findPullReq msg with
  | Some m => addFix st m
  | None => st
  end.

Definition getFixes (commits : list RepositoryCommit) : list Z :=
  let '(fixes, _) := foldl getFixesCommit ([], ∅) commits in
  sortInts fixes.

(** *** The reference definition of the extractor *)

(** The subject: the first line of the message. *)
Fixpoint subjectOf (msg : gostring) : gostring :=
  match msg with
  | [] => []
  | c :: msg' => if c =? 10 then [] else c :: subjectOf msg'
  end.

(** The numbers a subject refers to, in the order they are matched: every
    match of the first pattern, then the trailing one; a match that does not
    parse as an integer is discarded. *)
Definition subjectRefs (subject : gostring) : list Z :=
  omap Atoi (findAllFixes subject ++ option_list (findPullReq subject)).

(** Each number once, at its first occurrence. *)
Fixpoint firstSeen (seen : list Z) (l : list Z) : list Z :=
  match l with
  | [] => []
  | x :: l' =>
      if decide (x ∈ seen) then firstSeen seen l'
      else x :: firstSeen (x :: seen) l'
  end.

Definition getFixes_ref (commits : list RepositoryCommit) : list Z :=
  sortInts (firstSeen []
    (commits ≫= λ c, subjectRefs (subjectOf (Commit_GetMessage c)))).

(** ** Word wrap *)

(** [pref1]: the indent of continuation lines, two spaces when the first
    word is a hyphen or an asterisk. *)
Definition pref1Of (words : list gostring) : gostring :=
  match words with
  | w0 :: _ =>
      if bool_decide (w0 = str "-") || bool_decide (w0 = str "*")
      then str "  " else []
  | [] => []
  end.

(** One iteration of the loop of [wrapParagraph] over the words; the state
    is the builder [b] and the column [l]. *)
Definition wrapWord (w : Z) (pref1 : gostring) (st : gostring * Z)
    (word : gostring) : gostring * Z :=
  let '(b, l) := st in
  let '(b, l) := if 0 <? l then (b ++ [32], l + 1) else (b, l) in
  let '(b, l) :=
    if w <? l + len word then ((b ++ [10]) ++ pref1, 0 + len pref1)
    else (b, l) in
  (b ++ word, l + len word).

Definition wrapParagraph (s : gostring) (w : Z) : gostring :=
  let words := Fields s in
  if bool_decide (length words = 0%nat) then []
  else
    let pref1 := pref1Of words in
    (foldl (wrapWord w pref1) ([], 0) words).1.

(** One iteration of the loop of [wrap] over the lines, [i] the index. *)
Definition wrapLine (w : Z) (st : gostring * nat) (line : gostring)
  : gostring * nat :=
  let '(b, i) := st in
  let b := if (0 <? i)%nat then b ++ [10] else b in
  (b ++ wrapParagraph line w, S i).

Definition wrap (s : gostring) (w : Z) : gostring :=
  let lines := Split s 10 in
  (foldl (wrapLine w) ([], 0%nat) lines).1.

(** The lines of a text. *)
Definition linesOf (s : gostring) : list gostring := Split s 10.

(** A line without the separating space that [wrapParagraph] has written at
    its end before it wrapped. *)
Definition withoutTrailingSpace (line : gostring) : gostring :=
  match reverse line with
  | 32 :: r => reverse r
  | _ => line
  end.

(** Whitespace normalised: every maximal run of whitespace becomes one
    space, and whitespace at either end is removed. [pending] tells that a
    run of whitespace was read after a word. *)
Fixpoint squeezeFrom (started pending : bool) (s : gostring) : gostring :=
  match s with
  | [] => []
  | c :: s' =>
      if IsSpace c then squeezeFrom started started s'
      else (if pending then [32; c] else [c]) ++ squeezeFrom true false s'
  end.

Definition normalizeSpace (s : gostring) : gostring :=
  squeezeFrom false false s.

(** ** Release names *)

(** [strings.SplitN(release, "-", 2)[0]] *)
Definition milestoneOf (release : gostring) : gostring :=
  default [] (SplitN release 45 2 !! 0%nat).

(** [pre := release != milestone] *)
Definition isPrerelease (release : gostring) : bool :=
  bool_decide (release ≠ milestoneOf release).

(** The part of a string before the first hyphen, the whole string when it
    has none. *)
Fixpoint beforeHyphen (s : gostring) : gostring :=
  match s with
  | [] => []
  | c :: s' => if c =? 45 then [] else c :: beforeHyphen s'
  end.

(** The loop of [wrapParagraph] seen line by line: the finished lines and
    the line being filled. Its agreement with [wrapWord] is the lemma
    [foldl_wrapWord_lines]. *)
Definition wrapWordLines (w : Z) (pref1 : gostring)
    (st : list gostring * gostring) (word : gostring)
  : list gostring * gostring :=
  let '(fin, cur) := st in
  let cur := if 0 <? len cur then cur ++ [32] else cur in
  if w <? len cur + len word then (fin ++ [cur], pref1 ++ word)
  else (fin, cur ++ word).

(** A line that starts with the indent and then a rune that is no space. *)
Definition startsIndented (pref1 line : gostring) : Prop :=
  ∃ c rest, line = pref1 ++ c :: rest ∧ IsSpace c = false.

(** A word: not empty and without whitespace. *)
Definition isWord (word : gostring) : Prop :=
  word ≠ [] ∧ Forall (λ c, IsSpace c = false) word.

(** A line is within the width [w] when it is, the space at its end
    apart. *)
Definition withinWidth (w : Z) (line : gostring) : Prop :=
  len (withoutTrailingSpace line) ≤ w.

(** The paragraph is a list item: its first word is a hyphen or an
    asterisk. *)
Definition isBullet (para : gostring) : Prop :=
  head (Fields para) = Some (str "-") ∨ head (Fields para) = Some (str "*").

(** *** Sample descriptions *)

(** A milestone description with a plain paragraph and a list item, both
    longer than a line of 72 columns. *)
Definition sampleDescription : gostring :=
  str "This release fixes a number of problems found in the field and adds two new options for the discovery subsystem.

- The   discovery server   address can now be   given more than once, and the first one that answers is used.".

(** A list item whose first line fills the 72 columns exactly and whose
    third word has 71 letters: every word is shorter than 72. *)
Definition tightDescription : gostring :=
  str "- " ++ replicate 35 97 ++ [32] ++ replicate 34 98
    ++ [32] ++ replicate 71 99.

(** ** The data of the hosting service

    The structs of package [github] are given by what their nil-safe getters
    return; a pointer that the program tests against nil is an option. *)

Abbreviation error := (list Z) (only parsing).

Inductive result (A : Type) : Type :=
| Ok (a : A)
| Err (err : error).
Arguments Ok {A} a.
Arguments Err {A} err.

Record Milestone := {
  Milestone_GetTitle : gostring;
  Milestone_GetNumber : Z;
  Milestone_GetState : gostring;
  Milestone_GetDescription : gostring
}.

Record Label := { Label_GetName : gostring }.

Record Issue := {
  Issue_GetNumber : Z;
  Issue_GetState : gostring;
  Issue_GetTitle : gostring;
  Issue_GetHTMLURL : gostring;
  Issue_Labels : list Label;
  Issue_Milestone : option Milestone;
  Issue_IsPullRequest : bool
}.

Record IssueRequest := { IssueRequest_Milestone : option Z }.

Record RepositoryRelease := {
  Release_Name : gostring;
  Release_TagName : gostring;
  Release_Body : gostring;
  Release_Prerelease : bool;
  Release_Draft : bool
}.

Record Response := { NextPage : Z }.

Record MilestoneListOptions := {
  MilestoneListOptions_State : gostring;
  MilestoneListOptions_Page : Z
}.

Record IssueListByRepoOptions := {
  IssueListByRepoOptions_Milestone : gostring;
  IssueListByRepoOptions_State : gostring;
  IssueListByRepoOptions_Page : Z
}.

(** [stone.GetNumber()] on a pointer that may be nil. *)
Definition stoneNumber (stone : option Milestone) : Z :=
  from_option Milestone_GetNumber 0 stone.

(** [&github.Milestone{Title: github.String(milestone)}] *)
Definition milestoneTitled (title : gostring) : Milestone :=
  {| Milestone_GetTitle := title; Milestone_GetNumber := 0;
     Milestone_GetState := []; Milestone_GetDescription := [] |}.

(** [&github.Milestone{State: github.String("closed")}] *)
Definition milestoneClosed : Milestone :=
  {| Milestone_GetTitle := []; Milestone_GetNumber := 0;
     Milestone_GetState := str "closed"; Milestone_GetDescription := [] |}.

(** ** The calls to the service, and what a run leaves behind *)

Inductive Call :=
| IssuesListMilestones (owner repo : gostring) (opts : MilestoneListOptions)
| IssuesCreateMilestone (owner repo : gostring) (stone : Milestone)
| RepositoriesCompareCommits (owner repo base head : gostring)
| IssuesGet (owner repo : gostring) (number : Z)
| IssuesEdit (owner repo : gostring) (number : Z) (req : IssueRequest)
| IssuesListByRepo (owner repo : gostring) (opts : IssueListByRepoOptions)
| RepositoriesCreateRelease (owner repo : gostring) (rel : RepositoryRelease)
| IssuesEditMilestone (owner repo : gostring) (number : Z) (stone : Milestone).

(** The calls that create or edit. *)
Definition mutating (c : Call) : bool :=
  match c with
  | IssuesCreateMilestone _ _ _ | IssuesEdit _ _ _ _
  | RepositoriesCreateRelease _ _ _ | IssuesEditMilestone _ _ _ _ => true
  | _ => false
  end.

(** The arguments of a [log.Println]. *)
Inductive LogArg :=
| LogStr (s : gostring)
| LogInt (n : Z)
| LogErr (err : error).

(** What a run does, in order: a call with the error it returned (none for
    nil), or a line logged. *)
Inductive Event :=
| Called (c : Call) (err : option error)
| Logged (args : list LogArg).

Definition isMutation (e : Event) : bool :=
  match e with
  | Called c _ => mutating c
  | Logged _ => false
  end.

Definition resultErr {A} (r : result A) : option error :=
  match r with Ok _ => None | Err err => Some err end.

(** The client: each method of [github.Client] the program calls, as a
    function of the state of the service. *)
Record Client (W : Type) := {
  Issues_ListMilestones :
    gostring → gostring → MilestoneListOptions →
    W → result (list Milestone * Response) * W;
  Issues_CreateMilestone :
    gostring → gostring → Milestone → W → result Milestone * W;
  Repositories_CompareCommits :
    gostring → gostring → gostring → gostring →
    W → result (list RepositoryCommit) * W;
  Issues_Get : gostring → gostring → Z → W → result Issue * W;
  Issues_Edit :
    gostring → gostring → Z → IssueRequest → W → option error * W;
  Issues_ListByRepo :
    gostring → gostring → IssueListByRepoOptions →
    W → result (list Issue * Response) * W;
  Repositories_CreateRelease :
    gostring → gostring → RepositoryRelease → W → option error * W;
  Issues_EditMilestone :
    gostring → gostring → Z → Milestone → W → option error * W
}.
Arguments Issues_ListMilestones {W}.
Arguments Issues_CreateMilestone {W}.
Arguments Repositories_CompareCommits {W}.
Arguments Issues_Get {W}.
Arguments Issues_Edit {W}.
Arguments Issues_ListByRepo {W}.
Arguments Repositories_CreateRelease {W}.
Arguments Issues_EditMilestone {W}.

(** ** Programs: state passing over the service, with the trace written *)

(** What a program leaves: the value it returns, the state of the service,
    and the events in the order they happened. *)
Record Outcome (W A : Type) := {
  value : A;
  world : W;
  trace : list Event
}.
Arguments value {W A}.
Arguments world {W A}.
Arguments trace {W A}.

Definition Prog (W A : Type) : Type := W → Outcome W A.

Definition ret {W A} (a : A) : Prog W A :=
  λ w, {| value := a; world := w; trace := [] |}.

Definition bind {W A B} (m : Prog W A) (k : A → Prog W B) : Prog W B :=
  λ w, let o1 := m w in
       let o2 := k (value o1) (world o1) in
       {| value := value o2; world := world o2;
          trace := trace o1 ++ trace o2 |}.

Declare Scope prog_scope.
Delimit Scope prog_scope with prog.
Notation "x <- m ;; k" := (bind m (λ x, k))
  (at level 100, m at next level, right associativity) : prog_scope.
Notation "m ;;; k" := (bind m (λ _, k))
  (at level 100, right associativity) : prog_scope.
Local Open Scope prog_scope.

(** A call that returns a value or an error. *)
Definition callResult {W A} (c : Call) (f : W → result A * W)
  : Prog W (result A) :=
  λ w, {| value := (f w).1; world := (f w).2;
          trace := [Called c (resultErr (f w).1)] |}.

(** A call that returns an error only. *)
Definition callErr {W} (c : Call) (f : W → option error * W)
  : Prog W (option error) :=
  λ w, {| value := (f w).1; world := (f w).2;
          trace := [Called c (f w).1] |}.

(** [log.Println(args...)] *)
Definition logPrintln {W} (args : list LogArg) : Prog W unit :=
  λ w, {| value := tt; world := w; trace := [Logged args] |}.

(** [for { ... }]: the body gives the next state of the loop variables
    ([inl]) or leaves the loop with a value ([inr]). The body runs up to
    [2 ^ n] times. *)
Fixpoint loopPow {W S R} (n : nat) (body : S → Prog W (S + R)) (s : S)
  : Prog W (S + R) :=
  match n with
  | O => body s
  | Datatypes.S n' =>
      r <- loopPow n' body s ;;
      match r with
      | inl s' => loopPow n' body s'
      | inr x => ret (inr x)
      end
  end.

(** The loops of the program run over a page number, a Go [int]: [2 ^ 64]
    rounds are more than a strictly increasing [int] can take (lemma
    [forLoop_leaves]). *)
Definition forLoop {W S R} (body : S → Prog W (S + R)) (s : S)
  : Prog W (S + R) :=
  loopPow 64 body s.
Arguments forLoop : simpl never.

(** [for _, x := range l { ... }] *)
Fixpoint forRange {W A} (l : list A) (body : A → Prog W unit) : Prog W unit :=
  match l with
  | [] => ret tt
  | x :: l' => body x ;;; forRange l' body
  end.

(** ** The program *)

(** [labels]: the names of the labels of an issue, sorted. *)
Fixpoint stringLe (s t : gostring) : bool :=
  match s, t with
  | [], _ => true
  | _ :: _, [] => false
  | a :: s', b :: t' => (a <? b) || ((a =? b) && stringLe s' t')
  end.

Definition stringLeRel (s t : gostring) : Prop := Is_true (stringLe s t).

#[global] Instance stringLeRel_dec : RelDecision stringLeRel :=
  λ s t, decide (Is_true (stringLe s t)).

(** [sort.Strings] *)
Definition sortStrings (l : list gostring) : list gostring :=
  merge_sort stringLeRel l.

Definition labels (issue : Issue) : list gostring :=
  sortStrings (Label_GetName <$> Issue_Labels issue).

Fixpoint contains (s : gostring) (ss : list gostring) : bool :=
  match ss with
  | [] => false
  | v :: ss' => if bool_decide (v = s) then true else contains s ss'
  end.

(** [sort.Slice(issues, ...)] by issue number. Issues of one repository have
    distinct numbers, so the order among equal numbers, which [sort.Slice]
    leaves open, plays no role. *)
Definition issueLe (a b : Issue) : Prop :=
  Issue_GetNumber a ≤ Issue_GetNumber b.

#[global] Instance issueLe_dec : RelDecision issueLe :=
  λ a b, decide (Issue_GetNumber a ≤ Issue_GetNumber b).

Definition sortIssues (issues : list Issue) : list Issue :=
  merge_sort issueLe issues.

(** The inner loop over [skipLabels]: some skip label is among [labels]. *)
Definition skipped (skipLabels labels : list gostring) : bool :=
  existsb (λ skip, contains skip labels) skipLabels.

(** The three buckets [bugs], [enhancements], [other]. *)
Record Buckets := {
  bugs : list Issue;
  enhancements : list Issue;
  other : list Issue
}.

(** One iteration of the loop labelled [nextIssue] of [changelog]. *)
Definition bucketIssue (skipLabels : list gostring) (b : Buckets)
    (issue : Issue) : Buckets :=
  if Issue_IsPullRequest issue then b
  else
    let labels := labels issue in
    if skipped skipLabels labels then b
    else if contains (str "bug") labels then
      {| bugs := bugs b ++ [issue]; enhancements := enhancements b;
         other := other b |}
    else if contains (str "enhancement") labels then
      {| bugs := bugs b; enhancements := enhancements b ++ [issue];
         other := other b |}
    else
      {| bugs := bugs b; enhancements := enhancements b;
         other := other b ++ [issue] |}.

Definition bucketIssues (skipLabels : list gostring) (issues : list Issue)
  : Buckets :=
  foldl (bucketIssue skipLabels)
    {| bugs := []; enhancements := []; other := [] |} issues.

(** [printIssues]: the text it writes. *)
Definition printIssue (markdownLinks : bool) (issue : Issue) : gostring :=
  if markdownLinks then
    str "- [#" ++ Itoa (Issue_GetNumber issue) ++ str "]("
      ++ Issue_GetHTMLURL issue ++ str "): " ++ Issue_GetTitle issue ++ [10]
  else
    str "- #" ++ Itoa (Issue_GetNumber issue) ++ str ": "
      ++ Issue_GetTitle issue ++ [10].

Definition printIssues (w : gostring) (issues : list Issue)
    (markdownLinks : bool) : gostring :=
  foldl (λ w issue, w ++ printIssue markdownLinks issue) w issues.

(** The heading [changelog] writes when [withSubject] is set. *)
Definition heading (owner repo release : gostring) (markdownLinks : bool)
  : gostring :=
  if markdownLinks then
    str "# [" ++ release ++ str "](https://github.com/" ++ owner ++ str "/"
      ++ repo ++ str "/releases/" ++ release ++ str ")" ++ [10; 10]
  else release ++ [10; 10].

(** One of the three blocks at the end of [changelog]. *)
Definition printBucket (w : gostring) (mdTitle plainTitle : gostring)
    (issues : list Issue) (markdownLinks : bool) : gostring :=
  if bool_decide (0 < length issues)%nat then
    let w := w ++ (if markdownLinks then mdTitle else plainTitle) in
    let w := printIssues w issues markdownLinks in
    w ++ [10]
  else w.

(** What [changelog] writes to [w] once the milestone and its issues are
    there. *)
Definition writeChangelog (w : gostring) (owner repo release : gostring)
    (markdownLinks withSubject : bool) (stone : Milestone) (b : Buckets)
  : gostring :=
  let w := if withSubject then w ++ heading owner repo release markdownLinks
           else w in
  let w :=
    let descr := Milestone_GetDescription stone in
    if bool_decide (descr ≠ []) then
      let descr := wrap (TrimSpace descr) 72 in
      w ++ descr ++ [10; 10]
    else w in
  let w := printBucket w (str "## Bugfixes" ++ [10; 10])
             (str "Bugfixes:" ++ [10; 10]) (bugs b) markdownLinks in
  let w := printBucket w (str "## Enhancements" ++ [10; 10])
             (str "Enhancements:" ++ [10; 10]) (enhancements b)
             markdownLinks in
  printBucket w (str "## Other issues" ++ [10; 10])
    (str "Other issues:" ++ [10; 10]) (other b) markdownLinks.

(** The per-issue outcome of the milestone synchronisation, as the
    specification words it (the pull-request case left out). *)
Inductive Decision :=
| FetchFailed (err : error)
| NotClosed
| AlreadyMarked
| OtherMilestone
| Mark (issue : Issue).

Definition decisionOf (force : bool) (stone : option Milestone)
    (r : result Issue) : Decision :=
  match r with
  | Err err => FetchFailed err
  | Ok issue =>
      if bool_decide (Issue_GetState issue ≠ str "closed") then NotClosed
      else match Issue_Milestone issue with
           | Some m =>
               if bool_decide (Milestone_GetNumber m = stoneNumber stone)
               then AlreadyMarked
               else if force then Mark issue else OtherMilestone
           | None => Mark issue
           end
  end.

(** The line logged for a decision. *)
Definition decisionLog (fx : Z) (d : Decision) : Event :=
  match d with
  | FetchFailed err => Logged [LogStr (str "Getting issue:"); LogErr err]
  | NotClosed =>
      Logged [LogStr (str "Issue"); LogInt fx;
              LogStr (str "is not closed; not marking")]
  | AlreadyMarked =>
      Logged [LogStr (str "Issue"); LogInt fx;
              LogStr (str "is already correctly marked")]
  | OtherMilestone =>
      Logged [LogStr (str "Issue"); LogInt fx;
              LogStr (str "is already marked with another milestone")]
  | Mark _ => Logged [LogStr (str "Marking issue"); LogInt fx]
  end.

Section Program.

Context {W : Type} (gh : Client W).

(** The body of the loop of [getMilestone]; the loop variable is
    [opts.Page]. *)
Definition getMilestonePage (owner repo name : gostring) (page : Z)
  : Prog W (Z + result Milestone) :=
  let opts := {| MilestoneListOptions_State := str "all";
                 MilestoneListOptions_Page := page |} in
  r <- callResult (IssuesListMilestones owner repo opts)
         (Issues_ListMilestones gh owner repo opts) ;;
  match r with
  | Err err => ret (inr (Err err))
  | Ok (stones, resp) =>
      match List.find (λ stone, bool_decide (Milestone_GetTitle stone = name))
              stones with
      | Some stone => ret (inr (Ok stone))
      | None =>
          if asInt (NextPage resp) <=? page then ret (inr (Err (str "not found")))
          else ret (inl (asInt (NextPage resp)))
      end
  end.

Definition getMilestone (owner repo name : gostring)
  : Prog W (result Milestone) :=
  r <- forLoop (getMilestonePage owner repo name) 0 ;;
  match r with
  | inr x => ret x
  | inl _ => ret (Err (str "not found"))
  end.

Definition listCommits (owner repo since to : gostring)
  : Prog W (result (list RepositoryCommit)) :=
  callResult (RepositoriesCompareCommits owner repo since to)
    (Repositories_CompareCommits gh owner repo since to).

(** The body of the loop of [createMilestone] over the fixes. *)
Definition markIssue (owner repo : gostring) (stone : option Milestone)
    (force dryRun : bool) (fx : Z) : Prog W unit :=
  r <- callResult (IssuesGet owner repo fx) (Issues_Get gh owner repo fx) ;;
  match r with
  | Err err => logPrintln [LogStr (str "Getting issue:"); LogErr err]
  | Ok issue =>
      if bool_decide (Issue_GetState issue ≠ str "closed") then
        logPrintln [LogStr (str "Issue"); LogInt fx;
                    LogStr (str "is not closed; not marking")]
      else
        let mark :=
          logPrintln [LogStr (str "Marking issue"); LogInt fx] ;;;
          if negb dryRun then
            let req :=
              {| IssueRequest_Milestone := Some (stoneNumber stone) |} in
            err <- callErr (IssuesEdit owner repo (Issue_GetNumber issue) req)
                     (Issues_Edit gh owner repo (Issue_GetNumber issue) req) ;;
            match err with
            | Some err =>
                logPrintln [LogStr (str "Setting milestone on issue:");
                            LogErr err]
            | None => ret tt
            end
          else ret tt in
        match Issue_Milestone issue with
        | Some m =>
            if bool_decide (Milestone_GetNumber m = stoneNumber stone) then
              logPrintln [LogStr (str "Issue"); LogInt fx;
                          LogStr (str "is already correctly marked")]
            else if negb force then
              logPrintln [LogStr (str "Issue"); LogInt fx;
                          LogStr (str "is already marked with another milestone")]
            else mark
        | None => mark
        end
  end.

Definition createMilestone (owner repo since to milestone : gostring)
    (force dryRun : bool) : Prog W (option error) :=
  r <- getMilestone owner repo milestone ;;
  r <- match r with
       | Ok stone => ret (Ok (Some stone))
       | Err _ =>
           logPrintln [LogStr (str "Creating milestone"); LogStr milestone] ;;;
           if negb dryRun then
             r <- callResult
                    (IssuesCreateMilestone owner repo (milestoneTitled milestone))
                    (Issues_CreateMilestone gh owner repo
                       (milestoneTitled milestone)) ;;
             match r with
             | Err err => ret (Err err)
             | Ok stone => ret (Ok (Some stone))
             end
           else ret (Ok None)
       end ;;
  match r with
  | Err err => ret (Some err)
  | Ok stone =>
      commits <- listCommits owner repo since to ;;
      match commits with
      | Err err => ret (Some (str "listing commits: " ++ err))
      | Ok commits =>
          forRange (getFixes commits)
            (markIssue owner repo stone force dryRun) ;;;
          ret None
      end
  end.

(** The body of the loop of [changelog] that lists the issues; the loop
    variables are [opts.Page] and [issues]. *)
Definition listIssuesPage (owner repo : gostring) (stone : Milestone)
    (st : Z * list Issue) : Prog W (Z * list Issue + result (list Issue)) :=
  let '(page, issues) := st in
  let opts := {| IssueListByRepoOptions_Milestone :=
                   Itoa (Milestone_GetNumber stone);
                 IssueListByRepoOptions_State := str "all";
                 IssueListByRepoOptions_Page := page |} in
  r <- callResult (IssuesListByRepo owner repo opts)
         (Issues_ListByRepo gh owner repo opts) ;;
  match r with
  | Err err => ret (inr (Err (str "listing issues: " ++ err)))
  | Ok (is_, resp) =>
      let issues := issues ++ is_ in
      if asInt (NextPage resp) <=? page then ret (inr (Ok issues))
      else ret (inl (asInt (NextPage resp), issues))
  end.

(** [changelog]: [w] is what the writer holds; the result is what it holds
    afterwards, and the error. *)
Definition changelog (w : gostring) (owner repo release : gostring)
    (markdownLinks : bool) (skipLabels : list gostring) (withSubject : bool)
  : Prog W (gostring * option error) :=
  let milestone := milestoneOf release in
  r <- getMilestone owner repo milestone ;;
  match r with
  | Err err => ret (w, Some (str "getting milestone: " ++ err))
  | Ok stone =>
      r <- forLoop (listIssuesPage owner repo stone) (0, []) ;;
      match r with
      | inl _ => ret (w, Some (str "listing issues: "))
      | inr (Err err) => ret (w, Some err)
      | inr (Ok issues) =>
          let issues := sortIssues issues in
          let b := bucketIssues skipLabels issues in
          ret (writeChangelog w owner repo release markdownLinks withSubject
                 stone b, None)
      end
  end.

Definition createRelease (owner repo release changelog : gostring)
  : Prog W (option error) :=
  let milestone := milestoneOf release in
  let pre := isPrerelease release in
  r <- getMilestone owner repo milestone ;;
  match r with
  | Err err => ret (Some (str "getting milestone: " ++ err))
  | Ok stone =>
      let rel := {| Release_Name := release; Release_TagName := release;
                    Release_Body := changelog; Release_Prerelease := pre;
                    Release_Draft := false |} in
      err <- callErr (RepositoriesCreateRelease owner repo rel)
               (Repositories_CreateRelease gh owner repo rel) ;;
      match err with
      | Some err => ret (Some err)
      | None =>
          if negb pre then
            err <- callErr
                     (IssuesEditMilestone owner repo
                        (Milestone_GetNumber stone) milestoneClosed)
                     (Issues_EditMilestone gh owner repo
                        (Milestone_GetNumber stone) milestoneClosed) ;;
            match err with
            | Some _ => ret (Some (str "closing milestone: %!w(MISSING)"))
            | None => ret None
            end
          else ret None
      end
  end.

(** [milestoneOptions.Run] *)
Definition milestoneRun (owner repo from to milestone : gostring)
    (force dryRun : bool) : Prog W (option error) :=
  createMilestone owner repo from to milestone force dryRun.

(** [changelogOptions.Run]; [stdout] is what standard output holds. *)
Definition changelogRun (stdout : gostring) (owner repo release : gostring)
    (md : bool) (skipLabels : list gostring)
  : Prog W (gostring * option error) :=
  changelog stdout owner repo release md skipLabels true.

(** [releaseOptions.Run] *)
Definition releaseRun (owner repo release : gostring)
    (skipLabels : list gostring) : Prog W (option error) :=
  r <- changelog [] owner repo release false skipLabels false ;;
  match r with
  | (_, Some err) => ret (Some err)
  | (buf, None) => createRelease owner repo release buf
  end.

End Program.

(** The service with its creating and editing calls cut off: they change
    nothing and report success, a created milestone being the one that was
    sent. *)
Definition suppressMutations {W} (gh : Client W) : Client W := {|
  Issues_ListMilestones := Issues_ListMilestones gh;
  Issues_CreateMilestone := λ _ _ stone w, (Ok stone, w);
  Repositories_CompareCommits := Repositories_CompareCommits gh;
  Issues_Get := Issues_Get gh;
  Issues_Edit := λ _ _ _ _ w, (None, w);
  Issues_ListByRepo := Issues_ListByRepo gh;
  Repositories_CreateRelease := λ _ _ _ w, (None, w);
  Issues_EditMilestone := λ _ _ _ _ w, (None, w)
|}.

(** The events of a trace that are no creating or editing calls. *)
Definition withoutMutations (t : list Event) : list Event :=
  List.filter (λ e, negb (isMutation e)) t.

(** The creating and editing calls of a trace. *)
Definition mutations (t : list Event) : list Event :=
  List.filter isMutation t.

(** What a dry run does for the fixes: each issue is fetched and the
    decision is logged. *)
Fixpoint dryIssueTrace {W} (gh : Client W) (owner repo : gostring)
    (stone : option Milestone) (force : bool) (fixes : list Z) (w : W)
  : list Event :=
  match fixes with
  | [] => []
  | fx :: fixes' =>
      let r := Issues_Get gh owner repo fx w in
      Called (IssuesGet owner repo fx) (resultErr r.1)
        :: decisionLog fx (decisionOf force stone r.1)
        :: dryIssueTrace gh owner repo stone force fixes' r.2
  end.

(** ** A service held in memory

    A small model of the hosting service, used to run the program on
    concrete repositories: one page per listing, issues found by number,
    and writes refused when [mem_writable] is off. *)

Record MemWorld := {
  mem_milestones : list Milestone;
  mem_issues : list Issue;
  mem_commits : list RepositoryCommit;
  mem_releases : list RepositoryRelease;
  mem_writable : bool
}.

Definition memFindIssue (w : MemWorld) (number : Z) : option Issue :=
  List.find (λ i, Issue_GetNumber i =? number) (mem_issues w).

Definition memFindMilestone (w : MemWorld) (number : Z) : option Milestone :=
  List.find (λ m, Milestone_GetNumber m =? number) (mem_milestones w).

Definition memFreshNumber (w : MemWorld) : Z :=
  1 + foldr Z.max 0 (Milestone_GetNumber <$> mem_milestones w).

Definition memSetIssues (w : MemWorld) (issues : list Issue) : MemWorld :=
  {| mem_milestones := mem_milestones w; mem_issues := issues;
     mem_commits := mem_commits w; mem_releases := mem_releases w;
     mem_writable := mem_writable w |}.

Definition memSetMilestones (w : MemWorld) (stones : list Milestone)
  : MemWorld :=
  {| mem_milestones := stones; mem_issues := mem_issues w;
     mem_commits := mem_commits w; mem_releases := mem_releases w;
     mem_writable := mem_writable w |}.

Definition memSetReleases (w : MemWorld) (rels : list RepositoryRelease)
  : MemWorld :=
  {| mem_milestones := mem_milestones w; mem_issues := mem_issues w;
     mem_commits := mem_commits w; mem_releases := rels;
     mem_writable := mem_writable w |}.

Definition issueWithMilestone (stone : option Milestone) (i : Issue) : Issue :=
  {| Issue_GetNumber := Issue_GetNumber i; Issue_GetState := Issue_GetState i;
     Issue_GetTitle := Issue_GetTitle i; Issue_GetHTMLURL := Issue_GetHTMLURL i;
     Issue_Labels := Issue_Labels i; Issue_Milestone := stone;
     Issue_IsPullRequest := Issue_IsPullRequest i |}.

Definition forbidden : error := str "403 Forbidden".
Definition notFound : error := str "404 Not Found".

Definition memClient : Client MemWorld := {|
  Issues_ListMilestones := λ _ _ _ w,
    (Ok (mem_milestones w, {| NextPage := 0 |}), w);
  Issues_CreateMilestone := λ _ _ stone w,
    if mem_writable w then
      let stone := {| Milestone_GetTitle := Milestone_GetTitle stone;
                      Milestone_GetNumber := memFreshNumber w;
                      Milestone_GetState := str "open";
                      Milestone_GetDescription := [] |} in
      (Ok stone, memSetMilestones w (mem_milestones w ++ [stone]))
    else (Err forbidden, w);
  Repositories_CompareCommits := λ _ _ _ _ w, (Ok (mem_commits w), w);
  Issues_Get := λ _ _ number w,
    match memFindIssue w number with
    | Some i => (Ok i, w)
    | None => (Err notFound, w)
    end;
  Issues_Edit := λ _ _ number req w,
    if mem_writable w then
      match memFindIssue w number, IssueRequest_Milestone req with
      | Some _, Some n =>
          (None,
           memSetIssues w
             ((λ i, if Issue_GetNumber i =? number
                    then issueWithMilestone (memFindMilestone w n) i else i)
                <$> mem_issues w))
      | Some _, None => (None, w)
      | None, _ => (Some notFound, w)
      end
    else (Some forbidden, w);
  Issues_ListByRepo := λ _ _ opts w,
    (Ok (List.filter
           (λ i, match Issue_Milestone i with
                 | Some m => bool_decide
                     (Itoa (Milestone_GetNumber m) =
                      IssueListByRepoOptions_Milestone opts)
                 | None => false
                 end) (mem_issues w),
         {| NextPage := 0 |}), w);
  Repositories_CreateRelease := λ _ _ rel w,
    if mem_writable w then (None, memSetReleases w (mem_releases w ++ [rel]))
    else (Some forbidden, w);
  Issues_EditMilestone := λ _ _ number stone w,
    if mem_writable w then
      match memFindMilestone w number with
      | Some _ =>
          (None,
           memSetMilestones w
             ((λ m, if Milestone_GetNumber m =? number
                    then {| Milestone_GetTitle := Milestone_GetTitle m;
                            Milestone_GetNumber := Milestone_GetNumber m;
                            Milestone_GetState := Milestone_GetState stone;
                            Milestone_GetDescription :=
                              Milestone_GetDescription m |}
                    else m) <$> mem_milestones w))
      | None => (Some notFound, w)
      end
    else (Some forbidden, w)
|}.

(** *** Sample repositories *)

Definition mkIssue (number : Z) (state title : String.string)
    (labelNames : list String.string) (stone : option Milestone)
    (pull : bool) : Issue :=
  {| Issue_GetNumber := number; Issue_GetState := str state;
     Issue_GetTitle := str title;
     Issue_GetHTMLURL :=
       str "https://github.com/acme/tool/issues/" ++ Itoa number;
     Issue_Labels := (λ n, {| Label_GetName := str n |}) <$> labelNames;
     Issue_Milestone := stone; Issue_IsPullRequest := pull |}.

Definition stoneV100 : Milestone :=
  {| Milestone_GetTitle := str "v1.0.0"; Milestone_GetNumber := 1;
     Milestone_GetState := str "open"; Milestone_GetDescription := [] |}.

(** The milestone "v1.0.0" with the three issues of the end-to-end
    scenario, and a pull request and a skipped issue besides. *)
Definition repoV100 : MemWorld :=
  {| mem_milestones := [stoneV100];
     mem_issues :=
       [ mkIssue 3 "closed" "Typo" [] (Some stoneV100) false;
         mkIssue 1 "closed" "Crash on start" ["bug"] (Some stoneV100) false;
         mkIssue 2 "closed" "Add flag" ["enhancement"] (Some stoneV100) false ];
     mem_commits := []; mem_releases := []; mem_writable := true |}.

(** A repository without milestones: issue 7 is closed, 8 is open, 9 is a
    closed pull request, and 10 does not exist; the commits refer to all
    four. *)
Definition repoFresh : MemWorld :=
  {| mem_milestones := [];
     mem_issues :=
       [ mkIssue 7 "closed" "Crash on start" ["bug"] None false;
         mkIssue 8 "open" "Add flag" ["enhancement"] None false;
         mkIssue 9 "closed" "lib: handle empty config" [] None true ];
     mem_commits :=
       [ {| Commit_GetMessage := str "lib: handle empty config (fixes #7) (#9)" |};
         {| Commit_GetMessage := str "cmd: add flag (fixes #8, fixes #10)" |} ];
     mem_releases := []; mem_writable := true |}.

(** The events of the assignment of the milestone to [issue]: the edit and,
    when it fails, the line logged. *)
Definition editEvents {W} (gh : Client W) (owner repo : gostring)
    (stone : option Milestone) (issue : Issue) (w : W) : list Event :=
  let req := {| IssueRequest_Milestone := Some (stoneNumber stone) |} in
  let err := (Issues_Edit gh owner repo (Issue_GetNumber issue) req w).1 in
  Called (IssuesEdit owner repo (Issue_GetNumber issue) req) err
    :: match err with
       | Some err =>
           [Logged [LogStr (str "Setting milestone on issue:"); LogErr err]]
       | None => []
       end.

(** The conditions under which an issue is passed over with a log line
    only: the fetch fails, the issue is not closed, or it carries another
    milestone and [force] is off. *)
Definition passedOver (force : bool) (stone : option Milestone)
    (r : result Issue) : Prop :=
  (∃ err, r = Err err) ∨
  (∃ issue, r = Ok issue ∧
     (Issue_GetState issue ≠ str "closed" ∨
      ∃ m, Issue_Milestone issue = Some m ∧
           Milestone_GetNumber m ≠ stoneNumber stone ∧ force = false)).

(** The issue is closed and carries this very milestone. *)
Definition carriesMilestone (stone : option Milestone) (r : result Issue)
  : Prop :=
  ∃ issue m, r = Ok issue ∧ Issue_GetState issue = str "closed" ∧
    Issue_Milestone issue = Some m ∧
    Milestone_GetNumber m = stoneNumber stone.

Definition isPassedOver (d : Decision) : bool :=
  match d with
  | FetchFailed _ | NotClosed | OtherMilestone => true
  | AlreadyMarked | Mark _ => false
  end.

(** The line that announces the assignment of the milestone to an issue. *)
Definition isMarkingLog (e : Event) : bool :=
  match e with
  | Logged [LogStr s; LogInt _] => bool_decide (s = str "Marking issue")
  | _ => false
  end.

Definition isEditCall (e : Event) : bool :=
  match e with
  | Called (IssuesEdit _ _ _ _) _ => true
  | _ => false
  end.

(** The line that announces the creation of the milestone. *)
Definition creatingLog (milestone : gostring) : Event :=
  Logged [LogStr (str "Creating milestone"); LogStr milestone].

(** How many events of a trace satisfy [p]. *)
Definition count (p : Event → bool) (t : list Event) : nat :=
  length (List.filter p t).

(** The stone a dry run works with: the one found, or nil. *)
Definition foundStone (r : result Milestone) : option Milestone :=
  match r with Ok stone => Some stone | Err _ => None end.

(** *** The partition of the changelog, as the specification words it *)

Inductive Bucket := Bugfixes | Enhancements | Other.

#[global] Instance Bucket_eq_dec : EqDecision Bucket.
Proof. solve_decision. Defined.

(** The issue carries the label [name]. *)
Definition hasLabel (name : gostring) (issue : Issue) : bool :=
  bool_decide (name ∈ Label_GetName <$> Issue_Labels issue).

(** The first rule that matches: "bug", then "enhancement", else the
    rest. *)
Definition bucketOf (issue : Issue) : Bucket :=
  if hasLabel (str "bug") issue then Bugfixes
  else if hasLabel (str "enhancement") issue then Enhancements
  else Other.

(** The issue is no pull request and carries no label of the skip list. *)
Definition survives (skipLabels : list gostring) (issue : Issue) : bool :=
  negb (Issue_IsPullRequest issue)
  && forallb (λ skip, negb (hasLabel skip issue)) skipLabels.

(** The surviving issues of a bucket, in the order of the list. *)
Definition inBucket (skipLabels : list gostring) (b : Bucket)
    (issues : list Issue) : list Issue :=
  List.filter (λ i, survives skipLabels i && bool_decide (bucketOf i = b))
    issues.

(** The four issues of the partition example: labelled bug, enhancement,
    both, and not at all. *)
Definition labelledIssues : list Issue :=
  [ mkIssue 1 "closed" "Crash on start" ["bug"] (Some stoneV100) false;
    mkIssue 2 "closed" "Add flag" ["enhancement"] (Some stoneV100) false;
    mkIssue 3 "closed" "Slow and wrong" ["bug"; "enhancement"]
      (Some stoneV100) false;
    mkIssue 4 "closed" "Typo" [] (Some stoneV100) false ].

(** The events of a lookup: listings of the milestones. *)
Definition isListing (owner repo : gostring) (e : Event) : Prop :=
  ∃ opts err, e = Called (IssuesListMilestones owner repo opts) err.

(** The listings of the issues of the milestone [stone]. *)
Definition isIssueListing (owner repo : gostring) (stone : Milestone)
    (e : Event) : Prop :=
  ∃ opts err, e = Called (IssuesListByRepo owner repo opts) err ∧
    IssueListByRepoOptions_Milestone opts = Itoa (Milestone_GetNumber stone) ∧
    IssueListByRepoOptions_State opts = str "all".

(** The release [createRelease] sends. *)
Definition releaseOf (release changelog : gostring) : RepositoryRelease :=
  {| Release_Name := release; Release_TagName := release;
     Release_Body := changelog;
     Release_Prerelease := bool_decide (release ≠ milestoneOf release);
     Release_Draft := false |}.

(** The events of [createRelease] after the lookup has found [stone]: the
    creation of the release and, when it succeeds and the release is final,
    the closing of the milestone. *)
Definition releaseEvents {W} (gh : Client W) (owner repo release changelog : gostring)
    (stone : Milestone) (w : W) : list Event :=
  let rel := releaseOf release changelog in
  let c := Repositories_CreateRelease gh owner repo rel w in
  Called (RepositoriesCreateRelease owner repo rel) c.1
  :: match c.1 with
     | Some _ => []
     | None =>
         if bool_decide (release ≠ milestoneOf release) then []
         else
           [Called (IssuesEditMilestone owner repo (Milestone_GetNumber stone)
                      milestoneClosed)
              (Issues_EditMilestone gh owner repo (Milestone_GetNumber stone)
                 milestoneClosed c.2).1]
     end.

(** [for { ... }] run round by round: at most [k] rounds. It is the loop of
    [loopPow] by the lemma [loopPow_iterLoop]. *)
Fixpoint iterLoop {W S R} (k : nat) (body : S → Prog W (S + R)) (s : S)
  : Prog W (S + R) :=
  match k with
  | O => ret (inl s)
  | Datatypes.S k' =>
      r <- body s ;;
      match r with
      | inl s' => iterLoop k' body s'
      | inr x => ret (inr x)
      end
  end.

(** *** A service that lists in pages

    [memClient], but the listings of milestones and issues come in pages of
    [size] entries: page 0 is page 1, and the response names the next page,
    or 0 after the last one. *)

Definition pageOf {A} (size : nat) (page : Z) (l : list A)
  : list A * Response :=
  let i := (Z.to_nat (Z.max page 1) - 1)%nat in
  let rest := drop (i * size) l in
  (take size rest,
   {| NextPage := if bool_decide (size < length rest)%nat
                  then Z.of_nat i + 2 else 0 |}).

Definition memPagedClient (size : nat) : Client MemWorld := {|
  Issues_ListMilestones := λ _ _ opts w,
    (Ok (pageOf size (MilestoneListOptions_Page opts) (mem_milestones w)), w);
  Issues_CreateMilestone := Issues_CreateMilestone memClient;
  Repositories_CompareCommits := Repositories_CompareCommits memClient;
  Issues_Get := Issues_Get memClient;
  Issues_Edit := Issues_Edit memClient;
  Issues_ListByRepo := λ owner repo opts w,
    match Issues_ListByRepo memClient owner repo opts w with
    | (Ok (issues, _), w') =>
        (Ok (pageOf size (IssueListByRepoOptions_Page opts) issues), w')
    | (Err err, w') => (Err err, w')
    end;
  Repositories_CreateRelease := Repositories_CreateRelease memClient;
  Issues_EditMilestone := Issues_EditMilestone memClient
|}.

Definition stoneV090 : Milestone :=
  {| Milestone_GetTitle := str "v0.9.0"; Milestone_GetNumber := 1;
     Milestone_GetState := str "closed"; Milestone_GetDescription := [] |}.

Definition stoneV110 : Milestone :=
  {| Milestone_GetTitle := str "v1.1.0"; Milestone_GetNumber := 2;
     Milestone_GetState := str "open";
     Milestone_GetDescription := str "  Small fixes.  " |}.

(** Two milestones; the three issues of "v1.1.0" are listed out of
    order. *)
Definition repoV110 : MemWorld :=
  {| mem_milestones := [stoneV090; stoneV110];
     mem_issues :=
       [ mkIssue 12 "closed" "Wrong exit code" ["bug"] (Some stoneV110) false;
         mkIssue 11 "closed" "Old crash" ["bug"] (Some stoneV090) false;
         mkIssue 15 "closed" "Add --json" ["enhancement"] (Some stoneV110) false;
         mkIssue 13 "closed" "Panic on empty input" ["bug"; "crash"]
           (Some stoneV110) false ];
     mem_commits := []; mem_releases := []; mem_writable := true |}.

(** The captures of the two patterns are runs of digits. *)
Definition isDigits (ds : gostring) : Prop :=
  ds ≠ [] ∧ forallb isDigit ds = true.

(** The state of the loop of [wrapParagraph]: the column is 0 before the
    first word, and above 0 afterwards. *)
Definition wrapState (st : gostring * Z) : Prop :=
  (st.2 = 0 ∧ st.1 = []) ∨ 0 < st.2.

(** *** Calls on issues and milestones in a trace *)

(** The numbers of the issues fetched, in the order of the calls. *)
Definition fetched (t : list Event) : list Z :=
  omap (λ e, match e with
             | Called (IssuesGet _ _ number) _ => Some number
             | _ => None
             end) t.

(** The numbers of the issues edited, in the order of the calls. *)
Definition edited (t : list Event) : list Z :=
  omap (λ e, match e with
             | Called (IssuesEdit _ _ number _) _ => Some number
             | _ => None
             end) t.

(** The creations of a milestone. *)
Definition isCreateMilestone (e : Event) : bool :=
  match e with
  | Called (IssuesCreateMilestone _ _ _) _ => true
  | _ => false
  end.

(** The service in memory with its milestones locked: releases can be
    created, a milestone cannot be edited. *)
Definition lockedClient : Client MemWorld := {|
  Issues_ListMilestones := Issues_ListMilestones memClient;
  Issues_CreateMilestone := Issues_CreateMilestone memClient;
  Repositories_CompareCommits := Repositories_CompareCommits memClient;
  Issues_Get := Issues_Get memClient;
  Issues_Edit := Issues_Edit memClient;
  Issues_ListByRepo := Issues_ListByRepo memClient;
  Repositories_CreateRelease := Repositories_CreateRelease memClient;
  Issues_EditMilestone := λ _ _ _ _ w, (Some (str "422 Validation Failed"), w)
|}.

(** The second half of [createMilestone], once the milestone is settled:
    the commits are listed and the fixes are gone through. *)
Definition syncIssues {W} (gh : Client W) (owner repo since to : gostring)
    (stone : option Milestone) (force dryRun : bool) : Prog W (option error) :=
  commits <- listCommits gh owner repo since to ;;
  match commits with
  | Err err => ret (Some (str "listing commits: " ++ err))
  | Ok commits =>
      forRange (getFixes commits)
        (markIssue gh owner repo stone force dryRun) ;;;
      ret None
  end.

(** ** The commands and their options *)

(** [commonOptions]: the owner and the repository; the context and the
    client are the service the program runs against. *)
Record commonOptions := {
  common_Owner : gostring;
  common_Repo : gostring
}.

(** [releaseOptions]: the dry-run flag, the skip labels and the release
    name. *)
Record releaseOptions := {
  release_DryRun : bool;
  release_SkipLabels : list gostring;
  release_Release : gostring
}.

(** [releaseOptions.Run] on the options as they are parsed. *)
Definition releaseOptions_Run {W} (gh : Client W) (o : releaseOptions)
    (common : commonOptions) : Prog W (option error) :=
  releaseRun gh (common_Owner common) (common_Repo common)
    (release_Release o) (release_SkipLabels o).

(** The options with the dry-run flag set to [b]. *)
Definition withDryRun (b : bool) (o : releaseOptions) : releaseOptions :=
  {| release_DryRun := b; release_SkipLabels := release_SkipLabels o;
     release_Release := release_Release o |}.

(** * Properties *)

(** ** Strings *)

Lemma Split_nonempty s sep : Split s sep ≠ [].
Proof. destruct s as [|c s]; simpl; [done|]. by repeat case_match. Qed.

Lemma Split_head s : default [] (Split s 10 !! 0%nat) = subjectOf s.
Proof.
  induction s as [|c s IH]; simpl; [done|].
  destruct (c =? 10); [done|].
  destruct (Split s 10) as [|l ls] eqn:E; [by destruct (Split_nonempty s 10)|].
  simpl in *. by rewrite IH.
Qed.

Lemma stripPrefix_Some p s r : stripPrefix p s = Some r → s = p ++ r.
Proof.
  revert s; induction p as [|a p IH]; intros [|b s]; simpl; try congruence.
  destruct (Z.eqb_spec a b); [|done]. intros ?%IH. by subst.
Qed.

Lemma stripPrefix_app p r : stripPrefix p (p ++ r) = Some r.
Proof. induction p as [|a p IH]; simpl; [by destruct r|]. by rewrite Z.eqb_refl. Qed.

Lemma spanDigits_spec s ds r :
  spanDigits s = (ds, r) → s = ds ++ r ∧ forallb isDigit ds = true.
Proof.
  revert ds r; induction s as [|c s IH]; simpl; intros ds r.
  - by intros [= <- <-].
  - destruct (isDigit c) eqn:Hc.
    + destruct (spanDigits s) as [ds' r'] eqn:E. intros [= <- <-].
      destruct (IH _ _ eq_refl) as [-> Hd]. simpl. by rewrite Hc, Hd.
    + by intros [= <- <-].
Qed.

Lemma spanDigits_app ds r :
  forallb isDigit ds = true →
  (∀ c r', r = c :: r' → isDigit c = false) →
  spanDigits (ds ++ r) = (ds, r).
Proof.
  intros Hd Hr. induction ds as [|d ds IH]; simpl in *.
  - destruct r as [|c r']; [done|]. simpl. by rewrite (Hr c r').
  - apply andb_prop in Hd as [-> Hd]. by rewrite IH.
Qed.

(** ** The two patterns *)

Lemma matchPullReqAt_Some s ds :
  matchPullReqAt s = Some ds →
  s = str "(#" ++ ds ++ str ")" ∧ forallb isDigit ds = true ∧ ds ≠ [].
Proof.
  unfold matchPullReqAt.
  destruct (stripPrefix _ s) as [r|] eqn:Hp; [|done].
  apply stripPrefix_Some in Hp as ->.
  destruct (spanDigits r) as [ds' r'] eqn:Hs.
  apply spanDigits_spec in Hs as [-> Hd].
  repeat case_bool_decide; try done. intros [= ->]. by subst.
Qed.

Lemma matchPullReqAt_exact ds :
  forallb isDigit ds = true → ds ≠ [] →
  matchPullReqAt (str "(#" ++ ds ++ str ")") = Some ds.
Proof.
  intros Hd Hne. unfold matchPullReqAt.
  rewrite stripPrefix_app, spanDigits_app; [|done|by intros c r' [= <- <-]].
  by rewrite bool_decide_false, bool_decide_true.
Qed.

Lemma findPullReq_unfold s :
  findPullReq s =
  match matchPullReqAt s with
  | Some ds => Some ds
  | None => match s with [] => None | _ :: s' => findPullReq s' end
  end.
Proof. by destruct s. Qed.

Lemma findPullReq_suffix pre ds :
  forallb isDigit ds = true → ds ≠ [] →
  findPullReq (pre ++ str "(#" ++ ds ++ str ")") = Some ds.
Proof.
  intros Hd Hne. induction pre as [|c pre IH]; rewrite findPullReq_unfold.
  - by rewrite app_nil_l, matchPullReqAt_exact.
  - destruct (matchPullReqAt _) as [ds'|] eqn:Hm; [|by rewrite <-app_comm_cons].
    exfalso. apply matchPullReqAt_Some in Hm as (Heq & Hd' & _).
    assert (40 ∈ pre ++ str "(#" ++ ds ++ str ")") as Hin.
    { apply elem_of_app; right. by left. }
    rewrite <-app_comm_cons in Heq.
    change (str "(#" ++ ds' ++ str ")") with (40 :: 35 :: ds' ++ [41]) in Heq.
    assert (pre ++ str "(#" ++ ds ++ str ")" = 35 :: ds' ++ [41]) as Heq'
      by congruence.
    rewrite Heq' in Hin.
    apply elem_of_cons in Hin as [?|Hin]; [done|].
    apply elem_of_app in Hin as [Hin|Hin].
    + rewrite forallb_forall in Hd'. by apply list_elem_of_In, Hd' in Hin.
    + by apply list_elem_of_singleton in Hin.
Qed.

(** ** [getFixes] against its reference definition *)

Lemma firstSeen_ext s1 s2 l :
  (∀ x, x ∈ s1 ↔ x ∈ s2) → firstSeen s1 l = firstSeen s2 l.
Proof.
  revert s1 s2; induction l as [|x l IH]; intros s1 s2 Hs; simpl; [done|].
  destruct (decide (x ∈ s1)) as [H1|H1], (decide (x ∈ s2)) as [H2|H2];
    try (by apply Hs in H1); try (by apply Hs in H2); [by apply IH|].
  f_equal. apply IH. intros y. rewrite !elem_of_cons. by rewrite Hs.
Qed.

Lemma elem_of_firstSeen s l x : x ∈ firstSeen s l ↔ x ∈ l ∧ x ∉ s.
Proof.
  revert s; induction l as [|y l IH]; intros s; simpl.
  - rewrite elem_of_nil. tauto.
  - destruct (decide (y ∈ s)) as [Hy|Hy].
    + rewrite IH, elem_of_cons. split; [tauto|]. intros [[->|?] ?]; tauto.
    + rewrite !elem_of_cons, IH, elem_of_cons.
      destruct (decide (x = y)) as [->|]; tauto.
Qed.

Lemma NoDup_firstSeen s l : NoDup (firstSeen s l).
Proof.
  revert s; induction l as [|y l IH]; intros s; simpl; [constructor|].
  destruct (decide (y ∈ s)); [done|]. constructor; [|done].
  rewrite elem_of_firstSeen, elem_of_cons. tauto.
Qed.

Lemma firstSeen_app s l1 l2 :
  firstSeen s (l1 ++ l2) =
  firstSeen s l1 ++ firstSeen (s ++ firstSeen s l1) l2.
Proof.
  revert s; induction l1 as [|y l1 IH]; intros s; simpl.
  - by rewrite app_nil_r.
  - destruct (decide (y ∈ s)); [done|]. rewrite IH. simpl. do 2 f_equal.
    apply firstSeen_ext. intros x.
    rewrite !elem_of_app, !elem_of_cons, elem_of_app. tauto.
Qed.

(** The loop invariant of [getFixes]: [seen] holds the members of
    [fixes]. *)
Definition seenInv (st : list Z * gset Z) : Prop :=
  ∀ x, x ∈ st.2 ↔ x ∈ st.1.

Lemma foldl_addFix ds st :
  seenInv st →
  (foldl addFix st ds).1 = st.1 ++ firstSeen st.1 (omap Atoi ds) ∧
  seenInv (foldl addFix st ds).
Proof.
  revert st; induction ds as [|d ds IH]; intros [fixes seen] Hinv; simpl.
  - by rewrite app_nil_r.
  - destruct (Atoi d) as [num|] eqn:Hd; simpl; [|by apply IH].
    destruct (decide (num ∈ seen)) as [Hs|Hs];
      destruct (decide (num ∈ fixes)) as [Hf|Hf];
      try (by apply (Hinv num) in Hs); try (by apply (Hinv num) in Hf);
      [by apply IH|].
    destruct (IH (fixes ++ [num], {[num]} ∪ seen)) as [-> ?].
    { intros x. simpl. rewrite elem_of_union, elem_of_singleton, elem_of_app,
        list_elem_of_singleton, (Hinv x). simpl. tauto. }
    split; [|done]. simpl. rewrite <-app_assoc. simpl. do 2 f_equal.
    apply firstSeen_ext. intros x.
    rewrite !elem_of_app, !elem_of_cons, elem_of_nil. tauto.
Qed.

Lemma getFixesCommit_spec st c :
  seenInv st →
  (getFixesCommit st c).1 =
    st.1 ++ firstSeen st.1 (subjectRefs (subjectOf (Commit_GetMessage c))) ∧
  seenInv (getFixesCommit st c).
Proof.
  intros Hinv. unfold getFixesCommit, subjectRefs. rewrite Split_head.
  set (msg := subjectOf _).
  replace (match findPullReq msg with
           | Some m => addFix (foldl addFix st (findAllFixes msg)) m
           | None => foldl addFix st (findAllFixes msg)
           end)
    with (foldl addFix st (findAllFixes msg ++ option_list (findPullReq msg))).
  - by apply foldl_addFix.
  - rewrite foldl_app. by destruct (findPullReq msg).
Qed.

Lemma foldl_getFixesCommit commits st :
  seenInv st →
  (foldl getFixesCommit st commits).1 =
    st.1 ++ firstSeen st.1
      (commits ≫= λ c, subjectRefs (subjectOf (Commit_GetMessage c))).
Proof.
  revert st; induction commits as [|c cs IH]; intros st Hinv; simpl.
  - by rewrite app_nil_r.
  - destruct (getFixesCommit_spec st c Hinv) as [E Hinv'].
    rewrite IH, E by done. by rewrite firstSeen_app, <-app_assoc.
Qed.

Lemma getFixes_eq_ref commits : getFixes commits = getFixes_ref commits.
Proof.
  unfold getFixes, getFixes_ref.
  pose proof (foldl_getFixesCommit commits ([], ∅)) as H.
  destruct (foldl getFixesCommit _ commits) as [fixes seen].
  simpl in H. rewrite H; [done|]. intros x. simpl.
  by rewrite elem_of_empty, elem_of_nil.
Qed.

Lemma NoDup_getFixes commits : NoDup (getFixes commits).
Proof.
  rewrite getFixes_eq_ref. unfold getFixes_ref, sortInts.
  rewrite merge_sort_Permutation. apply NoDup_firstSeen.
Qed.

Lemma Sorted_getFixes commits : StronglySorted Z.le (getFixes commits).
Proof.
  rewrite getFixes_eq_ref. unfold getFixes_ref, sortInts.
  apply StronglySorted_merge_sort; apply _.
Qed.

Lemma elem_of_getFixes commits n :
  n ∈ getFixes commits ↔
  ∃ c, c ∈ commits ∧ n ∈ subjectRefs (subjectOf (Commit_GetMessage c)).
Proof.
  rewrite getFixes_eq_ref. unfold getFixes_ref, sortInts.
  rewrite merge_sort_Permutation, elem_of_firstSeen, list_elem_of_bind.
  rewrite elem_of_nil. split; [intros [(c & ? & ?) _]|intros (c & ? & ?)]; eauto.
Qed.

Lemma findAllFixesFrom_skip k s :
  findAllFixesFrom k s = findAllFixes (drop k s).
Proof.
  revert k; induction s as [|c s IH]; intros [|k]; try done.
  simpl. by rewrite IH.
Qed.

(** The scan written with [skip] is the usual one: a match at the start is
    reported and the search resumes right after it; without one the search
    moves on by one rune. *)
Lemma findAllFixes_match s ds :
  matchFixesAt s = Some ds →
  findAllFixes s = ds :: findAllFixes (drop (7 + length ds) s).
Proof.
  destruct s as [|c s]; [done|]. unfold findAllFixes at 1. simpl.
  intros ->. by rewrite findAllFixesFrom_skip.
Qed.

Lemma findAllFixes_nomatch c s :
  matchFixesAt (c :: s) = None → findAllFixes (c :: s) = findAllFixes s.
Proof. unfold findAllFixes. simpl. by intros ->. Qed.

Lemma StronglySorted_le_lt (l : list Z) :
  StronglySorted Z.le l → NoDup l → StronglySorted Z.lt l.
Proof.
  induction 1 as [|x l Hs IH Hx]; intros Hnd; [constructor|].
  apply NoDup_cons in Hnd as [Hnotin Hnd]. constructor; [by apply IH|].
  rewrite Forall_forall in Hx |- *. intros y Hy.
  assert (x ≠ y) by (by intros ->). specialize (Hx y Hy). lia.
Qed.

Lemma getFixes_trailing commits c pre ds n :
  c ∈ commits →
  subjectOf (Commit_GetMessage c) = pre ++ str "(#" ++ ds ++ str ")" →
  forallb isDigit ds = true → Atoi ds = Some n →
  n ∈ getFixes commits.
Proof.
  intros Hc Hsub Hd Hn. apply elem_of_getFixes. exists c. split; [done|].
  unfold subjectRefs. rewrite Hsub, findPullReq_suffix; [|done|].
  - rewrite omap_app. apply elem_of_app; right. simpl. rewrite Hn. by left.
  - by intros ->.
Qed.

(** C1: [getFixes] returns what the reference definition gives: the numbers
    matched in each commit's subject (the [fixes #N] matches, then the
    trailing [(#N)]), each once in first-seen order, sorted ascending. Its
    result is ascending without duplicates, and a subject that ends in
    [(#123)] contributes 123 whatever precedes it. *)
Theorem getFixes_reference (commits : list RepositoryCommit) :
  getFixes commits = getFixes_ref commits ∧
  StronglySorted Z.lt (getFixes commits) ∧
  NoDup (getFixes commits) ∧
  (∀ c pre, c ∈ commits →
     subjectOf (Commit_GetMessage c) = pre ++ str "(#123)" →
     123 ∈ getFixes commits).
Proof.
  split; [apply getFixes_eq_ref|].
  split; [apply StronglySorted_le_lt; [apply Sorted_getFixes|apply NoDup_getFixes]|].
  split; [apply NoDup_getFixes|].
  intros c pre Hc Hsub.
  by apply (getFixes_trailing commits c pre (str "123") 123).
Qed.

Lemma getFixes_reference_witness :
  123 ∈ getFixes [ {| Commit_GetMessage := str "lib: tidy up (#123)" |} ].
Proof.
  apply (proj2 (proj2 (proj2 (getFixes_reference _)))
           {| Commit_GetMessage := str "lib: tidy up (#123)" |}
           (str "lib: tidy up ")).
  - by left.
  - reflexivity.
Defined.

(** ** Lengths, fields and lines *)

Lemma RuneLen_pos r : 1 ≤ RuneLen r.
Proof. unfold RuneLen. repeat case_match; lia. Qed.

Lemma len_app s t : len (s ++ t) = len s + len t.
Proof. induction s as [|c s IH]; simpl; lia. Qed.

Lemma len_nonneg s : 0 ≤ len s.
Proof. induction s as [|c s IH]; simpl; [lia|]. pose proof (RuneLen_pos c). lia. Qed.

Lemma len_pos s : s ≠ [] → 0 < len s.
Proof.
  destruct s as [|c s]; [done|]. intros _. simpl.
  pose proof (RuneLen_pos c). pose proof (len_nonneg s). lia.
Qed.

Lemma len_zero s : len s = 0 → s = [].
Proof.
  destruct s as [|c s]; [done|]. intros H.
  pose proof (len_pos (c :: s) ltac:(done)). lia.
Qed.

Lemma fieldsFrom_words cur s :
  Forall (λ c, IsSpace c = false) cur →
  Forall isWord (fieldsFrom cur s).
Proof.
  revert cur; induction s as [|c s IH]; intros cur Hcur; simpl.
  - destruct cur as [|a cur]; [constructor|]. repeat constructor.
    + intros H%(f_equal length). rewrite length_reverse in H. done.
    + by apply Forall_reverse.
  - destruct (IsSpace c) eqn:Hc.
    + destruct cur as [|a cur]; [by apply IH|]. constructor; [|by apply IH].
      split; [|by apply Forall_reverse].
      intros H%(f_equal length). rewrite length_reverse in H. done.
    + apply IH. by constructor.
Qed.

Lemma Fields_words s : Forall isWord (Fields s).
Proof. by apply fieldsFrom_words. Qed.

Lemma Split_app_sep a b sep :
  Split (a ++ sep :: b) sep = Split a sep ++ Split b sep.
Proof.
  induction a as [|c a IH]; simpl.
  - by rewrite Z.eqb_refl.
  - destruct (c =? sep); [by rewrite IH|]. rewrite IH.
    destruct (Split a sep) as [|l ls] eqn:E; [by destruct (Split_nonempty a sep)|].
    done.
Qed.

Lemma Split_no_sep x sep : sep ∉ x → Split x sep = [x].
Proof.
  induction x as [|c x IH]; [done|]. intros Hx. simpl.
  destruct (Z.eqb_spec c sep) as [->|]; [by destruct Hx; left|].
  rewrite IH; [done|]. intros ?. apply Hx. by right.
Qed.

Lemma Split_app_last b x sep fin cur :
  sep ∉ x → Split b sep = fin ++ [cur] →
  Split (b ++ x) sep = fin ++ [cur ++ x].
Proof.
  intros Hx. revert fin cur. induction b as [|c b IH]; intros fin cur; simpl.
  - rewrite Split_no_sep by done. destruct fin as [|? [|??]]; by intros [= <-].
  - destruct (c =? sep).
    + destruct fin as [|d fin]; simpl.
      * intros [= <- H]. by destruct (Split_nonempty b sep).
      * intros [= <- H]. by rewrite (IH _ _ H).
    + destruct (Split b sep) as [|l ls] eqn:E; [by destruct (Split_nonempty b sep)|].
      destruct fin as [|d fin]; simpl.
      * intros [= <- ->]. by rewrite (IH [] l).
      * intros [= <- ->]. by rewrite (IH (l :: fin) cur).
Qed.

(** ** [wrapParagraph], line by line *)

Lemma isWord_no_newline word : isWord word → 10 ∉ word.
Proof.
  intros [_ Hw] Hin. rewrite Forall_forall in Hw. by apply Hw in Hin.
Qed.

Lemma pref1Of_cases words : pref1Of words = [] ∨ pref1Of words = str "  ".
Proof. destruct words as [|w0 ws]; simpl; [by left|]. case_match; auto. Qed.

Lemma pref1Of_no_newline words : 10 ∉ pref1Of words.
Proof.
  destruct (pref1Of_cases words) as [-> | ->]; [apply not_elem_of_nil|].
  by intros [?|[?|?%elem_of_nil]%elem_of_cons]%elem_of_cons.
Qed.

Lemma wrapWord_lines w pref1 b l fin cur word :
  10 ∉ pref1 → isWord word →
  Split b 10 = fin ++ [cur] → l = len cur →
  Split (wrapWord w pref1 (b, l) word).1 10 =
    (wrapWordLines w pref1 (fin, cur) word).1 ++
    [(wrapWordLines w pref1 (fin, cur) word).2] ∧
  (wrapWord w pref1 (b, l) word).2 =
    len (wrapWordLines w pref1 (fin, cur) word).2.
Proof.
  intros Hp Hw%isWord_no_newline Hb ->. unfold wrapWord, wrapWordLines.
  set (b1 := if 0 <? len cur then b ++ [32] else b).
  set (cur1 := if 0 <? len cur then cur ++ [32] else cur).
  assert (Split b1 10 = fin ++ [cur1]) as Hb1.
  { subst b1 cur1. destruct (0 <? len cur); [|done].
    apply Split_app_last; [|done]. by intros ?%list_elem_of_singleton. }
  assert ((if 0 <? len cur then (b ++ [32], len cur + 1) else (b, len cur))
          = (b1, len cur1)) as ->.
  { subst b1 cur1. destruct (0 <? len cur); [|done].
    rewrite len_app. done. }
  destruct (w <? len cur1 + len word); simpl.
  - split; [|rewrite len_app; lia].
    rewrite <-(app_assoc b1 [10] pref1), <-app_assoc. simpl.
    rewrite Split_app_sep, Hb1.
    by rewrite (Split_no_sep (pref1 ++ word))
      by (intros [?|?]%elem_of_app; done).
  - split; [|by rewrite len_app]. by apply Split_app_last.
Qed.

Lemma foldl_wrapWord_lines w pref1 words b l fin cur :
  10 ∉ pref1 → Forall isWord words →
  Split b 10 = fin ++ [cur] → l = len cur →
  Split (foldl (wrapWord w pref1) (b, l) words).1 10 =
    (foldl (wrapWordLines w pref1) (fin, cur) words).1 ++
    [(foldl (wrapWordLines w pref1) (fin, cur) words).2].
Proof.
  intros Hp Hws. revert b l fin cur.
  induction Hws as [|word words Hw Hws IH]; intros b l fin cur Hb Hl; [done|].
  cbn [foldl]. destruct (wrapWord_lines w pref1 b l fin cur word) as [H1 H2]; try done.
  destruct (wrapWord w pref1 (b, l) word) as [b' l'].
  destruct (wrapWordLines w pref1 (fin, cur) word) as [fin' cur'].
  by apply IH.
Qed.

Lemma linesOf_wrapParagraph s w :
  linesOf (wrapParagraph s w) =
    (foldl (wrapWordLines w (pref1Of (Fields s))) ([], []) (Fields s)).1 ++
    [(foldl (wrapWordLines w (pref1Of (Fields s))) ([], []) (Fields s)).2].
Proof.
  unfold linesOf, wrapParagraph. case_bool_decide as Hl.
  - apply length_zero_iff_nil in Hl. by rewrite Hl.
  - apply foldl_wrapWord_lines;
      [apply pref1Of_no_newline|apply Fields_words|done|done].
Qed.

Lemma withoutTrailingSpace_snoc cur : withoutTrailingSpace (cur ++ [32]) = cur.
Proof.
  unfold withoutTrailingSpace. rewrite reverse_app. simpl.
  apply reverse_involutive.
Qed.

Lemma withoutTrailingSpace_len line :
  len (withoutTrailingSpace line) ≤ len line.
Proof.
  unfold withoutTrailingSpace.
  destruct (reverse line) as [|c r] eqn:E; [lia|].
  destruct (decide (c = 32)) as [->|Hc].
  - rewrite <-(reverse_involutive line) at 1. rewrite E, reverse_cons, len_app.
    change (len [32]) with 1. lia.
  - assert (match c with 32 => reverse r | _ => line end = line) as ->; [|lia].
    destruct c as [|p|p]; try done. do 6 (destruct p as [p|p|]; try done).
Qed.

Lemma wrapWordLines_width w pref1 fin cur word :
  len word + len pref1 ≤ w →
  Forall (withinWidth w) fin → len cur ≤ w →
  Forall (withinWidth w) (wrapWordLines w pref1 (fin, cur) word).1 ∧
  len (wrapWordLines w pref1 (fin, cur) word).2 ≤ w.
Proof.
  intros Hw Hfin Hcur. unfold wrapWordLines.
  set (cur1 := if 0 <? len cur then cur ++ [32] else cur).
  assert (withinWidth w cur1) as Hcur1.
  { subst cur1. unfold withinWidth. destruct (0 <? len cur).
    - by rewrite withoutTrailingSpace_snoc.
    - pose proof (withoutTrailingSpace_len cur). lia. }
  destruct (Z.ltb_spec w (len cur1 + len word)); simpl.
  - split; [|rewrite len_app; lia]. apply Forall_app. by repeat constructor.
  - split; [done|]. rewrite len_app. lia.
Qed.

Lemma foldl_wrapWordLines_width w pref1 words fin cur :
  (∀ word, word ∈ words → len word + len pref1 ≤ w) →
  Forall (withinWidth w) fin → len cur ≤ w →
  Forall (withinWidth w)
    ((foldl (wrapWordLines w pref1) (fin, cur) words).1 ++
     [(foldl (wrapWordLines w pref1) (fin, cur) words).2]).
Proof.
  revert fin cur; induction words as [|word words IH];
    intros fin cur Hws Hfin Hcur; cbn [foldl].
  - apply Forall_app. split; [done|]. repeat constructor.
    unfold withinWidth. simpl. pose proof (withoutTrailingSpace_len cur). lia.
  - destruct (wrapWordLines_width w pref1 fin cur word) as [H1 H2]; try done.
    { apply Hws. by left. }
    destruct (wrapWordLines w pref1 (fin, cur) word) as [fin' cur'].
    apply IH; try done. intros word' ?. apply Hws. by right.
Qed.

Lemma wrapParagraph_width s w :
  0 ≤ w →
  (∀ word, word ∈ Fields s → len word + len (pref1Of (Fields s)) ≤ w) →
  Forall (withinWidth w) (linesOf (wrapParagraph s w)).
Proof.
  intros Hw Hws. rewrite linesOf_wrapParagraph.
  by apply foldl_wrapWordLines_width.
Qed.

Lemma startsIndented_app pref1 line x :
  startsIndented pref1 line → startsIndented pref1 (line ++ x).
Proof.
  intros (c & rest & -> & Hc). exists c, (rest ++ x). split; [|done].
  by rewrite <-app_assoc.
Qed.

Lemma startsIndented_word pref1 word :
  isWord word → startsIndented pref1 (pref1 ++ word).
Proof.
  intros [Hne Hw]. destruct word as [|c rest]; [done|].
  exists c, rest. split; [done|]. by inversion Hw.
Qed.

Lemma wrapWordLines_indent w pref1 fin cur word :
  isWord word →
  Forall (startsIndented pref1) (tail (fin ++ [cur])) →
  Forall (startsIndented pref1)
    (tail ((wrapWordLines w pref1 (fin, cur) word).1 ++
           [(wrapWordLines w pref1 (fin, cur) word).2])).
Proof.
  intros Hw Hind. unfold wrapWordLines.
  set (cur1 := if 0 <? len cur then cur ++ [32] else cur).
  assert (Forall (startsIndented pref1) (tail (fin ++ [cur1]))) as Hind1.
  { subst cur1. destruct (0 <? len cur); [|done].
    destruct fin as [|l0 fin]; [constructor|]. simpl in *.
    apply Forall_app in Hind as [? Hcur]. apply Forall_app. split; [done|].
    apply Forall_singleton, startsIndented_app.
    by inversion Hcur. }
  destruct (w <? len cur1 + len word); simpl.
  - rewrite <-app_assoc. destruct fin as [|l0 fin]; simpl in *.
    + by apply Forall_singleton, startsIndented_word.
    + change [cur1; pref1 ++ word] with ([cur1] ++ [pref1 ++ word]).
      rewrite app_assoc. apply Forall_app. split; [done|].
      by apply Forall_singleton, startsIndented_word.
  - destruct fin as [|l0 fin]; [constructor|]. simpl in *.
    apply Forall_app in Hind1 as [? Hcur]. apply Forall_app. split; [done|].
    apply Forall_singleton, startsIndented_app.
    by inversion Hcur.
Qed.

Lemma foldl_wrapWordLines_indent w pref1 words fin cur :
  Forall isWord words →
  Forall (startsIndented pref1) (tail (fin ++ [cur])) →
  Forall (startsIndented pref1)
    (tail ((foldl (wrapWordLines w pref1) (fin, cur) words).1 ++
           [(foldl (wrapWordLines w pref1) (fin, cur) words).2])).
Proof.
  intros Hws. revert fin cur.
  induction Hws as [|word words Hw Hws IH]; intros fin cur Hind; [done|].
  cbn [foldl]. pose proof (wrapWordLines_indent w pref1 fin cur word Hw Hind).
  destruct (wrapWordLines w pref1 (fin, cur) word) as [fin' cur'].
  by apply IH.
Qed.

Lemma wrapParagraph_indent s w :
  Forall (startsIndented (pref1Of (Fields s)))
    (tail (linesOf (wrapParagraph s w))).
Proof.
  rewrite linesOf_wrapParagraph.
  apply foldl_wrapWordLines_indent; [apply Fields_words|constructor].
Qed.

Lemma isBullet_pref1 para : isBullet para → pref1Of (Fields para) = str "  ".
Proof.
  unfold isBullet. destruct (Fields para) as [|w0 ws]; simpl.
  - by intros [?|?].
  - intros [[= ->]|[= ->]]; done.
Qed.

(** ** [wrap]: the paragraphs joined by newlines *)

Lemma foldl_wrapLine w lines b i :
  Split (foldl (wrapLine w) (b, S i) lines).1 10 =
  Split b 10 ++ (lines ≫= λ line, linesOf (wrapParagraph line w)).
Proof.
  revert b i; induction lines as [|line lines IH]; intros b i; cbn [foldl].
  - by rewrite app_nil_r.
  - unfold wrapLine at 2. cbn [Nat.ltb Nat.leb]. rewrite IH.
    rewrite <-(app_assoc b [10]). simpl app at 1.
    rewrite Split_app_sep, <-app_assoc. by csimpl.
Qed.

Lemma linesOf_wrap d w :
  linesOf (wrap d w) = linesOf d ≫= λ para, linesOf (wrapParagraph para w).
Proof.
  unfold wrap, linesOf.
  destruct (Split d 10) as [|para paras] eqn:E; [by destruct (Split_nonempty d 10)|].
  cbn [foldl]. unfold wrapLine at 2. cbn [Nat.ltb Nat.leb].
  rewrite foldl_wrapLine. by rewrite app_nil_l.
Qed.

Lemma wrap_width d w :
  0 ≤ w →
  (∀ para word, para ∈ linesOf d → word ∈ Fields para →
     len word + len (pref1Of (Fields para)) ≤ w) →
  ∀ line, line ∈ linesOf (wrap d w) → withinWidth w line.
Proof.
  intros Hw Hws line. rewrite linesOf_wrap.
  intros (para & Hline & Hpara)%list_elem_of_bind.
  pose proof (wrapParagraph_width para w Hw (λ word, Hws para word Hpara)) as H.
  rewrite Forall_forall in H. by apply H.
Qed.

Lemma wrapParagraph_continuation para w i line :
  isBullet para →
  linesOf (wrapParagraph para w) !! S i = Some line →
  ∃ c rest, line = 32 :: 32 :: c :: rest ∧ IsSpace c = false.
Proof.
  intros Hb%isBullet_pref1 Hi. pose proof (wrapParagraph_indent para w) as H.
  rewrite Hb, Forall_forall in H.
  destruct (H line) as (c & rest & -> & Hc); [|by exists c, rest].
  destruct (linesOf (wrapParagraph para w)) as [|l0 ls]; [done|].
  simpl in *. by eapply list_elem_of_lookup_2.
Qed.

(** C2 (as amended): when every word of every paragraph, together with the
    two-space indent if the paragraph starts with a hyphen or an asterisk,
    is at most [w] long, every line of the wrapped text is at most [w] long,
    the separating space left at its end apart; and every continuation line
    of such a list paragraph starts with exactly two spaces followed by the
    word. *)
Theorem wrap_lines_within_width (d : gostring) (w : Z) :
  (0 ≤ w →
   (∀ para word, para ∈ linesOf d → word ∈ Fields para →
      len word + len (pref1Of (Fields para)) ≤ w) →
   ∀ line, line ∈ linesOf (wrap d w) → len (withoutTrailingSpace line) ≤ w) ∧
  (∀ para i line, isBullet para →
     linesOf (wrapParagraph para w) !! S i = Some line →
     ∃ c rest, line = 32 :: 32 :: c :: rest ∧ IsSpace c = false) ∧
  linesOf (wrap d w) = (linesOf d ≫= λ para, linesOf (wrapParagraph para w)).
Proof.
  split; [apply wrap_width|]. split; [|apply linesOf_wrap].
  intros para i line. apply wrapParagraph_continuation.
Qed.

(** ** Whitespace is normalised *)

Lemma fieldsFrom_squeeze s cur :
  cur ≠ [] →
  fieldsFrom cur (squeezeFrom true false s) = fieldsFrom cur s ∧
  fieldsFrom cur (squeezeFrom true true s) = reverse cur :: fieldsFrom [] s.
Proof.
  revert cur; induction s as [|c s IH]; intros cur Hcur.
  - simpl. by destruct cur.
  - simpl. destruct (IsSpace c) eqn:Hc.
    + destruct (IH cur Hcur) as [_ ->]. by destruct cur.
    + simpl. rewrite Hc. destruct (IH (c :: cur)) as [-> _]; [done|].
      split; [done|]. destruct cur as [|a cur]; [done|].
      by destruct (IH [c]) as [-> _].
Qed.

Lemma Fields_normalizeSpace s : Fields (normalizeSpace s) = Fields s.
Proof.
  unfold Fields, normalizeSpace. induction s as [|c s IH]; simpl; [done|].
  destruct (IsSpace c) eqn:Hc; [done|]. simpl. rewrite Hc.
  by destruct (fieldsFrom_squeeze s [c]) as [-> _].
Qed.

Lemma Fields_whitespace s : forallb IsSpace s = true → Fields s = [].
Proof.
  unfold Fields. induction s as [|c s IH]; simpl; [done|].
  intros [-> ?]%andb_prop. by apply IH.
Qed.

(** C10: wrapping a paragraph gives the same text as wrapping the paragraph
    with its whitespace normalised (every maximal run of whitespace one
    space, none at the ends), and a line of whitespace only renders as the
    empty line. *)
Theorem wrapParagraph_normalizes (s : gostring) (w : Z) :
  wrapParagraph s w = wrapParagraph (normalizeSpace s) w ∧
  (forallb IsSpace s = true →
   wrapParagraph s w = [] ∧ linesOf (wrapParagraph s w) = [[]]).
Proof.
  split.
  - unfold wrapParagraph. by rewrite Fields_normalizeSpace.
  - intros Hs. unfold wrapParagraph. by rewrite (Fields_whitespace s Hs).
Qed.

Lemma wrapParagraph_normalizes_witness :
  wrapParagraph (str "  	 ") 72 = [] ∧
  linesOf (wrapParagraph (str "  	 ") 72) = [[]].
Proof.
  apply (proj2 (wrapParagraph_normalizes (str "  	 ") 72)). reflexivity.
Defined.

(** The spacing of the paragraph is not kept. *)
Example wrapParagraph_spacing :
  wrapParagraph (str "  fixed   the	 crash ") 72 = str "fixed the crash".
Proof. reflexivity. Qed.

Example wrap_sampleDescription :
  wrap sampleDescription 72 =
  str "This release fixes a number of problems found in the field and adds two 
new options for the discovery subsystem.

- The discovery server address can now be given more than once, and the 
  first one that answers is used.".
Proof. vm_compute. reflexivity. Qed.

Lemma wrap_lines_within_width_witness :
  Forall (λ line, len (withoutTrailingSpace line) ≤ 72)
    (linesOf (wrap sampleDescription 72)).
Proof.
  apply Forall_forall.
  apply (proj1 (wrap_lines_within_width sampleDescription 72)); [lia|].
  assert (Forall (λ para,
            Forall (λ word, len word + len (pref1Of (Fields para)) ≤ 72)
              (Fields para)) (linesOf sampleDescription)) as H.
  { apply (bool_decide_unpack _). vm_compute. exact I. }
  intros para word Hp Hw. rewrite Forall_forall in H.
  specialize (H para Hp). rewrite Forall_forall in H. by apply H.
Defined.

(** C2 as it is stated fails: every word of [tightDescription] is shorter
    than 72, and both lines of the wrapped text are 73 long, the first by
    the space written before the wrap, the second by the indent. *)
Lemma wrap_width_counterexample :
  (∀ para word, para ∈ linesOf tightDescription → word ∈ Fields para →
     len word < 72) ∧
  linesOf (wrap tightDescription 72) =
    [ str "- " ++ replicate 35 97 ++ [32] ++ replicate 34 98 ++ [32];
      str "  " ++ replicate 71 99 ] ∧
  ¬ (∀ line, line ∈ linesOf (wrap tightDescription 72) → len line ≤ 72).
Proof.
  split; [|split].
  - assert (Forall (λ para, Forall (λ word, len word < 72) (Fields para))
              (linesOf tightDescription)) as H.
    { apply (bool_decide_unpack _). vm_compute. exact I. }
    intros para word Hp Hw. rewrite Forall_forall in H.
    specialize (H para Hp). rewrite Forall_forall in H. by apply H.
  - vm_compute. reflexivity.
  - intros H. specialize (H (str "  " ++ replicate 71 99)).
    assert (len (str "  " ++ replicate 71 99) = 73) as E by (vm_compute; reflexivity).
    rewrite E in H. enough (73 ≤ 72) by lia. apply H.
    apply (bool_decide_unpack _). vm_compute. exact I.
Qed.

(** ** Programs *)

Section ProgramLemmas.

Context {W : Type}.

Lemma trace_bind {A B} (m : Prog W A) (k : A → Prog W B) w :
  trace (bind m k w) = trace (m w) ++ trace (k (value (m w)) (world (m w))).
Proof. done. Qed.

Lemma value_bind {A B} (m : Prog W A) (k : A → Prog W B) w :
  value (bind m k w) = value (k (value (m w)) (world (m w))).
Proof. done. Qed.

Lemma world_bind {A B} (m : Prog W A) (k : A → Prog W B) w :
  world (bind m k w) = world (k (value (m w)) (world (m w))).
Proof. done. Qed.

(** A property of traces that holds of the empty trace and of
    concatenations holds of what a loop leaves, once it holds of its
    body. *)
Lemma loopPow_trace {S R} (P : list Event → Prop) (body : S → Prog W (S + R)) :
  (∀ t1 t2, P t1 → P t2 → P (t1 ++ t2)) → P [] →
  (∀ s w, P (trace (body s w))) →
  ∀ n s w, P (trace (loopPow n body s w)).
Proof.
  intros Happ Hnil Hbody. induction n as [|n IH]; intros s w; [apply Hbody|].
  cbn [loopPow]. rewrite trace_bind. apply Happ; [apply IH|].
  destruct (value (loopPow n body s w)); [apply IH|apply Hnil].
Qed.

Lemma loopPow_value {S R} (Q : R → Prop) (body : S → Prog W (S + R)) :
  (∀ s w r, value (body s w) = inr r → Q r) →
  ∀ n s w r, value (loopPow n body s w) = inr r → Q r.
Proof.
  intros Hbody. induction n as [|n IH]; intros s w r; [apply Hbody|].
  cbn [loopPow]. rewrite value_bind.
  destruct (value (loopPow n body s w)) as [s'|r'] eqn:E; [apply IH|].
  intros [= <-]. by eapply IH.
Qed.

(** A loop whose rounds each lower a measure by one at least has left after
    [2 ^ n] rounds, or the measure has gone down by [2 ^ n]. *)
Lemma loopPow_measure {S R} (m : S → Z) (body : S → Prog W (S + R)) :
  (∀ s w s', value (body s w) = inl s' → 0 ≤ m s' < m s) →
  ∀ n s w s', value (loopPow n body s w) = inl s' →
    0 ≤ m s' ∧ m s' + 2 ^ Z.of_nat n ≤ m s.
Proof.
  intros Hbody. induction n as [|n IH]; intros s w s'.
  - intros H%Hbody. change (2 ^ Z.of_nat 0) with 1. lia.
  - cbn [loopPow]. rewrite value_bind.
    destruct (value (loopPow n body s w)) as [s1|r] eqn:E; [|done].
    intros H%IH. apply IH in E.
    rewrite Nat2Z.inj_succ, Z.pow_succ_r by lia. lia.
Qed.

Lemma asInt_range z : - 2 ^ 63 ≤ asInt z < 2 ^ 63.
Proof. unfold asInt. pose proof (Z.mod_pos_bound (z + 2 ^ 63) (2 ^ 64)). lia. Qed.

Lemma asInt_id z : - 2 ^ 63 ≤ z < 2 ^ 63 → asInt z = z.
Proof. intros H. unfold asInt. rewrite Z.mod_small; lia. Qed.

(** The loops over pages leave: the page number, an [int], goes up in each
    round. *)
Lemma forLoop_leaves {S R} (page : S → Z) (body : S → Prog W (S + R)) s w :
  (∀ s w s', value (body s w) = inl s' →
     page s < page s' ∧ - 2 ^ 63 ≤ page s' < 2 ^ 63) →
  page s = 0 →
  ∃ r, value (forLoop body s w) = inr r.
Proof.
  intros Hbody H0. unfold forLoop.
  destruct (value (loopPow 64 body s w)) as [s'|r] eqn:E; [|by exists r].
  apply (loopPow_measure (λ s, 2 ^ 63 - page s)) in E.
  - rewrite H0 in E. change (2 ^ Z.of_nat 64) with (2 ^ 64) in E. lia.
  - intros s1 w1 s2 H. apply Hbody in H. lia.
Qed.

Lemma forRange_app {A} (l1 l2 : list A) (body : A → Prog W unit) w :
  trace (forRange (l1 ++ l2) body w) =
  trace (forRange l1 body w) ++
  trace (forRange l2 body (world (forRange l1 body w))).
Proof.
  revert w; induction l1 as [|x l1 IH]; intros w; [done|].
  cbn [forRange app]. rewrite !trace_bind, world_bind, IH.
  by rewrite app_assoc.
Qed.

End ProgramLemmas.

(** ** Looking up the milestone *)

Section Lookup.

Context {W : Type} (gh : Client W).

Lemma forLoop_trace {S R} (φ : Event → Prop) (body : S → Prog W (S + R)) s w :
  (∀ s w, Forall φ (trace (body s w))) →
  Forall φ (trace (forLoop body s w)).
Proof.
  intros Hbody. unfold forLoop.
  apply (loopPow_trace (Forall φ)); [|constructor|done].
  intros t1 t2 ??. by apply Forall_app.
Qed.

Lemma forLoop_value {S R} (Q : R → Prop) (body : S → Prog W (S + R)) s w r :
  (∀ s w r, value (body s w) = inr r → Q r) →
  value (forLoop body s w) = inr r → Q r.
Proof. intros Hbody. unfold forLoop. by apply loopPow_value. Qed.

Lemma getMilestonePage_trace owner repo name page w :
  Forall (isListing owner repo) (trace (getMilestonePage gh owner repo name page w)).
Proof.
  unfold getMilestonePage. rewrite trace_bind.
  apply Forall_app. split.
  - repeat constructor. by eexists _, _.
  - destruct (value (callResult _ _ w)) as [[stones resp]|err]; [|constructor].
    destruct (List.find _ stones); [constructor|].
    destruct (_ <=? _); constructor.
Qed.

Lemma getMilestonePage_value owner repo name page w stone :
  value (getMilestonePage gh owner repo name page w) = inr (Ok stone) →
  Milestone_GetTitle stone = name.
Proof.
  unfold getMilestonePage. rewrite value_bind.
  destruct (value (callResult _ _ w)) as [[stones resp]|err]; [|done].
  destruct (List.find _ stones) as [stone'|] eqn:E.
  - intros [= <-]. apply find_some in E as [_ E]. by apply bool_decide_eq_true in E.
  - by destruct (_ <=? _).
Qed.

Lemma getMilestonePage_next owner repo name page w page' :
  value (getMilestonePage gh owner repo name page w) = inl page' →
  page < page' ∧ - 2 ^ 63 ≤ page' < 2 ^ 63.
Proof.
  unfold getMilestonePage. rewrite value_bind.
  destruct (value (callResult _ _ w)) as [[stones resp]|err]; [|done].
  destruct (List.find _ stones); [done|].
  destruct (Z.leb_spec (asInt (NextPage resp)) page); [done|].
  intros [= <-]. split; [done|apply asInt_range].
Qed.

Lemma getMilestone_trace owner repo name w :
  Forall (isListing owner repo) (trace (getMilestone gh owner repo name w)).
Proof.
  unfold getMilestone. rewrite trace_bind. apply Forall_app. split.
  - apply forLoop_trace. intros. apply getMilestonePage_trace.
  - destruct (value _); constructor.
Qed.

Lemma getMilestone_title owner repo name w stone :
  value (getMilestone gh owner repo name w) = Ok stone →
  Milestone_GetTitle stone = name.
Proof.
  unfold getMilestone. rewrite value_bind.
  destruct (value (forLoop _ _ _)) as [page|r] eqn:E; [done|].
  intros [= ->].
  apply (forLoop_value (λ r, ∀ stone, r = Ok stone → Milestone_GetTitle stone = name))
    with (stone := stone) in E; [done| |done].
  intros page w' r Hr stone' ->. by eapply getMilestonePage_value.
Qed.

(** The loop of [getMilestone] is left through one of its returns. *)
Lemma getMilestone_leaves owner repo name w :
  ∃ r, value (forLoop (getMilestonePage gh owner repo name) 0 w) = inr r.
Proof.
  apply (forLoop_leaves (λ page, page)); [|done].
  intros page w' page'. apply getMilestonePage_next.
Qed.

Lemma isListing_not_mutation owner repo e :
  isListing owner repo e → isMutation e = false.
Proof. by intros (opts & err & ->). Qed.

Lemma getMilestone_reads owner repo name w :
  Forall (λ e, isMutation e = false) (trace (getMilestone gh owner repo name w)).
Proof.
  eapply Forall_impl; [apply getMilestone_trace|].
  intros e. apply isListing_not_mutation.
Qed.

End Lookup.

(** ** Loops, round by round *)

Section Rounds.

Context {W : Type}.

Lemma outcome_eq {A} (o1 o2 : Outcome W A) :
  value o1 = value o2 → world o1 = world o2 → trace o1 = trace o2 → o1 = o2.
Proof. destruct o1, o2. simpl. by intros -> -> ->. Qed.

Lemma iterLoop_add {S R} (body : S → Prog W (S + R)) a b s w :
  iterLoop (a + b) body s w =
  bind (iterLoop a body s)
    (λ r, match r with
          | inl s' => iterLoop b body s'
          | inr x => ret (inr x)
          end) w.
Proof.
  revert s w; induction a as [|a IH]; intros s w.
  - by apply outcome_eq.
  - cbn [iterLoop Nat.add].
    apply outcome_eq; rewrite ?value_bind, ?world_bind, ?trace_bind;
      destruct (value (body s w)) as [s'|x] eqn:E;
      rewrite ?IH, ?value_bind, ?world_bind, ?trace_bind, ?E;
      cbn [ret value world trace]; rewrite ?app_assoc, ?app_nil_r; reflexivity.
Qed.

Lemma loopPow_iterLoop {S R} (body : S → Prog W (S + R)) n s w :
  loopPow n body s w = iterLoop (2 ^ n) body s w.
Proof.
  revert s w; induction n as [|n IH]; intros s w.
  - cbn [loopPow Nat.pow iterLoop].
    apply outcome_eq; rewrite ?value_bind, ?world_bind, ?trace_bind;
      destruct (value (body s w)); cbn [ret value world trace];
      by rewrite ?app_nil_r.
  - replace (2 ^ Datatypes.S n)%nat with (2 ^ n + 2 ^ n)%nat
      by (rewrite Nat.pow_succ_r'; lia).
    rewrite iterLoop_add. cbn [loopPow].
    apply outcome_eq; rewrite ?value_bind, ?world_bind, ?trace_bind, !IH;
      destruct (value (iterLoop (2 ^ n) body s w)); by rewrite ?IH.
Qed.

Lemma iterLoop_measure {S R} (m : S → Z) (body : S → Prog W (S + R)) :
  (∀ s w s', value (body s w) = inl s' → 0 < m s' < m s) →
  ∀ k s w s', 0 < m s → value (iterLoop k body s w) = inl s' →
    0 < m s' ∧ m s' + Z.of_nat k ≤ m s.
Proof.
  intros Hbody. induction k as [|k IH]; intros s w s' Hs.
  - cbn. intros [= ->]. lia.
  - cbn [iterLoop]. rewrite value_bind.
    destruct (value (body s w)) as [s1|x] eqn:E; [|done].
    apply Hbody in E. intros H%IH; lia.
Qed.

Lemma iterLoop_stable {S R} (body : S → Prog W (S + R)) k j s w x :
  value (iterLoop k body s w) = inr x →
  iterLoop (k + j) body s w = iterLoop k body s w.
Proof.
  intros Hx. rewrite iterLoop_add.
  apply outcome_eq; rewrite ?value_bind, ?world_bind, ?trace_bind, Hx;
    cbn [ret value world trace]; by rewrite ?app_nil_r.
Qed.

(** A loop whose measure stays positive and goes down in each round leaves
    before the measure it starts with is used up. *)
Lemma iterLoop_leaves {S R} (m : S → Z) (body : S → Prog W (S + R)) k s w :
  (∀ s w s', value (body s w) = inl s' → 0 < m s' < m s) →
  0 < m s ≤ Z.of_nat k →
  ∃ x, value (iterLoop k body s w) = inr x.
Proof.
  intros Hbody Hs.
  destruct (value (iterLoop k body s w)) as [s'|x] eqn:E; [|by exists x].
  apply (iterLoop_measure m) in E; [lia|done|lia].
Qed.

(** Such a loop is its first round followed by the loop. *)
Lemma loopPow_unfold {S R} (m : S → Z) (body : S → Prog W (S + R)) n s w :
  (∀ s w s', value (body s w) = inl s' → 0 < m s' < m s) →
  m s ≤ 2 ^ Z.of_nat n →
  loopPow n body s w =
  bind (body s)
    (λ r, match r with
          | inl s' => loopPow n body s'
          | inr x => ret (inr x)
          end) w.
Proof.
  intros Hbody Hs. rewrite loopPow_iterLoop.
  assert (∃ k, 2 ^ n = Datatypes.S k)%nat as [k Hk].
  { destruct (2 ^ n)%nat eqn:E; [|by eexists].
    by apply Nat.pow_nonzero in E. }
  assert (Z.of_nat (Datatypes.S k) = 2 ^ Z.of_nat n) as HkZ.
  { by rewrite <-Hk, Nat2Z.inj_pow. }
  assert (∀ s', value (body s w) = inl s' →
            loopPow n body s' (world (body s w)) =
            iterLoop k body s' (world (body s w))) as Hnext.
  { intros s' E. apply Hbody in E. rewrite loopPow_iterLoop, Hk.
    destruct (iterLoop_leaves m body k s' (world (body s w)) Hbody)
      as [x Hx]; [lia|].
    replace (Datatypes.S k) with (k + 1)%nat by lia.
    by apply iterLoop_stable with x. }
  rewrite Hk. cbn [iterLoop].
  apply outcome_eq; rewrite ?value_bind, ?world_bind, ?trace_bind;
    destruct (value (body s w)) as [s'|x] eqn:E; try reflexivity;
    by rewrite Hnext.
Qed.

(** The loops over pages: each is its first round followed by the loop at
    the next page. *)
Lemma forLoop_unfold {S R} (page : S → Z) (body : S → Prog W (S + R)) s w :
  (∀ s w s', value (body s w) = inl s' →
     page s < page s' ∧ - 2 ^ 63 ≤ page s' < 2 ^ 63) →
  - 2 ^ 63 ≤ page s →
  forLoop body s w =
  bind (body s)
    (λ r, match r with
          | inl s' => forLoop body s'
          | inr x => ret (inr x)
          end) w.
Proof.
  intros Hbody Hs. unfold forLoop.
  apply (loopPow_unfold (λ s, 2 ^ 63 - page s)).
  - intros s1 w1 s2 H%Hbody. lia.
  - change (2 ^ Z.of_nat 64) with (2 ^ 64). lia.
Qed.

(** And each loop over pages leaves by one of its returns. *)
Lemma forLoop_leaves_from {S R} (page : S → Z) (body : S → Prog W (S + R)) s w :
  (∀ s w s', value (body s w) = inl s' →
     page s < page s' ∧ - 2 ^ 63 ≤ page s' < 2 ^ 63) →
  - 2 ^ 63 ≤ page s < 2 ^ 63 →
  ∃ x, value (forLoop body s w) = inr x.
Proof.
  intros Hbody Hs. unfold forLoop. rewrite loopPow_iterLoop.
  apply (iterLoop_leaves (λ s, 2 ^ 63 - page s)).
  - intros s1 w1 s2 H%Hbody. lia.
  - rewrite Nat2Z.inj_pow. change (Z.of_nat 2 ^ Z.of_nat 64) with (2 ^ 64). lia.
Qed.

End Rounds.

Opaque forLoop.

Section LookupRounds.

Context {W : Type} (gh : Client W).

Lemma getMilestone_loop_unfold owner repo name page w :
  - 2 ^ 63 ≤ page →
  forLoop (getMilestonePage gh owner repo name) page w =
  bind (getMilestonePage gh owner repo name page)
    (λ r, match r with
          | inl page' => forLoop (getMilestonePage gh owner repo name) page'
          | inr x => ret (inr x)
          end) w.
Proof.
  intros Hp. apply (forLoop_unfold (λ page, page)); [|done].
  intros p w' p'. apply getMilestonePage_next.
Qed.

Lemma getMilestonePage_outcome owner repo name page w :
  let opts := {| MilestoneListOptions_State := str "all";
                 MilestoneListOptions_Page := page |} in
  let r := Issues_ListMilestones gh owner repo opts w in
  let o := getMilestonePage gh owner repo name page w in
  world o = r.2 ∧
  trace o = [Called (IssuesListMilestones owner repo opts) (resultErr r.1)] ∧
  value o =
    match r.1 with
    | Err err => inr (Err err)
    | Ok (stones, resp) =>
        match List.find (λ stone, bool_decide (Milestone_GetTitle stone = name))
                stones with
        | Some stone => inr (Ok stone)
        | None =>
            if asInt (NextPage resp) <=? page then inr (Err (str "not found"))
            else inl (asInt (NextPage resp))
        end
    end.
Proof.
  intros opts r o. subst o. unfold getMilestonePage. fold opts.
  rewrite value_bind, world_bind, trace_bind.
  change (value (callResult ?c ?f w)) with (f w).1.
  change (world (callResult ?c ?f w)) with (f w).2.
  change (trace (callResult ?c ?f w)) with [Called c (resultErr (f w).1)].
  fold r. destruct r.1 as [[stones resp]|err]; [|by rewrite app_nil_r].
  destruct (List.find _ stones) as [stone|]; [by rewrite app_nil_r|].
  destruct (asInt (NextPage resp) <=? page); by rewrite app_nil_r.
Qed.

Lemma getMilestone_loop_rounds owner repo name page w :
  - 2 ^ 63 ≤ page →
  let opts := {| MilestoneListOptions_State := str "all";
                 MilestoneListOptions_Page := page |} in
  let r := Issues_ListMilestones gh owner repo opts w in
  let loop := forLoop (getMilestonePage gh owner repo name) in
  let decided := λ x,
    value (loop page w) = inr x ∧ world (loop page w) = r.2 ∧
    trace (loop page w) =
      [Called (IssuesListMilestones owner repo opts) (resultErr r.1)] in
  match r.1 with
  | Err err => decided (Err err)
  | Ok (stones, resp) =>
      match List.find (λ stone, bool_decide (Milestone_GetTitle stone = name))
              stones with
      | Some stone => decided (Ok stone)
      | None =>
          if asInt (NextPage resp) <=? page then decided (Err (str "not found"))
          else
            value (loop page w) = value (loop (asInt (NextPage resp)) r.2) ∧
            world (loop page w) = world (loop (asInt (NextPage resp)) r.2) ∧
            trace (loop page w) =
              Called (IssuesListMilestones owner repo opts) None
              :: trace (loop (asInt (NextPage resp)) r.2)
      end
  end.
Proof.
  intros Hp opts r loop decided. subst decided loop. cbv beta.
  rewrite (getMilestone_loop_unfold owner repo name page w Hp).
  rewrite !value_bind, !world_bind, !trace_bind.
  destruct (getMilestonePage_outcome owner repo name page w) as (Hw & Ht & Hv).
  fold opts r in Hw, Ht, Hv. rewrite Hw, Ht, Hv.
  destruct r.1 as [[stones resp]|err]; [|by rewrite app_nil_r].
  destruct (List.find _ stones) as [stone|]; [by rewrite app_nil_r|].
  destruct (asInt (NextPage resp) <=? page); [by rewrite app_nil_r|done].
Qed.

Lemma getMilestone_loop_leaves owner repo name page w :
  - 2 ^ 63 ≤ page < 2 ^ 63 →
  ∃ x, value (forLoop (getMilestonePage gh owner repo name) page w) = inr x.
Proof.
  intros Hp. apply (forLoop_leaves_from (λ page, page)); [|done].
  intros p w' p'. apply getMilestonePage_next.
Qed.

Lemma getMilestone_loop_value owner repo name w x :
  value (forLoop (getMilestonePage gh owner repo name) 0 w) = inr x →
  value (getMilestone gh owner repo name w) = x.
Proof.
  unfold getMilestone. rewrite value_bind.
  generalize (forLoop (getMilestonePage gh owner repo name) 0 w).
  intros o Hx. rewrite Hx. reflexivity.
Qed.

Lemma getMilestone_loop_world owner repo name w x :
  value (forLoop (getMilestonePage gh owner repo name) 0 w) = inr x →
  world (getMilestone gh owner repo name w) =
  world (forLoop (getMilestonePage gh owner repo name) 0 w).
Proof.
  unfold getMilestone. rewrite world_bind.
  generalize (forLoop (getMilestonePage gh owner repo name) 0 w).
  intros o Hx. rewrite Hx. reflexivity.
Qed.

Lemma getMilestone_loop_trace owner repo name w x :
  value (forLoop (getMilestonePage gh owner repo name) 0 w) = inr x →
  trace (getMilestone gh owner repo name w) =
  trace (forLoop (getMilestonePage gh owner repo name) 0 w).
Proof.
  unfold getMilestone. rewrite trace_bind.
  generalize (forLoop (getMilestonePage gh owner repo name) 0 w).
  intros o Hx. rewrite Hx. apply app_nil_r.
Qed.

Lemma getMilestone_loop owner repo name w :
  ∃ x, value (forLoop (getMilestonePage gh owner repo name) 0 w) = inr x ∧
    value (getMilestone gh owner repo name w) = x ∧
    world (getMilestone gh owner repo name w) =
      world (forLoop (getMilestonePage gh owner repo name) 0 w) ∧
    trace (getMilestone gh owner repo name w) =
      trace (forLoop (getMilestonePage gh owner repo name) 0 w).
Proof.
  destruct (getMilestone_loop_leaves owner repo name 0 w) as [x Hx]; [lia|].
  exists x. split; [exact Hx|]. split; [|split].
  - by apply getMilestone_loop_value.
  - by apply getMilestone_loop_world with x.
  - by apply getMilestone_loop_trace with x.
Qed.

(** The loop that lists the issues, in the same way. *)
Lemma listIssues_loop_unfold owner repo stone st w :
  - 2 ^ 63 ≤ st.1 →
  forLoop (listIssuesPage gh owner repo stone) st w =
  bind (listIssuesPage gh owner repo stone st)
    (λ r, match r with
          | inl st' => forLoop (listIssuesPage gh owner repo stone) st'
          | inr x => ret (inr x)
          end) w.
Proof.
  intros Hp. apply (forLoop_unfold fst); [|done].
  intros p w' p'. unfold listIssuesPage. destruct p as [page issues].
  rewrite value_bind.
  destruct (value (callResult _ _ w')) as [[is_ resp]|err]; [|done].
  destruct (Z.leb_spec (asInt (NextPage resp)) page); [done|].
  intros [= <-]. split; [done|apply asInt_range].
Qed.

Lemma listIssuesPage_outcome owner repo stone page issues w :
  let opts := {| IssueListByRepoOptions_Milestone :=
                   Itoa (Milestone_GetNumber stone);
                 IssueListByRepoOptions_State := str "all";
                 IssueListByRepoOptions_Page := page |} in
  let r := Issues_ListByRepo gh owner repo opts w in
  let o := listIssuesPage gh owner repo stone (page, issues) w in
  world o = r.2 ∧
  trace o = [Called (IssuesListByRepo owner repo opts) (resultErr r.1)] ∧
  value o =
    match r.1 with
    | Err err => inr (Err (str "listing issues: " ++ err))
    | Ok (is_, resp) =>
        if asInt (NextPage resp) <=? page then inr (Ok (issues ++ is_))
        else inl (asInt (NextPage resp), issues ++ is_)
    end.
Proof.
  intros opts r o. subst o. unfold listIssuesPage. fold opts.
  rewrite value_bind, world_bind, trace_bind.
  change (value (callResult ?c ?f w)) with (f w).1.
  change (world (callResult ?c ?f w)) with (f w).2.
  change (trace (callResult ?c ?f w)) with [Called c (resultErr (f w).1)].
  fold r. destruct r.1 as [[is_ resp]|err]; [|by rewrite app_nil_r].
  destruct (asInt (NextPage resp) <=? page); by rewrite app_nil_r.
Qed.

Lemma listIssues_loop_rounds owner repo stone page issues w :
  - 2 ^ 63 ≤ page →
  let opts := {| IssueListByRepoOptions_Milestone :=
                   Itoa (Milestone_GetNumber stone);
                 IssueListByRepoOptions_State := str "all";
                 IssueListByRepoOptions_Page := page |} in
  let r := Issues_ListByRepo gh owner repo opts w in
  let loop := forLoop (listIssuesPage gh owner repo stone) in
  let decided := λ x,
    value (loop (page, issues) w) = inr x ∧
    world (loop (page, issues) w) = r.2 ∧
    trace (loop (page, issues) w) =
      [Called (IssuesListByRepo owner repo opts) (resultErr r.1)] in
  match r.1 with
  | Err err => decided (Err (str "listing issues: " ++ err))
  | Ok (is_, resp) =>
      if asInt (NextPage resp) <=? page then decided (Ok (issues ++ is_))
      else
        let next := (asInt (NextPage resp), issues ++ is_) in
        value (loop (page, issues) w) = value (loop next r.2) ∧
        world (loop (page, issues) w) = world (loop next r.2) ∧
        trace (loop (page, issues) w) =
          Called (IssuesListByRepo owner repo opts) None
          :: trace (loop next r.2)
  end.
Proof.
  intros Hp opts r loop decided. subst decided loop. cbv beta zeta.
  rewrite (listIssues_loop_unfold owner repo stone (page, issues) w Hp).
  rewrite !value_bind, !world_bind, !trace_bind.
  destruct (listIssuesPage_outcome owner repo stone page issues w)
    as (Hw & Ht & Hv).
  fold opts r in Hw, Ht, Hv. rewrite Hw, Ht, Hv.
  destruct r.1 as [[is_ resp]|err]; [|by rewrite app_nil_r].
  destruct (asInt (NextPage resp) <=? page); [by rewrite app_nil_r|done].
Qed.

End LookupRounds.


(** From here on the loops are used through the lemmas above. *)
Opaque forLoop.

(** ** The milestone synchronisation, issue by issue *)

Section Synchronise.

Context {W : Type} (gh : Client W).

Lemma markIssue_trace owner repo stone force dryRun fx w :
  trace (markIssue gh owner repo stone force dryRun fx w) =
  Called (IssuesGet owner repo fx)
    (resultErr (Issues_Get gh owner repo fx w).1)
  :: decisionLog fx (decisionOf force stone (Issues_Get gh owner repo fx w).1)
  :: match decisionOf force stone (Issues_Get gh owner repo fx w).1 with
     | Mark issue =>
         if dryRun then []
         else editEvents gh owner repo stone issue
                (Issues_Get gh owner repo fx w).2
     | _ => []
     end.
Proof.
  unfold markIssue, decisionOf, editEvents. rewrite trace_bind.
  change (value (callResult ?c ?f w)) with (f w).1.
  change (world (callResult ?c ?f w)) with (f w).2.
  change (trace (callResult ?c ?f w)) with [Called c (resultErr (f w).1)].
  destruct (Issues_Get gh owner repo fx w) as [[issue|err] w1]; cbn [fst snd];
    [|done].
  destruct (bool_decide (Issue_GetState issue ≠ str "closed")); [done|].
  destruct (Issue_Milestone issue) as [m|].
  - destruct (bool_decide (Milestone_GetNumber m = stoneNumber stone)); [done|].
    destruct force; [|done].
    destruct dryRun; [done|]. cbn.
    by destruct (Issues_Edit _ _ _ _ _ _).1.
  - destruct dryRun; [done|]. cbn.
    by destruct (Issues_Edit _ _ _ _ _ _).1.
Qed.

Lemma markIssue_world_dry owner repo stone force fx w :
  world (markIssue gh owner repo stone force true fx w) =
  (Issues_Get gh owner repo fx w).2.
Proof.
  unfold markIssue. rewrite world_bind.
  change (value (callResult ?c ?f w)) with (f w).1.
  change (world (callResult ?c ?f w)) with (f w).2.
  destruct (Issues_Get gh owner repo fx w) as [[issue|err] w1]; cbn [fst snd];
    [|done].
  destruct (bool_decide (Issue_GetState issue ≠ str "closed")); [done|].
  destruct (Issue_Milestone issue) as [m|]; [|done].
  destruct (bool_decide (Milestone_GetNumber m = stoneNumber stone)); [done|].
  by destruct force.
Qed.

Lemma decisionOf_passedOver force stone r :
  isPassedOver (decisionOf force stone r) = true ↔ passedOver force stone r.
Proof.
  unfold decisionOf, passedOver. destruct r as [issue|err].
  - case_bool_decide as Hs.
    + split; [|done]. intros _. right. exists issue. auto.
    + destruct (Issue_Milestone issue) as [m|] eqn:Hm.
      * case_bool_decide as Hn.
        -- split; [done|]. intros [[? [=]]|(i & [= <-] & [?|(m' & Hm' & ? & ?)])];
             [done|]. congruence.
        -- destruct force.
           ++ split; [done|].
              intros [[? [=]]|(i & [= <-] & [?|(m' & Hm' & ? & ?)])]; done.
           ++ split; [|done]. intros _. right. exists issue. split; [done|].
              right. by exists m.
      * split; [done|].
        intros [[? [=]]|(i & [= <-] & [?|(m' & Hm' & ? & ?)])]; [done|].
        congruence.
  - split; [|done]. intros _. left. by exists err.
Qed.

Lemma decisionOf_carries force stone r :
  decisionOf force stone r = AlreadyMarked ↔ carriesMilestone stone r.
Proof.
  unfold decisionOf, carriesMilestone. destruct r as [issue|err].
  - case_bool_decide as Hs.
    + split; [done|]. intros (i & m & [= <-] & ? & _). done.
    + destruct (Issue_Milestone issue) as [m|] eqn:Hm.
      * case_bool_decide as Hn.
        -- split; [|done]. intros _. by exists issue, m.
        -- split; [by destruct force|].
           intros (i & m' & [= <-] & ? & Hm' & ?). congruence.
      * split; [done|]. intros (i & m' & [= <-] & ? & Hm' & ?). congruence.
  - split; [done|]. by intros (i & m & [=] & _).
Qed.

End Synchronise.

(** C3 (as amended): for a referenced issue number the issue is fetched;
    it is passed over with a log line only if and only if the fetch fails,
    or the issue is not closed, or it carries another milestone and [force]
    is off; a closed issue that carries this very milestone is passed over
    as correctly marked; otherwise the assignment is logged and, unless the
    run is dry, the milestone's number is assigned to the issue. Whether the
    issue is a pull request plays no role. *)
Theorem createMilestone_issue_decision {W} (gh : Client W)
    (owner repo : gostring) (stone : option Milestone) (force dryRun : bool)
    (fx : Z) (w : W) :
  let r := (Issues_Get gh owner repo fx w).1 in
  let w1 := (Issues_Get gh owner repo fx w).2 in
  let d := decisionOf force stone r in
  trace (markIssue gh owner repo stone force dryRun fx w) =
    Called (IssuesGet owner repo fx) (resultErr r)
    :: decisionLog fx d
    :: match d with
       | Mark issue =>
           if dryRun then []
           else
             let req := {| IssueRequest_Milestone := Some (stoneNumber stone) |} in
             let err := (Issues_Edit gh owner repo (Issue_GetNumber issue) req w1).1 in
             Called (IssuesEdit owner repo (Issue_GetNumber issue) req) err
             :: match err with
                | Some err =>
                    [Logged [LogStr (str "Setting milestone on issue:");
                             LogErr err]]
                | None => []
                end
       | _ => []
       end ∧
  (isPassedOver d = true ↔ passedOver force stone r) ∧
  (d = AlreadyMarked ↔ carriesMilestone stone r) ∧
  ((∃ issue, r = Ok issue ∧ d = Mark issue) ↔
   ¬ passedOver force stone r ∧ ¬ carriesMilestone stone r).
Proof.
  intros r w1 d. split; [apply markIssue_trace|].
  split; [apply decisionOf_passedOver|]. split; [apply decisionOf_carries|].
  rewrite <-decisionOf_passedOver, <-(decisionOf_carries force). fold d.
  split.
  - intros (issue & _ & Hd). rewrite Hd. by split.
  - intros [Hp Hc]. subst d. unfold decisionOf in *.
    destruct r as [issue|err]; [|done]. exists issue. split; [done|].
    destruct (bool_decide (Issue_GetState issue ≠ str "closed")); [done|].
    destruct (Issue_Milestone issue) as [m|]; [|done].
    destruct (bool_decide (Milestone_GetNumber m = stoneNumber stone)); [done|].
    by destruct force.
Qed.

(** C3 as it is stated fails: issue 9 of [repoFresh] is a closed pull
    request without milestone, and the synchronisation assigns the
    milestone to it. *)
Lemma createMilestone_marks_pull_request :
  let pull := mkIssue 9 "closed" "lib: handle empty config" [] None true in
  (Issues_Get memClient (str "acme") (str "tool") 9 repoFresh).1 = Ok pull ∧
  Issue_IsPullRequest pull = true ∧
  trace (markIssue memClient (str "acme") (str "tool") (Some stoneV100)
           false false 9 repoFresh) =
    [ Called (IssuesGet (str "acme") (str "tool") 9) None;
      Logged [LogStr (str "Marking issue"); LogInt 9];
      Called (IssuesEdit (str "acme") (str "tool") 9
                {| IssueRequest_Milestone := Some 1 |}) None ] ∧
  Called (IssuesEdit (str "acme") (str "tool") 9
            {| IssueRequest_Milestone := Some 1 |}) None
    ∈ trace (createMilestone memClient (str "acme") (str "tool") (str "v0.9")
               (str "HEAD") (str "v1.0.0") false false repoFresh).
Proof.
  repeat split; try (vm_compute; reflexivity).
  apply list_elem_of_In. vm_compute. tauto.
Qed.

(** ** Dry runs *)

Section DryRun.

Context {W : Type} (gh : Client W).

Lemma withoutMutations_app t1 t2 :
  withoutMutations (t1 ++ t2) = withoutMutations t1 ++ withoutMutations t2.
Proof. apply List.filter_app. Qed.

Lemma withoutMutations_reads t :
  Forall (λ e, isMutation e = false) t → withoutMutations t = t.
Proof.
  induction 1 as [|e t He Ht IH]; [done|].
  unfold withoutMutations in *. simpl. by rewrite He, IH.
Qed.

Lemma mutations_app t1 t2 : mutations (t1 ++ t2) = mutations t1 ++ mutations t2.
Proof. apply List.filter_app. Qed.

Lemma mutations_reads t :
  Forall (λ e, isMutation e = false) t → mutations t = [].
Proof.
  induction 1 as [|e t He Ht IH]; [done|].
  unfold mutations in *. simpl. by rewrite He, IH.
Qed.

Lemma count_app p t1 t2 : count p (t1 ++ t2) = (count p t1 + count p t2)%nat.
Proof. unfold count. by rewrite List.filter_app, length_app. Qed.

Lemma decisionOf_stoneNumber force s1 s2 r :
  stoneNumber s1 = stoneNumber s2 →
  decisionOf force s1 r = decisionOf force s2 r.
Proof. intros H. unfold decisionOf. by rewrite H. Qed.

Lemma getMilestone_suppress owner repo name :
  getMilestone (suppressMutations gh) owner repo name =
  getMilestone gh owner repo name.
Proof. reflexivity. Qed.

Lemma markIssue_world_suppress owner repo stone force dryRun fx w :
  world (markIssue (suppressMutations gh) owner repo stone force dryRun fx w) =
  (Issues_Get gh owner repo fx w).2.
Proof.
  unfold markIssue. rewrite world_bind.
  change (value (callResult ?c ?f w)) with (f w).1.
  change (world (callResult ?c ?f w)) with (f w).2.
  change (Issues_Get (suppressMutations gh)) with (Issues_Get gh).
  destruct (Issues_Get gh owner repo fx w) as [[issue|err] w1]; cbn [fst snd];
    [|done].
  destruct (bool_decide (Issue_GetState issue ≠ str "closed")); [done|].
  destruct (Issue_Milestone issue) as [m|].
  - destruct (bool_decide (Milestone_GetNumber m = stoneNumber stone)); [done|].
    destruct force; [|done]. by destruct dryRun.
  - by destruct dryRun.
Qed.

(** The events of a dry run over the fixes. *)
Lemma forRange_markIssue_dry owner repo stone force fixes w :
  trace (forRange fixes (markIssue gh owner repo stone force true) w) =
  dryIssueTrace gh owner repo stone force fixes w.
Proof.
  revert w; induction fixes as [|fx fixes IH]; intros w; [done|].
  cbn [forRange dryIssueTrace]. rewrite trace_bind, markIssue_trace.
  rewrite markIssue_world_dry, IH.
  by destruct (decisionOf _ _ _).
Qed.

Lemma dryIssueTrace_reads owner repo stone force fixes w :
  Forall (λ e, isMutation e = false)
    (dryIssueTrace gh owner repo stone force fixes w).
Proof.
  revert w; induction fixes as [|fx fixes IH]; intros w; [constructor|].
  cbn [dryIssueTrace]. constructor; [done|]. constructor; [|apply IH].
  by destruct (decisionOf _ _ _).
Qed.

(** The run with the mutations cut off, over the fixes: the same state of
    the service, and the events of the dry run with an edit after each
    announcement. *)
Lemma forRange_markIssue_suppress owner repo s1 s2 force fixes w :
  stoneNumber s1 = stoneNumber s2 →
  let wet := forRange fixes
               (markIssue (suppressMutations gh) owner repo s2 force false) w in
  let dry := forRange fixes (markIssue gh owner repo s1 force true) w in
  world wet = world dry ∧
  withoutMutations (trace wet) = trace dry ∧
  count isEditCall (trace wet) = count isMarkingLog (trace dry).
Proof.
  intros Hs. revert w; induction fixes as [|fx fixes IH]; intros w; [done|].
  cbn [forRange]. cbv zeta in *.
  rewrite !world_bind, !trace_bind, markIssue_world_suppress, markIssue_world_dry.
  destruct (IH (Issues_Get gh owner repo fx w).2) as (Hw & Ht & Hc).
  split; [done|]. rewrite withoutMutations_app, !count_app, Ht, Hc.
  rewrite !markIssue_trace.
  change (Issues_Get (suppressMutations gh)) with (Issues_Get gh).
  rewrite (decisionOf_stoneNumber force s2 s1) by done.
  split; [f_equal|f_equal]; by destruct (decisionOf _ _ _).
Qed.

End DryRun.

(** Unfolds the binds and the primitive programs a goal runs. *)
Ltac run_prog :=
  repeat (rewrite ?trace_bind, ?value_bind, ?world_bind;
          progress cbn [ret callResult callErr logPrintln value world trace negb]).

Section DryRunMilestone.

Context {W : Type} (gh : Client W).

Lemma createMilestone_dry_trace owner repo since to milestone force w :
  let lookup := getMilestone gh owner repo milestone w in
  let commits :=
    Repositories_CompareCommits gh owner repo since to (world lookup) in
  trace (createMilestone gh owner repo since to milestone force true w) =
  trace lookup
  ++ match value lookup with Ok _ => [] | Err _ => [creatingLog milestone] end
  ++ Called (RepositoriesCompareCommits owner repo since to)
       (resultErr commits.1)
  :: match commits.1 with
     | Ok cs =>
         dryIssueTrace gh owner repo (foundStone (value lookup)) force
           (getFixes cs) commits.2
     | Err _ => []
     end.
Proof.
  intros lookup commits. unfold createMilestone.
  rewrite !trace_bind. fold lookup.
  destruct (value lookup) as [stone|err] eqn:E;
    run_prog; unfold listCommits; run_prog; fold commits;
    (destruct commits.1 as [cs|err'];
     [run_prog; rewrite forRange_markIssue_dry, ?app_nil_r; cbn [app]|]).
  all: by rewrite ?app_nil_r.
Qed.

Lemma createMilestone_dry_reads owner repo since to milestone force w :
  Forall (λ e, isMutation e = false)
    (trace (createMilestone gh owner repo since to milestone force true w)).
Proof.
  rewrite createMilestone_dry_trace. apply Forall_app. split.
  - apply getMilestone_reads.
  - apply Forall_app. split; [by destruct (value _); repeat constructor|].
    constructor; [done|].
    destruct (_.1); [apply dryIssueTrace_reads|constructor].
Qed.

Lemma count_listing owner repo t :
  Forall (isListing owner repo) t →
  count isEditCall t = 0%nat ∧ count isMarkingLog t = 0%nat.
Proof.
  unfold count. induction 1 as [|e t (opts & err & ->) Ht IH]; [done|].
  cbn [List.filter isEditCall isMarkingLog]. done.
Qed.

Lemma createMilestone_suppress owner repo since to milestone force w :
  let dry := createMilestone gh owner repo since to milestone force true w in
  let wet := createMilestone (suppressMutations gh) owner repo since to
               milestone force false w in
  value dry = value wet ∧ world dry = world wet ∧
  trace dry = withoutMutations (trace wet) ∧
  count isEditCall (trace wet) = count isMarkingLog (trace dry).
Proof.
  cbv zeta. unfold createMilestone.
  change (getMilestone (suppressMutations gh)) with (getMilestone gh).
  change (listCommits (suppressMutations gh)) with (listCommits gh).
  rewrite !trace_bind, !value_bind, !world_bind.
  pose proof (getMilestone_reads gh owner repo milestone w) as Hreads.
  set (lookup := getMilestone gh owner repo milestone w) in *.
  assert (count isEditCall (trace lookup) = 0%nat ∧
          count isMarkingLog (trace lookup) = 0%nat) as [Hc1 Hc2].
  { apply (count_listing owner repo), getMilestone_trace. }
  rewrite withoutMutations_app, !count_app, Hc1, Hc2,
    (withoutMutations_reads _ Hreads).
  destruct (value lookup) as [stone|err] eqn:E.
  - run_prog. unfold listCommits. run_prog.
    set (commits := Repositories_CompareCommits gh owner repo since to _).
    destruct commits.1 as [cs|err']; [|done]. run_prog.
    destruct (forRange_markIssue_suppress gh owner repo (Some stone)
                (Some stone) force (getFixes cs) commits.2 eq_refl)
      as (Hw & Ht & Hc).
    split; [done|]. split; [done|]. split.
    + by rewrite !withoutMutations_app, Ht, !app_nil_r.
    + by rewrite ?count_app, Hc.
  - run_prog. unfold listCommits. run_prog.
    change ((Issues_CreateMilestone (suppressMutations gh) owner repo
               (milestoneTitled milestone) (world lookup)).1)
      with (Ok (A := Milestone) (milestoneTitled milestone)).
    change ((Issues_CreateMilestone (suppressMutations gh) owner repo
               (milestoneTitled milestone) (world lookup)).2)
      with (world lookup).
    run_prog.
    set (commits := Repositories_CompareCommits gh owner repo since to _).
    destruct commits.1 as [cs|err']; [|done]. run_prog.
    destruct (forRange_markIssue_suppress gh owner repo None
                (Some (milestoneTitled milestone)) force (getFixes cs)
                commits.2 eq_refl)
      as (Hw & Ht & Hc).
    split; [done|]. split; [done|]. split.
    + by rewrite !withoutMutations_app, Ht, !app_nil_r.
    + by rewrite ?count_app, Hc.
Qed.

End DryRunMilestone.

(** C8: a dry run of the milestone synchronisation makes no creating or
    editing call; its events are the reads and the log lines: the lookup,
    the announcement of the creation when the milestone is missing, the
    listing of the commits, and for each fix the fetch and the decision. It
    is the run with [dryRun] off against the service whose mutations are cut
    off, the mutating calls erased: the same result, the same state of the
    service, the same reads and decisions, one announcement for each edit.
    When no milestone of the name exists, no mutating call is made, and the
    creation and each assignment are announced. *)
Theorem dryRun_suppresses_mutations {W} (gh : Client W)
    (owner repo since to milestone : gostring) (force : bool) (w : W) :
  let dry := createMilestone gh owner repo since to milestone force true w in
  let wet := createMilestone (suppressMutations gh) owner repo since to
               milestone force false w in
  let lookup := getMilestone gh owner repo milestone w in
  let commits :=
    Repositories_CompareCommits gh owner repo since to (world lookup) in
  mutations (trace dry) = [] ∧
  trace dry =
    trace lookup
    ++ match value lookup with Ok _ => [] | Err _ => [creatingLog milestone] end
    ++ Called (RepositoriesCompareCommits owner repo since to)
         (resultErr commits.1)
    :: match commits.1 with
       | Ok cs =>
           dryIssueTrace gh owner repo (foundStone (value lookup)) force
             (getFixes cs) commits.2
       | Err _ => []
       end ∧
  value dry = value wet ∧ world dry = world wet ∧
  trace dry = withoutMutations (trace wet) ∧
  count isEditCall (trace wet) = count isMarkingLog (trace dry) ∧
  (∀ err, value lookup = Err err →
     mutations (trace dry) = [] ∧
     creatingLog milestone ∈ trace dry ∧
     ∀ cs, commits.1 = Ok cs →
       trace dry =
         trace lookup
         ++ creatingLog milestone
         :: Called (RepositoriesCompareCommits owner repo since to) None
         :: dryIssueTrace gh owner repo None force (getFixes cs) commits.2).
Proof.
  intros dry wet lookup commits.
  assert (mutations (trace dry) = []) as Hm
    by apply mutations_reads, createMilestone_dry_reads.
  pose proof (createMilestone_dry_trace gh owner repo since to milestone
                force w) as Ht. cbv zeta in Ht. fold dry lookup commits in Ht.
  destruct (createMilestone_suppress gh owner repo since to milestone force w)
    as (Hv & Hw & Hwet & Hc).
  do 6 (split; [done|]).
  intros err Herr. split; [done|]. rewrite Herr in Ht. split.
  - rewrite Ht. apply elem_of_app. right. by left.
  - intros cs Hcs. by rewrite Ht, Hcs.
Qed.

Lemma dryRun_suppresses_mutations_witness :
  let dry := createMilestone memClient (str "acme") (str "tool") (str "v0.9")
               (str "HEAD") (str "v1.0.0") false true repoFresh in
  mutations (trace dry) = [] ∧
  creatingLog (str "v1.0.0") ∈ trace dry ∧
  ∀ cs,
    (Repositories_CompareCommits memClient (str "acme") (str "tool")
       (str "v0.9") (str "HEAD")
       (world (getMilestone memClient (str "acme") (str "tool") (str "v1.0.0")
                 repoFresh))).1 = Ok cs →
    trace dry =
      trace (getMilestone memClient (str "acme") (str "tool") (str "v1.0.0")
               repoFresh)
      ++ creatingLog (str "v1.0.0")
      :: Called (RepositoriesCompareCommits (str "acme") (str "tool")
                   (str "v0.9") (str "HEAD")) None
      :: dryIssueTrace memClient (str "acme") (str "tool") None false
           (getFixes cs)
           (Repositories_CompareCommits memClient (str "acme") (str "tool")
              (str "v0.9") (str "HEAD")
              (world (getMilestone memClient (str "acme") (str "tool")
                        (str "v1.0.0") repoFresh))).2.
Proof.
  apply (proj2 (proj2 (proj2 (proj2 (proj2 (proj2
           (dryRun_suppresses_mutations memClient (str "acme") (str "tool")
              (str "v0.9") (str "HEAD") (str "v1.0.0") false repoFresh))))))
         (str "not found")).
  vm_compute. reflexivity.
Defined.

(** The dry run against [repoFresh]: the creation is announced, issue 7 and
    the pull request 9 would be marked, 8 is open and 10 cannot be
    fetched. *)
Example dryRun_repoFresh :
  trace (createMilestone memClient (str "acme") (str "tool") (str "v0.9")
           (str "HEAD") (str "v1.0.0") false true repoFresh) =
  [ Called (IssuesListMilestones (str "acme") (str "tool")
              {| MilestoneListOptions_State := str "all";
                 MilestoneListOptions_Page := 0 |}) None;
    Logged [LogStr (str "Creating milestone"); LogStr (str "v1.0.0")];
    Called (RepositoriesCompareCommits (str "acme") (str "tool") (str "v0.9")
              (str "HEAD")) None;
    Called (IssuesGet (str "acme") (str "tool") 7) None;
    Logged [LogStr (str "Marking issue"); LogInt 7];
    Called (IssuesGet (str "acme") (str "tool") 8) None;
    Logged [LogStr (str "Issue"); LogInt 8;
            LogStr (str "is not closed; not marking")];
    Called (IssuesGet (str "acme") (str "tool") 9) None;
    Logged [LogStr (str "Marking issue"); LogInt 9];
    Called (IssuesGet (str "acme") (str "tool") 10) (Some notFound);
    Logged [LogStr (str "Getting issue:"); LogErr notFound] ].
Proof. vm_compute. reflexivity. Qed.

(** ** The buckets of the changelog *)

Lemma contains_spec s ss : contains s ss = true ↔ s ∈ ss.
Proof.
  induction ss as [|v ss IH]; simpl.
  - split; [done|]. by intros ?%elem_of_nil.
  - rewrite elem_of_cons. case_bool_decide as Hv.
    + split; [|done]. intros _. by left.
    + rewrite IH. split; [by right|]. intros [?|?]; [|done]. by subst.
Qed.

Lemma contains_labels s issue : contains s (labels issue) = hasLabel s issue.
Proof.
  apply eq_true_iff_eq. rewrite contains_spec. unfold hasLabel, labels, sortStrings.
  rewrite bool_decide_eq_true. by rewrite merge_sort_Permutation.
Qed.

Lemma skipped_labels skipLabels issue :
  skipped skipLabels (labels issue) =
  negb (forallb (λ skip, negb (hasLabel skip issue)) skipLabels).
Proof.
  unfold skipped. induction skipLabels as [|skip skips IH]; simpl; [done|].
  rewrite IH, contains_labels. by destruct (hasLabel skip issue).
Qed.

Lemma bucketIssue_spec skipLabels b issue :
  bucketIssue skipLabels b issue =
  {| bugs := bugs b ++ inBucket skipLabels Bugfixes [issue];
     enhancements := enhancements b ++ inBucket skipLabels Enhancements [issue];
     other := other b ++ inBucket skipLabels Other [issue] |}.
Proof.
  unfold bucketIssue, inBucket, survives, bucketOf.
  rewrite skipped_labels, !contains_labels. simpl.
  destruct b as [bs es os]. simpl.
  destruct (Issue_IsPullRequest issue); simpl; [by rewrite !app_nil_r|].
  destruct (forallb _ skipLabels); simpl; [|by rewrite !app_nil_r].
  destruct (hasLabel (str "bug") issue); simpl; [by rewrite !app_nil_r|].
  destruct (hasLabel (str "enhancement") issue); simpl; by rewrite !app_nil_r.
Qed.

Lemma foldl_bucketIssue skipLabels issues b :
  foldl (bucketIssue skipLabels) b issues =
  {| bugs := bugs b ++ inBucket skipLabels Bugfixes issues;
     enhancements := enhancements b ++ inBucket skipLabels Enhancements issues;
     other := other b ++ inBucket skipLabels Other issues |}.
Proof.
  revert b; induction issues as [|issue issues IH]; intros b.
  - destruct b. simpl. by rewrite !app_nil_r.
  - cbn [foldl]. rewrite IH, bucketIssue_spec. cbn [bugs enhancements other].
    unfold inBucket. rewrite <-!app_assoc, <-!List.filter_app. done.
Qed.

Lemma bucketIssues_spec skipLabels issues :
  bucketIssues skipLabels issues =
  {| bugs := inBucket skipLabels Bugfixes issues;
     enhancements := inBucket skipLabels Enhancements issues;
     other := inBucket skipLabels Other issues |}.
Proof. unfold bucketIssues. by rewrite foldl_bucketIssue. Qed.

Lemma elem_of_inBucket skipLabels b issues issue :
  issue ∈ inBucket skipLabels b issues ↔
  issue ∈ issues ∧ survives skipLabels issue = true ∧ bucketOf issue = b.
Proof.
  unfold inBucket. rewrite !list_elem_of_In, List.filter_In, andb_true_iff.
  by rewrite bool_decide_eq_true.
Qed.

Lemma inBucket_survivors skipLabels b issues :
  inBucket skipLabels b (List.filter (survives skipLabels) issues) =
  inBucket skipLabels b issues.
Proof.
  unfold inBucket. induction issues as [|i issues IH]; [done|]. simpl.
  destruct (survives skipLabels i) eqn:E; simpl; rewrite ?E; simpl; by rewrite IH.
Qed.

Lemma survives_false skipLabels issue :
  survives skipLabels issue = false ↔
  Issue_IsPullRequest issue = true ∨
  ∃ skip, skip ∈ skipLabels ∧
          skip ∈ Label_GetName <$> Issue_Labels issue.
Proof.
  unfold survives. rewrite andb_false_iff, negb_false_iff.
  apply or_iff_compat_l.
  induction skipLabels as [|skip skips IH]; simpl.
  - split; [done|]. by intros (skip & ?%elem_of_nil & _).
  - rewrite andb_false_iff, negb_false_iff, IH. unfold hasLabel.
    rewrite bool_decide_eq_true. split.
    + intros [Hl|(skip' & Hin & Hl)].
      * exists skip. split; [by left|done].
      * exists skip'. split; [by right|done].
    + intros (skip' & [->|Hin]%elem_of_cons & Hl); [by left|].
      right. by exists skip'.
Qed.

(** C5: the issues that survive the filters are partitioned by the first
    rule that matches: an issue labelled "bug" goes to the bug fixes, also
    when it is labelled "enhancement" too; otherwise one labelled
    "enhancement" goes to the enhancements; the others go to the other
    issues. Each bucket keeps the order of the list. *)
Theorem changelog_partition (skipLabels : list gostring) (issues : list Issue) :
  let b := bucketIssues skipLabels issues in
  (bugs b = inBucket skipLabels Bugfixes issues ∧
   enhancements b = inBucket skipLabels Enhancements issues ∧
   other b = inBucket skipLabels Other issues) ∧
  (∀ issue, issue ∈ issues → survives skipLabels issue = true →
     (hasLabel (str "bug") issue = true → issue ∈ bugs b) ∧
     (hasLabel (str "bug") issue = false →
      hasLabel (str "enhancement") issue = true → issue ∈ enhancements b) ∧
     (hasLabel (str "bug") issue = false →
      hasLabel (str "enhancement") issue = false → issue ∈ other b)) ∧
  bucketIssues [] labelledIssues =
    {| bugs := [ mkIssue 1 "closed" "Crash on start" ["bug"]
                   (Some stoneV100) false;
                 mkIssue 3 "closed" "Slow and wrong" ["bug"; "enhancement"]
                   (Some stoneV100) false ];
       enhancements := [ mkIssue 2 "closed" "Add flag" ["enhancement"]
                           (Some stoneV100) false ];
       other := [ mkIssue 4 "closed" "Typo" [] (Some stoneV100) false ] |}.
Proof.
  intros b. subst b. rewrite bucketIssues_spec. cbn [bugs enhancements other].
  split; [done|]. split; [|by vm_compute].
  intros issue Hin Hs. rewrite !elem_of_inBucket. unfold bucketOf.
  split; [|split].
  - by intros ->.
  - by intros -> ->.
  - by intros -> ->.
Qed.

Lemma changelog_partition_witness :
  mkIssue 3 "closed" "Slow and wrong" ["bug"; "enhancement"]
    (Some stoneV100) false ∈ bugs (bucketIssues [] labelledIssues).
Proof.
  apply (proj1 (proj1 (proj2 (changelog_partition [] labelledIssues))
                  (mkIssue 3 "closed" "Slow and wrong" ["bug"; "enhancement"]
                     (Some stoneV100) false)
                  ltac:(right; right; left) eq_refl) eq_refl).
Defined.

(** C6: an issue that is a pull request, or that carries a label of the
    skip list, is in none of the three buckets, and the text rendered is that
    of the list without such issues. *)
Theorem changelog_excludes (skipLabels : list gostring) (issues : list Issue)
    (issue : Issue) :
  Issue_IsPullRequest issue = true ∨
  (∃ skip, skip ∈ skipLabels ∧ skip ∈ Label_GetName <$> Issue_Labels issue) →
  let b := bucketIssues skipLabels issues in
  (issue ∉ bugs b) ∧ (issue ∉ enhancements b) ∧ (issue ∉ other b) ∧
  survives skipLabels issue = false ∧
  ∀ w owner repo release markdownLinks withSubject stone,
    writeChangelog w owner repo release markdownLinks withSubject stone b =
    writeChangelog w owner repo release markdownLinks withSubject stone
      (bucketIssues skipLabels (List.filter (survives skipLabels) issues)).
Proof.
  intros Hex%survives_false b. subst b. rewrite !bucketIssues_spec.
  cbn [bugs enhancements other]. rewrite !elem_of_inBucket.
  repeat split; try (intros (_ & Hs & _); congruence); try done.
  intros. by rewrite !inBucket_survivors.
Qed.

Lemma changelog_excludes_witness :
  let pull := mkIssue 9 "closed" "lib: handle empty config" [] None true in
  let b := bucketIssues [] (mem_issues repoFresh) in
  (pull ∉ bugs b) ∧ (pull ∉ enhancements b) ∧ (pull ∉ other b) ∧
  survives [] pull = false ∧
  ∀ w owner repo release markdownLinks withSubject stone,
    writeChangelog w owner repo release markdownLinks withSubject stone b =
    writeChangelog w owner repo release markdownLinks withSubject stone
      (bucketIssues [] (List.filter (survives []) (mem_issues repoFresh))).
Proof.
  apply (changelog_excludes [] (mem_issues repoFresh)
           (mkIssue 9 "closed" "lib: handle empty config" [] None true)).
  left. reflexivity.
Defined.

(** ** Release names *)

Lemma milestoneOf_beforeHyphen r : milestoneOf r = beforeHyphen r.
Proof.
  unfold milestoneOf, SplitN. cbn [Z.eqb Z.ltb Z.compare Z.to_nat Pos.to_nat
    Pos.iter_op Nat.add splitUpTo].
  induction r as [|c r IH]; [done|]. simpl in *.
  destruct (c =? 45); [done|].
  destruct (cut r 45) as [[b a]|]; simpl in *; by rewrite <-IH.
Qed.

Lemma beforeHyphen_no_hyphen r : 45 ∉ beforeHyphen r.
Proof.
  induction r as [|c r IH]; simpl; [apply not_elem_of_nil|].
  destruct (Z.eqb_spec c 45); [apply not_elem_of_nil|].
  rewrite elem_of_cons. intros [?|?]; [by subst|done].
Qed.

Lemma beforeHyphen_id r : 45 ∉ r → beforeHyphen r = r.
Proof.
  induction r as [|c r IH]; [done|]. rewrite elem_of_cons. intros Hn. simpl.
  destruct (Z.eqb_spec c 45) as [->|]; [tauto|]. rewrite IH; [done|tauto].
Qed.

Lemma beforeHyphen_neq r : 45 ∈ r → r ≠ beforeHyphen r.
Proof. intros Hin Heq. rewrite Heq in Hin. by apply beforeHyphen_no_hyphen in Hin. Qed.

(** ** The changelog *)

Lemma printIssues_app w issues markdownLinks :
  printIssues w issues markdownLinks = w ++ printIssues [] issues markdownLinks.
Proof.
  unfold printIssues. revert w. induction issues as [|i issues IH]; intros w; simpl.
  - by rewrite app_nil_r.
  - rewrite IH, (IH (printIssue _ _)). by rewrite app_assoc.
Qed.

Lemma printBucket_app w mdTitle plainTitle issues markdownLinks :
  printBucket w mdTitle plainTitle issues markdownLinks =
  w ++ printBucket [] mdTitle plainTitle issues markdownLinks.
Proof.
  unfold printBucket. case_bool_decide; [|by rewrite app_nil_r].
  rewrite printIssues_app, (printIssues_app ([] ++ _)). simpl.
  by rewrite <-!app_assoc.
Qed.

Lemma writeChangelog_app w owner repo release markdownLinks withSubject stone b :
  writeChangelog w owner repo release markdownLinks withSubject stone b =
  w ++ writeChangelog [] owner repo release markdownLinks withSubject stone b.
Proof.
  unfold writeChangelog.
  rewrite printBucket_app, (printBucket_app (printBucket _ _ _ _ _)),
    (printBucket_app (if bool_decide _ then _ else _)).
  symmetry.
  rewrite printBucket_app, (printBucket_app (printBucket _ _ _ _ _)),
    (printBucket_app (if bool_decide _ then _ else _)).
  rewrite !app_assoc. do 3 f_equal.
  destruct withSubject; case_bool_decide; simpl; by rewrite ?app_nil_r, ?app_assoc.
Qed.

Lemma writeChangelog_heading owner repo release markdownLinks stone b :
  writeChangelog [] owner repo release markdownLinks true stone b =
  heading owner repo release markdownLinks ++
  writeChangelog [] owner repo release markdownLinks false stone b.
Proof.
  rewrite <-writeChangelog_app. reflexivity.
Qed.

Section Changelog.

Context {W : Type} (gh : Client W).

Lemma listIssuesPage_trace owner repo stone st w :
  Forall (isIssueListing owner repo stone)
    (trace (listIssuesPage gh owner repo stone st w)).
Proof.
  unfold listIssuesPage. destruct st as [page issues]. rewrite trace_bind.
  apply Forall_app. split.
  - repeat constructor. by eexists _, _.
  - destruct (value (callResult _ _ w)) as [[is_ resp]|err]; [|constructor].
    destruct (_ <=? _); constructor.
Qed.

Lemma listIssuesPage_next owner repo stone st w st' :
  value (listIssuesPage gh owner repo stone st w) = inl st' →
  st.1 < st'.1 ∧ - 2 ^ 63 ≤ st'.1 < 2 ^ 63.
Proof.
  unfold listIssuesPage. destruct st as [page issues]. rewrite value_bind.
  destruct (value (callResult _ _ w)) as [[is_ resp]|err]; [|done].
  destruct (Z.leb_spec (asInt (NextPage resp)) page); [done|].
  intros [= <-]. split; [done|apply asInt_range].
Qed.

(** The loop that lists the issues is left through one of its returns. *)
Lemma listIssues_leaves owner repo stone w :
  ∃ r, value (forLoop (listIssuesPage gh owner repo stone) (0, []) w) = inr r.
Proof.
  apply (forLoop_leaves fst); [|done].
  intros st w' st'. apply listIssuesPage_next.
Qed.

Lemma changelog_ok wr owner repo release markdownLinks skipLabels withSubject
    w out :
  value (changelog gh wr owner repo release markdownLinks skipLabels
           withSubject w) = (out, None) →
  ∃ stone issues,
    value (getMilestone gh owner repo (milestoneOf release) w) = Ok stone ∧
    value (forLoop (listIssuesPage gh owner repo stone) (0, [])
             (world (getMilestone gh owner repo (milestoneOf release) w)))
      = inr (Ok issues) ∧
    out = writeChangelog wr owner repo release markdownLinks withSubject stone
            (bucketIssues skipLabels (sortIssues issues)).
Proof.
  unfold changelog. rewrite value_bind.
  destruct (value (getMilestone _ _ _ _ _)) as [stone|err]; [|done].
  rewrite value_bind.
  destruct (value (forLoop _ _ _)) as [st|[issues|err]] eqn:E; [done| |done].
  intros [= <-]. by exists stone, issues.
Qed.

Lemma changelog_failed wr owner repo release markdownLinks skipLabels
    withSubject w out err :
  value (changelog gh wr owner repo release markdownLinks skipLabels
           withSubject w) = (out, Some err) → out = wr.
Proof.
  unfold changelog. rewrite value_bind.
  destruct (value (getMilestone _ _ _ _ _)) as [stone|err']; [|by intros [= <-]].
  rewrite value_bind.
  destruct (value (forLoop _ _ _)) as [st|[issues|err']]; by intros [=].
Qed.

Lemma changelog_reads wr owner repo release markdownLinks skipLabels
    withSubject w :
  Forall (λ e, isMutation e = false)
    (trace (changelog gh wr owner repo release markdownLinks skipLabels
              withSubject w)).
Proof.
  unfold changelog. rewrite trace_bind. apply Forall_app. split.
  - apply getMilestone_reads.
  - destruct (value (getMilestone _ _ _ _ _)) as [stone|err]; [|constructor].
    rewrite trace_bind. apply Forall_app. split.
    + eapply Forall_impl; [apply forLoop_trace, listIssuesPage_trace|].
      by intros e (opts & err & -> & _).
    + destruct (value (forLoop _ _ _)) as [st|[issues|err]]; constructor.
Qed.

End Changelog.

(** ** Publishing a release *)

Section Release.

Context {W : Type} (gh : Client W).

Lemma createRelease_trace owner repo release changelog w :
  let lookup := getMilestone gh owner repo (milestoneOf release) w in
  trace (createRelease gh owner repo release changelog w) =
  trace lookup ++
  match value lookup with
  | Ok stone =>
      releaseEvents gh owner repo release changelog stone (world lookup)
  | Err _ => []
  end.
Proof.
  intros lookup. unfold createRelease, releaseEvents, isPrerelease, releaseOf.
  rewrite trace_bind. fold lookup.
  destruct (value lookup) as [stone|err]; [|done]. run_prog.
  destruct (Repositories_CreateRelease _ _ _ _ _).1 as [err|]; [done|].
  case_bool_decide; [done|]. run_prog.
  by destruct (Issues_EditMilestone _ _ _ _ _ _).1.
Qed.

Lemma createRelease_value owner repo release changelog w :
  let lookup := getMilestone gh owner repo (milestoneOf release) w in
  value (createRelease gh owner repo release changelog w) =
  match value lookup with
  | Ok stone =>
      let c := Repositories_CreateRelease gh owner repo
                 (releaseOf release changelog) (world lookup) in
      match c.1 with
      | Some err => Some err
      | None =>
          if bool_decide (release ≠ milestoneOf release) then None
          else
            match (Issues_EditMilestone gh owner repo
                     (Milestone_GetNumber stone) milestoneClosed c.2).1 with
            | Some _ => Some (str "closing milestone: %!w(MISSING)")
            | None => None
            end
      end
  | Err err => Some (str "getting milestone: " ++ err)
  end.
Proof.
  intros lookup. unfold createRelease, isPrerelease, releaseOf.
  rewrite value_bind. fold lookup.
  destruct (value lookup) as [stone|err]; [|done]. run_prog.
  destruct (Repositories_CreateRelease _ _ _ _ _).1 as [err|]; [done|].
  case_bool_decide; [done|]. run_prog.
  by destruct (Issues_EditMilestone _ _ _ _ _ _).1.
Qed.

Lemma mutations_releaseEvents owner repo release changelog stone w :
  mutations (releaseEvents gh owner repo release changelog stone w) =
  releaseEvents gh owner repo release changelog stone w.
Proof.
  unfold releaseEvents. cbv zeta.
  destruct (Repositories_CreateRelease _ _ _ _ _).1; [done|].
  by case_bool_decide.
Qed.

Lemma releaseRun_trace owner repo release skipLabels w :
  let cl := changelog gh [] owner repo release false skipLabels false w in
  trace (releaseRun gh owner repo release skipLabels w) =
  trace cl ++
  match (value cl).2 with
  | Some _ => []
  | None => trace (createRelease gh owner repo release (value cl).1 (world cl))
  end.
Proof.
  intros cl. unfold releaseRun. rewrite trace_bind. fold cl. clearbody cl.
  destruct (value cl) as [buf [err|]]; cbn [fst snd]; reflexivity.
Qed.

Lemma releaseRun_value owner repo release skipLabels w :
  let cl := changelog gh [] owner repo release false skipLabels false w in
  value (releaseRun gh owner repo release skipLabels w) =
  match (value cl).2 with
  | Some err => Some err
  | None => value (createRelease gh owner repo release (value cl).1 (world cl))
  end.
Proof.
  intros cl. unfold releaseRun. rewrite value_bind. fold cl. clearbody cl.
  destruct (value cl) as [buf [err|]]; cbn [fst snd]; reflexivity.
Qed.

(** The creating and editing calls of a release run: those of
    [createRelease] after the lookup. *)
Lemma releaseRun_mutations owner repo release skipLabels w :
  let cl := changelog gh [] owner repo release false skipLabels false w in
  let lookup := getMilestone gh owner repo (milestoneOf release) (world cl) in
  mutations (trace (releaseRun gh owner repo release skipLabels w)) =
  match (value cl).2, value lookup with
  | None, Ok stone =>
      releaseEvents gh owner repo release (value cl).1 stone (world lookup)
  | _, _ => []
  end.
Proof.
  intros cl lookup. rewrite releaseRun_trace. fold cl.
  rewrite mutations_app, (mutations_reads (trace cl))
    by apply changelog_reads.
  destruct (value cl).2 as [err|]; [reflexivity|].
  rewrite createRelease_trace. fold lookup.
  rewrite mutations_app, (mutations_reads (trace lookup))
    by apply getMilestone_reads.
  destruct (value lookup) as [stone|err]; [|reflexivity].
  apply mutations_releaseEvents.
Qed.

End Release.

(** C7: the release publisher renders the changelog without heading and
    creates one release, named and tagged with the release name, with the
    rendered changelog as body, marked as prerelease when the name differs
    from the milestone's, and no draft; it then edits the milestone to
    "closed" exactly when the release is no prerelease. A run that succeeds
    makes these mutating calls and no other; in any run the mutating calls
    are none, the creation alone, or the creation followed by the closing. *)
Theorem release_publisher {W} (gh : Client W) (owner repo release : gostring)
    (skipLabels : list gostring) (w : W) :
  let cl := changelog gh [] owner repo release false skipLabels false w in
  let run := releaseRun gh owner repo release skipLabels w in
  let rel := {| Release_Name := release; Release_TagName := release;
                Release_Body := (value cl).1;
                Release_Prerelease :=
                  bool_decide (release ≠ milestoneOf release);
                Release_Draft := false |} in
  let create := Called (RepositoriesCreateRelease owner repo rel) in
  let close := λ stone,
    Called (IssuesEditMilestone owner repo (Milestone_GetNumber stone)
              milestoneClosed) in
  (value run = None →
   ∃ stone, Milestone_GetTitle stone = milestoneOf release ∧
     mutations (trace run) =
       create None ::
       (if bool_decide (release = milestoneOf release)
        then [close stone None] else [])) ∧
  (mutations (trace run) = [] ∨
   (∃ err, mutations (trace run) = [create (Some err)] ∧
           value run = Some err) ∨
   (release ≠ milestoneOf release ∧ mutations (trace run) = [create None]) ∨
   (release = milestoneOf release ∧
    ∃ stone err, Milestone_GetTitle stone = milestoneOf release ∧
      mutations (trace run) = [create None; close stone err])) ∧
  (∀ buf, value cl = (buf, None) →
     ∃ stone issues,
       buf = writeChangelog [] owner repo release false false stone
               (bucketIssues skipLabels (sortIssues issues))).
Proof.
  intros cl run rel create close.
  pose proof (releaseRun_mutations gh owner repo release skipLabels w) as Hm.
  pose proof (releaseRun_value gh owner repo release skipLabels w) as Hv.
  cbv zeta in Hm, Hv. fold cl run in Hm, Hv.
  rewrite createRelease_value in Hv. cbv zeta in Hv.
  pose proof (getMilestone_title gh owner repo (milestoneOf release) (world cl))
    as Htitle.
  unfold releaseEvents, releaseOf in Hm. cbv zeta in Hm. unfold releaseOf in Hv.
  fold rel in Hm, Hv.
  destruct (value cl).2 as [cerr|] eqn:Hcl.
  { split; [by rewrite Hv|]. split; [by left|].
    intros buf Hbuf. rewrite Hbuf in Hcl. done. }
  destruct (value (getMilestone gh owner repo (milestoneOf release) (world cl)))
    as [stone|lerr] eqn:Hl.
  2:{ split; [by rewrite Hv|]. split; [by left|].
      intros buf Hbuf. apply changelog_ok in Hbuf as (s & issues & _ & _ & ->).
      by exists s, issues. }
  specialize (Htitle stone eq_refl).
  destruct (Repositories_CreateRelease gh owner repo rel _).1 as [err|] eqn:Hc.
  { split; [by rewrite Hv|]. split.
    - right; left. exists err. by rewrite Hm, Hv.
    - intros buf Hbuf. apply changelog_ok in Hbuf as (s & issues & _ & _ & ->).
      by exists s, issues. }
  split; [|split].
  - intros Hnone. exists stone. split; [done|]. rewrite Hm.
    case_bool_decide as Hpre; case_bool_decide as Hfin; try done.
    rewrite Hv in Hnone.
    by destruct (Issues_EditMilestone _ _ _ _ _ _).1.
  - case_bool_decide as Hpre.
    + right; right; left. split; [done|]. exact Hm.
    + right; right; right.
      split; [by destruct (decide (release = milestoneOf release))|].
      eexists stone, _. split; [done|]. exact Hm.
  - intros buf Hbuf. apply changelog_ok in Hbuf as (s & issues & _ & _ & ->).
    by exists s, issues.
Qed.

Lemma release_publisher_witness :
  ∃ stone, Milestone_GetTitle stone = milestoneOf (str "v1.0.0") ∧
    mutations (trace (releaseRun memClient (str "acme") (str "tool")
                        (str "v1.0.0") [] repoV100)) =
      Called (RepositoriesCreateRelease (str "acme") (str "tool")
                {| Release_Name := str "v1.0.0"; Release_TagName := str "v1.0.0";
                   Release_Body :=
                     (value (changelog memClient [] (str "acme") (str "tool")
                               (str "v1.0.0") false [] false repoV100)).1;
                   Release_Prerelease :=
                     bool_decide (str "v1.0.0" ≠ milestoneOf (str "v1.0.0"));
                   Release_Draft := false |}) None ::
      (if bool_decide (str "v1.0.0" = milestoneOf (str "v1.0.0"))
       then [Called (IssuesEditMilestone (str "acme") (str "tool")
                       (Milestone_GetNumber stone) milestoneClosed) None]
       else []).
Proof.
  apply (proj1 (release_publisher memClient (str "acme") (str "tool")
                  (str "v1.0.0") [] repoV100)).
  vm_compute. reflexivity.
Defined.

(** The final release "v1.0.0" and the candidate "v1.0.0-rc.1" of
    [repoV100]: both are created with the changelog as body; the first
    closes the milestone, the second is a prerelease and closes nothing. *)
Example release_final :
  mutations (trace (releaseRun memClient (str "acme") (str "tool")
                      (str "v1.0.0") [] repoV100)) =
  [ Called (RepositoriesCreateRelease (str "acme") (str "tool")
              {| Release_Name := str "v1.0.0"; Release_TagName := str "v1.0.0";
                 Release_Body := str "Bugfixes:

- #1: Crash on start

Enhancements:

- #2: Add flag

Other issues:

- #3: Typo

";
                 Release_Prerelease := false; Release_Draft := false |}) None;
    Called (IssuesEditMilestone (str "acme") (str "tool") 1 milestoneClosed)
      None ].
Proof. vm_compute. reflexivity. Qed.

Example release_candidate :
  mutations (trace (releaseRun memClient (str "acme") (str "tool")
                      (str "v1.0.0-rc.1") [] repoV100)) =
  [ Called (RepositoriesCreateRelease (str "acme") (str "tool")
              {| Release_Name := str "v1.0.0-rc.1";
                 Release_TagName := str "v1.0.0-rc.1";
                 Release_Body := str "Bugfixes:

- #1: Crash on start

Enhancements:

- #2: Add flag

Other issues:

- #3: Typo

";
                 Release_Prerelease := true; Release_Draft := false |}) None ].
Proof. vm_compute. reflexivity. Qed.

Lemma changelog_listings {W} (gh : Client W) wr owner repo release
    markdownLinks skipLabels withSubject w stone :
  value (getMilestone gh owner repo (milestoneOf release) w) = Ok stone →
  Forall (λ e, isListing owner repo e ∨ isIssueListing owner repo stone e)
    (trace (changelog gh wr owner repo release markdownLinks skipLabels
              withSubject w)).
Proof.
  intros Hl. unfold changelog. rewrite trace_bind, Hl. apply Forall_app. split.
  - eapply Forall_impl; [apply getMilestone_trace|]. by left.
  - rewrite trace_bind. apply Forall_app. split.
    + eapply Forall_impl; [apply forLoop_trace, listIssuesPage_trace|]. by right.
    + destruct (value (forLoop _ _ _)) as [st|[issues|err]]; constructor.
Qed.

(** C9: a changelog rendered with a heading starts with the release
    argument as it was given, also in the link of the markdown heading,
    while the issues listed are those of the milestone whose title is the
    part of the release name before the first hyphen; so for a release name
    with a hyphen the heading differs from the title of that milestone. *)
Theorem changelog_heading_is_release {W} (gh : Client W)
    (wr owner repo release : gostring) (markdownLinks : bool)
    (skipLabels : list gostring) (w : W) (out : gostring) :
  value (changelog gh wr owner repo release markdownLinks skipLabels true w)
    = (out, None) →
  ∃ stone body,
    value (getMilestone gh owner repo (milestoneOf release) w) = Ok stone ∧
    Milestone_GetTitle stone = beforeHyphen release ∧
    Forall (λ e, isListing owner repo e ∨ isIssueListing owner repo stone e)
      (trace (changelog gh wr owner repo release markdownLinks skipLabels
                true w)) ∧
    out = wr
          ++ (if markdownLinks then
                str "# [" ++ release ++ str "](https://github.com/" ++ owner
                  ++ str "/" ++ repo ++ str "/releases/" ++ release
                  ++ str ")" ++ [10; 10]
              else release ++ [10; 10])
          ++ body ∧
    (45 ∈ release → release ≠ Milestone_GetTitle stone).
Proof.
  intros Hv. pose proof Hv as (stone & issues & Hl & _ & ->)%changelog_ok.
  exists stone, (writeChangelog [] owner repo release markdownLinks false stone
                   (bucketIssues skipLabels (sortIssues issues))).
  pose proof (getMilestone_title gh _ _ _ _ _ Hl) as Ht.
  rewrite milestoneOf_beforeHyphen in Ht.
  split; [done|]. split; [done|]. split; [by apply changelog_listings|].
  split.
  - by rewrite writeChangelog_app, writeChangelog_heading.
  - rewrite Ht. apply beforeHyphen_neq.
Qed.

Lemma changelog_heading_is_release_witness :
  ∃ stone body,
    value (getMilestone memClient (str "acme") (str "tool")
             (milestoneOf (str "v1.0.0-rc.1")) repoV100) = Ok stone ∧
    Milestone_GetTitle stone = beforeHyphen (str "v1.0.0-rc.1") ∧
    Forall (λ e, isListing (str "acme") (str "tool") e ∨
                 isIssueListing (str "acme") (str "tool") stone e)
      (trace (changelog memClient [] (str "acme") (str "tool")
                (str "v1.0.0-rc.1") true [] true repoV100)) ∧
    (value (changelog memClient [] (str "acme") (str "tool")
              (str "v1.0.0-rc.1") true [] true repoV100)).1 =
      []
      ++ (str "# [" ++ str "v1.0.0-rc.1" ++ str "](https://github.com/"
            ++ str "acme" ++ str "/" ++ str "tool" ++ str "/releases/"
            ++ str "v1.0.0-rc.1" ++ str ")" ++ [10; 10])
      ++ body ∧
    (45 ∈ str "v1.0.0-rc.1" →
     str "v1.0.0-rc.1" ≠ Milestone_GetTitle stone).
Proof.
  apply (changelog_heading_is_release memClient [] (str "acme") (str "tool")
           (str "v1.0.0-rc.1") true [] repoV100).
  vm_compute. reflexivity.
Defined.

(** The changelog of the candidate "v1.0.0-rc.1": the heading names the
    candidate, the issues are those of the milestone "v1.0.0". *)
Example changelog_candidate :
  value (changelogRun memClient [] (str "acme") (str "tool")
           (str "v1.0.0-rc.1") false [] repoV100) =
  (str "v1.0.0-rc.1

Bugfixes:

- #1: Crash on start

Enhancements:

- #2: Add flag

Other issues:

- #3: Typo

", None).
Proof. vm_compute. reflexivity. Qed.

(** The end-to-end scenario: the plain changelog of the milestone
    "v1.0.0". *)
Example changelog_v100 :
  value (changelogRun memClient [] (str "acme") (str "tool") (str "v1.0.0")
           false [] repoV100) =
  (str "v1.0.0

Bugfixes:

- #1: Crash on start

Enhancements:

- #2: Add flag

Other issues:

- #3: Typo

", None).
Proof. vm_compute. reflexivity. Qed.

Lemma createRelease_prerelease {W} (gh : Client W) owner repo release
    changelog w rel err :
  Called (RepositoriesCreateRelease owner repo rel) err
    ∈ trace (createRelease gh owner repo release changelog w) →
  rel = releaseOf release changelog.
Proof.
  rewrite createRelease_trace. cbv zeta. intros [Hin|Hin]%elem_of_app.
  - pose proof (getMilestone_trace gh owner repo (milestoneOf release) w) as Hl.
    rewrite Forall_forall in Hl. by apply Hl in Hin as (opts & e & [=]).
  - destruct (value _) as [stone|lerr]; [|by apply elem_of_nil in Hin].
    unfold releaseEvents in Hin. cbv zeta in Hin.
    apply elem_of_cons in Hin as [Heq|Hin]; [congruence|].
    destruct (Repositories_CreateRelease _ _ _ _ _).1;
      [by apply elem_of_nil in Hin|].
    case_bool_decide; [by apply elem_of_nil in Hin|].
    by apply list_elem_of_singleton in Hin.
Qed.

(** C4: the milestone title of a release name is its part before the first
    hyphen, the name itself when it has none; the prerelease flag of the
    release that is created is set exactly when the name differs from that
    title. "v1.2.0" gives the milestone "v1.2.0" and no prerelease,
    "v1.2.0-rc.1" the milestone "v1.2.0" and a prerelease. *)
Theorem release_name_split (release : gostring) :
  milestoneOf release = beforeHyphen release ∧
  (45 ∉ release → milestoneOf release = release) ∧
  (isPrerelease release = true ↔ release ≠ milestoneOf release) ∧
  (∀ W (gh : Client W) owner repo changelog w rel err,
     Called (RepositoriesCreateRelease owner repo rel) err
       ∈ trace (createRelease gh owner repo release changelog w) →
     (Release_Prerelease rel = true ↔ release ≠ beforeHyphen release)) ∧
  (∀ W (gh : Client W) wr owner repo markdownLinks skipLabels withSubject w out,
     value (changelog gh wr owner repo release markdownLinks skipLabels
              withSubject w) = (out, None) →
     ∃ stone, Milestone_GetTitle stone = beforeHyphen release ∧
       Forall (λ e, isListing owner repo e ∨ isIssueListing owner repo stone e)
         (trace (changelog gh wr owner repo release markdownLinks skipLabels
                   withSubject w))) ∧
  (milestoneOf (str "v1.2.0") = str "v1.2.0" ∧
   isPrerelease (str "v1.2.0") = false ∧
   milestoneOf (str "v1.2.0-rc.1") = str "v1.2.0" ∧
   isPrerelease (str "v1.2.0-rc.1") = true).
Proof.
  split; [apply milestoneOf_beforeHyphen|].
  split; [intros ?; by rewrite milestoneOf_beforeHyphen, beforeHyphen_id|].
  split; [unfold isPrerelease; by rewrite bool_decide_eq_true|].
  split; [|split; [|by vm_compute]].
  - intros W gh owner repo changelog w rel err ->%createRelease_prerelease.
    unfold releaseOf. cbn [Release_Prerelease].
    by rewrite bool_decide_eq_true, milestoneOf_beforeHyphen.
  - intros W gh wr owner repo md skipLabels ws w out Hv.
    pose proof Hv as (stone & issues & Hl & _ & _)%changelog_ok.
    exists stone. split; [|by eapply changelog_listings].
    rewrite <-milestoneOf_beforeHyphen. by eapply getMilestone_title.
Qed.

Lemma release_name_split_witness :
  milestoneOf (str "v1.2.0") = str "v1.2.0" ∧
  (Release_Prerelease (releaseOf (str "v1.0.0-rc.1") []) = true ↔
   str "v1.0.0-rc.1" ≠ beforeHyphen (str "v1.0.0-rc.1")).
Proof.
  split.
  - apply (proj1 (proj2 (release_name_split (str "v1.2.0")))).
    apply (bool_decide_unpack _). vm_compute. exact I.
  - apply (proj1 (proj2 (proj2 (proj2 (release_name_split (str "v1.0.0-rc.1")))))
             MemWorld memClient (str "acme") (str "tool") [] repoV100
             (releaseOf (str "v1.0.0-rc.1") []) None).
    apply list_elem_of_In. vm_compute. tauto.
Defined.

(** * Further properties of the program *)

(** ** The loops over pages *)

(** X1: a round of the lookup of [getMilestone] at a page: a listing that
    fails ends the lookup with its error; the first milestone of the page
    that bears the title ends it with that milestone; without one, the
    lookup ends with "not found" when the next page is not above this one,
    and goes on at the next page otherwise. *)
Theorem getMilestone_rounds {W} (gh : Client W) (owner repo name : gostring)
    (page : Z) (w : W) :
  - 2 ^ 63 ≤ page →
  let opts := {| MilestoneListOptions_State := str "all";
                 MilestoneListOptions_Page := page |} in
  let r := Issues_ListMilestones gh owner repo opts w in
  let loop := forLoop (getMilestonePage gh owner repo name) in
  let decided := λ x,
    value (loop page w) = inr x ∧ world (loop page w) = r.2 ∧
    trace (loop page w) =
      [Called (IssuesListMilestones owner repo opts) (resultErr r.1)] in
  match r.1 with
  | Err err => decided (Err err)
  | Ok (stones, resp) =>
      match List.find (λ stone, bool_decide (Milestone_GetTitle stone = name))
              stones with
      | Some stone => decided (Ok stone)
      | None =>
          if asInt (NextPage resp) <=? page then decided (Err (str "not found"))
          else
            value (loop page w) = value (loop (asInt (NextPage resp)) r.2) ∧
            world (loop page w) = world (loop (asInt (NextPage resp)) r.2) ∧
            trace (loop page w) =
              Called (IssuesListMilestones owner repo opts) None
              :: trace (loop (asInt (NextPage resp)) r.2)
      end
  end.
Proof. apply getMilestone_loop_rounds. Qed.

(** X2: [getMilestone] is the lookup from page 0, and the lookup always ends
    by one of its returns: with a milestone of the title asked for, or with
    an error. *)
Theorem getMilestone_from_first_page {W} (gh : Client W)
    (owner repo name : gostring) (w : W) :
  let loop := forLoop (getMilestonePage gh owner repo name) 0 w in
  let gm := getMilestone gh owner repo name w in
  ∃ x, value loop = inr x ∧ value gm = x ∧ world gm = world loop ∧
       trace gm = trace loop ∧
       match x with
       | Ok stone => Milestone_GetTitle stone = name
       | Err _ => True
       end.
Proof.
  intros loop gm.
  destruct (getMilestone_loop gh owner repo name w) as (x & Hx & Hv & Hw & Ht).
  exists x. repeat (split; [done|]).
  destruct x as [stone|err]; [|done].
  by apply (getMilestone_title gh owner repo name w).
Qed.

(** X3: a round of the loop of [changelog] that lists the issues: a listing
    that fails ends it with the error, wrapped; otherwise the issues of the
    page are appended to those read so far, and the loop ends with them
    when the next page is not above this one, and goes on at the next page
    otherwise. *)
Theorem listIssues_rounds {W} (gh : Client W) (owner repo : gostring)
    (stone : Milestone) (page : Z) (issues : list Issue) (w : W) :
  - 2 ^ 63 ≤ page →
  let opts := {| IssueListByRepoOptions_Milestone :=
                   Itoa (Milestone_GetNumber stone);
                 IssueListByRepoOptions_State := str "all";
                 IssueListByRepoOptions_Page := page |} in
  let r := Issues_ListByRepo gh owner repo opts w in
  let loop := forLoop (listIssuesPage gh owner repo stone) in
  let decided := λ x,
    value (loop (page, issues) w) = inr x ∧
    world (loop (page, issues) w) = r.2 ∧
    trace (loop (page, issues) w) =
      [Called (IssuesListByRepo owner repo opts) (resultErr r.1)] in
  match r.1 with
  | Err err => decided (Err (str "listing issues: " ++ err))
  | Ok (is_, resp) =>
      if asInt (NextPage resp) <=? page then decided (Ok (issues ++ is_))
      else
        let next := (asInt (NextPage resp), issues ++ is_) in
        value (loop (page, issues) w) = value (loop next r.2) ∧
        world (loop (page, issues) w) = world (loop next r.2) ∧
        trace (loop (page, issues) w) =
          Called (IssuesListByRepo owner repo opts) None
          :: trace (loop next r.2)
  end.
Proof. apply listIssues_loop_rounds. Qed.

Lemma getMilestone_rounds_witness :
  let loop := forLoop (getMilestonePage (memPagedClient 1) (str "acme")
                         (str "tool") (str "v1.1.0")) in
  value (loop 0 repoV110) = value (loop 2 repoV110) ∧
  world (loop 0 repoV110) = world (loop 2 repoV110) ∧
  trace (loop 0 repoV110) =
    Called (IssuesListMilestones (str "acme") (str "tool")
              {| MilestoneListOptions_State := str "all";
                 MilestoneListOptions_Page := 0 |}) None
    :: trace (loop 2 repoV110).
Proof.
  exact (getMilestone_rounds (memPagedClient 1) (str "acme") (str "tool")
           (str "v1.1.0") 0 repoV110 ltac:(lia)).
Defined.

Lemma listIssues_rounds_witness :
  let loop := forLoop (listIssuesPage (memPagedClient 2) (str "acme")
                         (str "tool") stoneV110) in
  let first :=
    [ mkIssue 12 "closed" "Wrong exit code" ["bug"] (Some stoneV110) false;
      mkIssue 15 "closed" "Add --json" ["enhancement"] (Some stoneV110)
        false ] in
  value (loop (0, []) repoV110) = value (loop (2, first) repoV110) ∧
  world (loop (0, []) repoV110) = world (loop (2, first) repoV110) ∧
  trace (loop (0, []) repoV110) =
    Called (IssuesListByRepo (str "acme") (str "tool")
              {| IssueListByRepoOptions_Milestone := str "2";
                 IssueListByRepoOptions_State := str "all";
                 IssueListByRepoOptions_Page := 0 |}) None
    :: trace (loop (2, first) repoV110).
Proof.
  exact (listIssues_rounds (memPagedClient 2) (str "acme") (str "tool")
           stoneV110 0 [] repoV110 ltac:(lia)).
Defined.

(** The lookup over two pages of one milestone each, and the changelog of
    "v1.1.0" read in pages of two issues. *)
Example getMilestone_two_pages :
  value (getMilestone (memPagedClient 1) (str "acme") (str "tool")
           (str "v1.1.0") repoV110) = Ok stoneV110 ∧
  length (trace (getMilestone (memPagedClient 1) (str "acme") (str "tool")
                   (str "v1.1.0") repoV110)) = 2%nat.
Proof. split; vm_compute; reflexivity. Qed.

Example changelog_two_pages :
  value (changelogRun (memPagedClient 2) [] (str "acme") (str "tool")
           (str "v1.1.0") false [] repoV110) =
  (str "v1.1.0

Small fixes.

Bugfixes:

- #12: Wrong exit code
- #13: Panic on empty input

Enhancements:

- #15: Add --json

", None).
Proof. vm_compute. reflexivity. Qed.

(** ** More on [getFixes] *)

Lemma getFixes_ref_refs commits commits' :
  (commits ≫= λ c, subjectRefs (subjectOf (Commit_GetMessage c))) =
  (commits' ≫= λ c, subjectRefs (subjectOf (Commit_GetMessage c))) →
  getFixes commits = getFixes commits'.
Proof.
  intros H. rewrite !getFixes_eq_ref. unfold getFixes_ref. by rewrite H.
Qed.

Lemma getFixes_same_subjects commits commits' :
  Forall2 (λ c c', subjectOf (Commit_GetMessage c) =
                   subjectOf (Commit_GetMessage c')) commits commits' →
  getFixes commits = getFixes commits'.
Proof.
  intros H. apply getFixes_ref_refs.
  induction H as [|c c' cs cs' Hc Hcs IH]; [done|].
  csimpl. by rewrite Hc, IH.
Qed.

(** X4: only the first line of a commit message counts: two lists of
    commits whose messages have the same first lines, commit by commit, give
    the same fixes. *)
Theorem getFixes_first_lines (commits commits' : list RepositoryCommit) :
  Forall2 (λ c c', subjectOf (Commit_GetMessage c) =
                   subjectOf (Commit_GetMessage c')) commits commits' →
  getFixes commits = getFixes commits'.
Proof. apply getFixes_same_subjects. Qed.

Lemma getFixes_first_lines_witness :
  getFixes [ {| Commit_GetMessage := str "lib: tidy up (fixes #12)

This also fixes #13 and reverts the change for (#14)" |} ] =
  getFixes [ {| Commit_GetMessage := str "lib: tidy up (fixes #12)" |} ].
Proof.
  apply getFixes_first_lines. repeat constructor.
Defined.

Lemma elem_of_getFixes_perm commits commits' n :
  commits ≡ₚ commits' → n ∈ getFixes commits → n ∈ getFixes commits'.
Proof.
  intros Hp. rewrite !elem_of_getFixes. intros (c & Hc & Hn).
  exists c. split; [|done]. by rewrite <-Hp.
Qed.

Lemma getFixes_perm commits commits' :
  commits ≡ₚ commits' → getFixes commits = getFixes commits'.
Proof.
  intros Hp. apply (StronglySorted_unique Z.le);
    [apply Sorted_getFixes|apply Sorted_getFixes|].
  apply NoDup_Permutation; [apply NoDup_getFixes|apply NoDup_getFixes|].
  intros n. split; apply elem_of_getFixes_perm; [done|by symmetry].
Qed.

(** X5: the order of the commits plays no role: a permutation of the
    commits gives the same fixes. *)
Theorem getFixes_permutation (commits commits' : list RepositoryCommit) :
  commits ≡ₚ commits' → getFixes commits = getFixes commits'.
Proof. apply getFixes_perm. Qed.

Lemma getFixes_permutation_witness :
  getFixes [ {| Commit_GetMessage := str "gui: new dialog (fixes #40)" |};
             {| Commit_GetMessage := str "lib: tidy up (#38)" |} ] =
  getFixes [ {| Commit_GetMessage := str "lib: tidy up (#38)" |};
             {| Commit_GetMessage := str "gui: new dialog (fixes #40)" |} ].
Proof. apply getFixes_permutation. apply Permutation_swap. Defined.

Lemma spanDigits_rest s ds r c r' :
  spanDigits s = (ds, r) → r = c :: r' → isDigit c = false.
Proof.
  revert ds; induction s as [|d s IH]; intros ds; simpl.
  - by intros [= <- <-].
  - destruct (isDigit d) eqn:Hd.
    + destruct (spanDigits s) as [ds1 r1]. intros [= <- <-]. by eapply IH.
    + intros [= <- <-] [= <- <-]. done.
Qed.

Lemma matchFixesAt_Some s ds :
  matchFixesAt s = Some ds →
  isDigits ds ∧
  ∃ post, s = str "fixes #" ++ ds ++ post ∧
          (∀ c post', post = c :: post' → isDigit c = false).
Proof.
  unfold matchFixesAt.
  destruct (stripPrefix _ s) as [r|] eqn:Hp; [|done].
  apply stripPrefix_Some in Hp as ->.
  destruct (spanDigits r) as [ds' post] eqn:Hs.
  case_bool_decide as Hne; [done|]. intros [= ->].
  pose proof Hs as [-> Hd]%spanDigits_spec.
  split; [done|]. exists post. split; [done|].
  intros c post'. by apply spanDigits_rest with (ds ++ post) ds.
Qed.

Lemma findAllFixesFrom_sound k s ds :
  ds ∈ findAllFixesFrom k s →
  isDigits ds ∧
  ∃ pre post, s = pre ++ str "fixes #" ++ ds ++ post ∧
              (∀ c post', post = c :: post' → isDigit c = false).
Proof.
  revert k; induction s as [|c s IH]; intros k; [by intros ?%elem_of_nil|].
  cbn [findAllFixesFrom]. destruct k as [|k].
  - destruct (matchFixesAt (c :: s)) as [ds'|] eqn:Hm.
    + intros [->|Hin]%elem_of_cons.
      * apply matchFixesAt_Some in Hm as (Hd & post & Hs & Hpost).
        split; [done|]. by exists [], post.
      * apply IH in Hin as (Hd & pre & post & -> & Hpost).
        split; [done|]. by exists (c :: pre), post.
    + intros Hin. apply IH in Hin as (Hd & pre & post & -> & Hpost).
      split; [done|]. by exists (c :: pre), post.
  - intros Hin. apply IH in Hin as (Hd & pre & post & -> & Hpost).
    split; [done|]. by exists (c :: pre), post.
Qed.

Lemma findPullReq_Some s ds :
  findPullReq s = Some ds →
  isDigits ds ∧ ∃ pre, s = pre ++ str "(#" ++ ds ++ str ")".
Proof.
  induction s as [|c s IH]; rewrite findPullReq_unfold.
  - destruct (matchPullReqAt []) as [ds'|] eqn:Hm; [|done].
    intros [= ->]. apply matchPullReqAt_Some in Hm as (Hs & Hd & Hne).
    split; [done|]. by exists [].
  - destruct (matchPullReqAt (c :: s)) as [ds'|] eqn:Hm.
    + intros [= ->]. apply matchPullReqAt_Some in Hm as (Hs & Hd & Hne).
      split; [done|]. by exists [].
    + intros (Hd & pre & ->)%IH. split; [done|]. by exists (c :: pre).
Qed.

(** X6: the trailing pattern finds a number exactly in the texts that end
    in "(#", a run of digits and ")"; the capture is that run. *)
Theorem findPullReq_iff (s ds : gostring) :
  findPullReq s = Some ds ↔
  isDigits ds ∧ ∃ pre, s = pre ++ str "(#" ++ ds ++ str ")".
Proof.
  split; [apply findPullReq_Some|].
  intros ([Hne Hd] & pre & ->). by apply findPullReq_suffix.
Qed.

(** X7: each match of the first pattern is a run of digits that follows
    "fixes #" in the text and is not followed by a further digit. *)
Theorem findAllFixes_sound (s ds : gostring) :
  ds ∈ findAllFixes s →
  isDigits ds ∧
  ∃ pre post, s = pre ++ str "fixes #" ++ ds ++ post ∧
              (∀ c post', post = c :: post' → isDigit c = false).
Proof. apply findAllFixesFrom_sound. Qed.

Lemma findAllFixes_sound_witness :
  isDigits (str "12") ∧
  ∃ pre post,
    str "lib: fixes #12, fixes #7" = pre ++ str "fixes #" ++ str "12" ++ post ∧
    (∀ c post', post = c :: post' → isDigit c = false).
Proof.
  apply (findAllFixes_sound (str "lib: fixes #12, fixes #7") (str "12")).
  apply list_elem_of_In. vm_compute. tauto.
Defined.

Lemma digitsValue_nonneg ds acc :
  forallb isDigit ds = true → 0 ≤ acc → 0 ≤ digitsValue acc ds.
Proof.
  revert acc; induction ds as [|d ds IH]; intros acc Hd Hacc; simpl in *; [done|].
  apply andb_prop in Hd as [Hd Hds]. apply IH; [done|].
  unfold isDigit in Hd. apply andb_prop in Hd as [?%Z.leb_le ?%Z.leb_le]. lia.
Qed.

Lemma Atoi_digits ds n :
  isDigits ds → Atoi ds = Some n →
  n = digitsValue 0 ds ∧ 0 ≤ n ≤ maxInt.
Proof.
  intros [Hne Hd]. destruct ds as [|d ds']; [done|].
  assert (Atoi (d :: ds') =
          if (minInt <=? digitsValue 0 (d :: ds')) &&
             (digitsValue 0 (d :: ds') <=? maxInt)
          then Some (digitsValue 0 (d :: ds')) else None) as ->.
  { unfold Atoi.
    assert (match d :: ds' with
            | 45 :: ds => (true, ds)
            | 43 :: ds => (false, ds)
            | _ => (false, d :: ds')
            end = (false, d :: ds')) as ->.
    { simpl in Hd. apply andb_prop in Hd as [Hd _]. unfold isDigit in Hd.
      destruct d as [|p|p]; try done.
      do 6 (destruct p as [p|p|]; try done). }
    rewrite bool_decide_false by done. by rewrite Hd. }
  destruct (_ && _) eqn:Hr; [|done]. intros [= <-].
  apply andb_prop in Hr as [_ Hmax%Z.leb_le].
  pose proof (digitsValue_nonneg (d :: ds') 0 Hd ltac:(lia)) as Hmin.
  split; [reflexivity|]. split; [exact Hmin|exact Hmax].
Qed.

Lemma subjectRefs_captures subject n :
  n ∈ subjectRefs subject →
  ∃ ds, isDigits ds ∧ Atoi ds = Some n ∧
    ((∃ pre post, subject = pre ++ str "fixes #" ++ ds ++ post) ∨
     (∃ pre, subject = pre ++ str "(#" ++ ds ++ str ")")).
Proof.
  unfold subjectRefs. intros (ds & Hin & Hn)%list_elem_of_omap.
  exists ds. apply elem_of_app in Hin as [Hin|Hin].
  - apply findAllFixesFrom_sound in Hin as (Hd & pre & post & -> & _).
    split; [done|]. split; [done|]. left. by exists pre, post.
  - destruct (findPullReq subject) as [ds'|] eqn:Hp; [|by apply elem_of_nil in Hin].
    apply list_elem_of_singleton in Hin as ->.
    apply findPullReq_Some in Hp as (Hd & pre & ->).
    split; [done|]. split; [done|]. right. by exists pre.
Qed.

(** X8: every fix is a number from 0 to the largest [int]: a reference
    whose digits give a larger number is left out. *)
Theorem getFixes_in_range (commits : list RepositoryCommit) (n : Z) :
  n ∈ getFixes commits → 0 ≤ n ≤ 2 ^ 63 - 1.
Proof.
  intros (c & _ & Hn)%elem_of_getFixes.
  apply subjectRefs_captures in Hn as (ds & Hd & Hn & _).
  by apply (Atoi_digits ds n) in Hn as [_ ?].
Qed.

Lemma getFixes_in_range_witness : 0 ≤ 7 ≤ 2 ^ 63 - 1.
Proof.
  apply (getFixes_in_range
           [ {| Commit_GetMessage :=
                  str "fixes #7, fixes #99999999999999999999" |} ] 7).
  apply list_elem_of_In. vm_compute. tauto.
Defined.

(** A reference too large for an [int] is dropped, the others are kept. *)
Example getFixes_overflow :
  getFixes [ {| Commit_GetMessage :=
                  str "fixes #7, fixes #99999999999999999999 (#9223372036854775807)" |} ]
  = [7; 9223372036854775807].
Proof. vm_compute. reflexivity. Qed.

(** X9: a list of commits none of whose first lines holds a "#" has no
    fixes. *)
Theorem getFixes_needs_hash (commits : list RepositoryCommit) :
  (∀ c, c ∈ commits → 35 ∉ subjectOf (Commit_GetMessage c)) →
  getFixes commits = [].
Proof.
  intros Hno. destruct (getFixes commits) as [|n l] eqn:E; [done|].
  assert (n ∈ getFixes commits) as Hn by (rewrite E; by left).
  apply elem_of_getFixes in Hn as (c & Hc & Hn).
  apply subjectRefs_captures in Hn as (ds & _ & _ & Hs).
  destruct (Hno c Hc).
  destruct Hs as [(pre & post & ->)|(pre & ->)];
    apply elem_of_app; right.
  - change (str "fixes #") with (str "fixes " ++ [35]).
    rewrite <-app_assoc. apply elem_of_app; right. by left.
  - change (str "(#") with [40; 35]. right. by left.
Qed.

Lemma getFixes_needs_hash_witness :
  getFixes [ {| Commit_GetMessage := str "lib: tidy up, fixes 12

Later lines may say fixes #12." |} ] = [].
Proof.
  apply getFixes_needs_hash.
  intros c ->%list_elem_of_singleton. apply (bool_decide_unpack _).
  vm_compute. exact I.
Defined.

(** ** More on release names *)

(** X10: a release name is its milestone title followed by nothing or by a
    hyphen and more; the title holds no hyphen and is its own title, so a
    release named as its milestone is final; and a release is a prerelease
    exactly when its name holds a hyphen. *)
Theorem release_name_parts (release : gostring) :
  (∃ rest, release = milestoneOf release ++ rest ∧
           (rest = [] ∨ head rest = Some 45)) ∧
  (45 ∉ milestoneOf release) ∧
  milestoneOf (milestoneOf release) = milestoneOf release ∧
  isPrerelease (milestoneOf release) = false ∧
  (isPrerelease release = true ↔ 45 ∈ release).
Proof.
  rewrite !milestoneOf_beforeHyphen.
  assert (∃ rest, release = beforeHyphen release ++ rest ∧
                  (rest = [] ∨ head rest = Some 45)) as Hparts.
  { induction release as [|c r IH]; simpl; [exists []; auto|].
    destruct (Z.eqb_spec c 45) as [->|].
    - exists (45 :: r). auto.
    - destruct IH as (rest & Hr & Hrest). exists rest. split; [|done].
      simpl. by rewrite <-Hr. }
  split; [done|]. split; [apply beforeHyphen_no_hyphen|].
  split; [apply beforeHyphen_id, beforeHyphen_no_hyphen|].
  split.
  - unfold isPrerelease. rewrite milestoneOf_beforeHyphen.
    apply bool_decide_eq_false. intros Hne. apply Hne. symmetry.
    apply beforeHyphen_id, beforeHyphen_no_hyphen.
  - unfold isPrerelease.
    rewrite bool_decide_eq_true, milestoneOf_beforeHyphen. split.
    + intros Hne. destruct (decide (45 ∈ release)) as [|Hno]; [done|].
      destruct Hne. symmetry. by apply beforeHyphen_id.
    + apply beforeHyphen_neq.
Qed.

(** ** More on the word wrap *)

Lemma fieldsFrom_app_space cur a c t :
  IsSpace c = true →
  fieldsFrom cur (a ++ c :: t) = fieldsFrom cur a ++ fieldsFrom [] t.
Proof.
  intros Hc. revert cur; induction a as [|x a IH]; intros cur; simpl.
  - rewrite Hc. by destruct cur.
  - destruct (IsSpace x); [|apply IH]. destruct cur; by rewrite IH.
Qed.

Lemma Fields_app_space a c t :
  IsSpace c = true → Fields (a ++ c :: t) = Fields a ++ Fields t.
Proof. apply fieldsFrom_app_space. Qed.

Lemma Fields_skip_space sp t :
  forallb IsSpace sp = true → Fields (sp ++ t) = Fields t.
Proof.
  unfold Fields. induction sp as [|c sp IH]; [done|]. simpl.
  intros [-> ?]%andb_prop. by apply IH.
Qed.

Lemma fieldsFrom_word cur x :
  Forall (λ c, IsSpace c = false) x → cur ≠ [] ∨ x ≠ [] →
  fieldsFrom cur x = [reverse cur ++ x].
Proof.
  intros Hx. revert cur; induction Hx as [|c x Hc Hx IH]; intros cur Hne; simpl.
  - destruct Hne as [Hne|?]; [|done]. destruct cur; [done|].
    by rewrite app_nil_r.
  - rewrite Hc, IH by (by left). by rewrite reverse_cons, <-app_assoc.
Qed.

Lemma Fields_word word : isWord word → Fields word = [word].
Proof. intros [Hne Hw]. unfold Fields. rewrite fieldsFrom_word; auto. Qed.

(** A separator, some whitespace and not none, then a word. *)
Lemma Fields_snoc_word b sep word :
  sep ≠ [] → forallb IsSpace sep = true → isWord word →
  Fields (b ++ sep ++ word) = Fields b ++ [word].
Proof.
  intros Hne Hsep Hw. destruct sep as [|c sep]; [done|]. simpl in Hsep.
  apply andb_prop in Hsep as [Hc Hsep]. simpl.
  rewrite Fields_app_space by done. rewrite Fields_skip_space by done.
  by rewrite (Fields_word word).
Qed.

Lemma pref1Of_space words : forallb IsSpace (pref1Of words) = true.
Proof. by destruct (pref1Of_cases words) as [-> | ->]. Qed.

Lemma wrapWord_fields w pref1 st word :
  forallb IsSpace pref1 = true → isWord word → wrapState st →
  Fields (wrapWord w pref1 st word).1 = Fields st.1 ++ [word] ∧
  wrapState (wrapWord w pref1 st word).
Proof.
  intros Hp Hw Hst. destruct st as [b l]. unfold wrapWord, wrapState in *.
  simpl in Hst. pose proof (len_pos word (proj1 Hw)) as Hlen.
  pose proof (len_nonneg pref1) as Hpl.
  destruct Hst as [[-> ->]|Hl].
  - change (0 <? 0) with false. cbn iota.
    destruct (w <? 0 + len word); cbn [fst snd].
    + split; [|right; lia].
      transitivity (Fields ([] ++ ([10] ++ pref1) ++ word));
        [f_equal; rewrite <-!app_assoc; reflexivity|].
      apply (Fields_snoc_word [] ([10] ++ pref1) word); [done| |done].
      simpl. exact Hp.
    + split; [|right; lia]. rewrite app_nil_l. by apply Fields_word.
  - destruct (Z.ltb_spec 0 l) as [_|?]; [|lia].
    destruct (w <? l + 1 + len word); cbn [fst snd].
    + split; [|right; lia].
      transitivity (Fields (b ++ ([32; 10] ++ pref1) ++ word));
        [f_equal; rewrite <-!app_assoc; reflexivity|].
      apply Fields_snoc_word; [done| |done]. simpl. exact Hp.
    + split; [|right; lia]. rewrite <-app_assoc.
      by apply Fields_snoc_word.
Qed.

Lemma foldl_wrapWord_fields w pref1 words st :
  forallb IsSpace pref1 = true → Forall isWord words → wrapState st →
  Fields (foldl (wrapWord w pref1) st words).1 = Fields st.1 ++ words.
Proof.
  intros Hp Hws. revert st.
  induction Hws as [|word words Hw Hws IH]; intros st Hst; cbn [foldl].
  - by rewrite app_nil_r.
  - destruct (wrapWord_fields w pref1 st word Hp Hw Hst) as [Hf Hst'].
    rewrite IH by done. rewrite Hf. by rewrite <-app_assoc.
Qed.

Lemma wrapParagraph_keeps_words_aux s w :
  Fields (wrapParagraph s w) = Fields s.
Proof.
  unfold wrapParagraph. case_bool_decide as Hl.
  - apply length_zero_iff_nil in Hl. by rewrite Hl.
  - rewrite foldl_wrapWord_fields;
      [done|apply pref1Of_space|apply Fields_words|by left].
Qed.

(** X11: wrapping keeps the words: the words of the wrapped paragraph are
    the words of the paragraph, in their order, whatever the width. *)
Theorem wrapParagraph_keeps_words (s : gostring) (w : Z) :
  Fields (wrapParagraph s w) = Fields s.
Proof. apply wrapParagraph_keeps_words_aux. Qed.

Lemma foldl_wrapWord_prefix w pref1 words st :
  ∃ t, (foldl (wrapWord w pref1) st words).1 = st.1 ++ t.
Proof.
  revert st; induction words as [|word words IH]; intros st; cbn [foldl].
  - exists []. by rewrite app_nil_r.
  - destruct (IH (wrapWord w pref1 st word)) as [t ->].
    destruct st as [b l]. unfold wrapWord.
    destruct (0 <? l); destruct (w <? _); cbn [fst];
      rewrite <-?app_assoc; by eexists.
Qed.

(** X12: a paragraph whose first word is longer than the width starts with
    an empty line: the wrapped text is a newline, the indent, the word and
    the rest. *)
Theorem wrapParagraph_long_first_word (s : gostring) (w : Z)
    (word : gostring) (rest : list gostring) :
  Fields s = word :: rest → w < len word →
  ∃ t, wrapParagraph s w = [10] ++ pref1Of (Fields s) ++ word ++ t.
Proof.
  intros Hs Hw. unfold wrapParagraph. rewrite Hs. cbn [length foldl].
  rewrite bool_decide_false by done.
  destruct (foldl_wrapWord_prefix w (pref1Of (word :: rest)) rest
              (wrapWord w (pref1Of (word :: rest)) ([], 0) word)) as [t ->].
  exists t. unfold wrapWord. change (0 <? 0) with false. cbn iota.
  destruct (Z.ltb_spec w (0 + len word)); [|lia]. cbn [fst].
  by rewrite <-!app_assoc.
Qed.

Lemma wrapParagraph_long_first_word_witness :
  ∃ t, wrapParagraph (str "https://example.org/a/long/address see there") 20
       = [10] ++ pref1Of (Fields (str "https://example.org/a/long/address see there"))
         ++ str "https://example.org/a/long/address" ++ t.
Proof.
  apply (wrapParagraph_long_first_word
           (str "https://example.org/a/long/address see there") 20
           (str "https://example.org/a/long/address")
           [str "see"; str "there"]).
  - reflexivity.
  - reflexivity.
Defined.

Lemma Join_snoc pre x sep :
  pre ≠ [] → Join (pre ++ [x]) sep = Join pre sep ++ sep ++ x.
Proof.
  induction pre as [|e pre IH]; [done|]. intros _.
  destruct pre as [|e' pre]; [done|].
  change (Join ((e :: e' :: pre) ++ [x]) sep)
    with (e ++ sep ++ Join ((e' :: pre) ++ [x]) sep).
  rewrite IH by done.
  change (Join (e :: e' :: pre) sep) with (e ++ sep ++ Join (e' :: pre) sep).
  by rewrite <-!app_assoc.
Qed.

Lemma Join_len_mono pre ws sep :
  len (Join pre sep) ≤ len (Join (pre ++ ws) sep).
Proof.
  induction ws as [|x ws IH] using rev_ind; [by rewrite app_nil_r|].
  destruct (decide (pre ++ ws = [])) as [Hnil|Hne].
  - apply app_eq_nil in Hnil as [-> ->]. simpl. apply len_nonneg.
  - rewrite app_assoc, Join_snoc by done. rewrite !len_app.
    pose proof (len_nonneg sep). pose proof (len_nonneg x). lia.
Qed.

Lemma foldl_wrapWord_newline w pref1 words st :
  10 ∈ st.1 → 10 ∈ (foldl (wrapWord w pref1) st words).1.
Proof.
  intros Hin. destruct (foldl_wrapWord_prefix w pref1 words st) as [t ->].
  apply elem_of_app. by left.
Qed.

Lemma wrapWord_next w pref1 b l word :
  0 < l →
  wrapWord w pref1 (b, l) word =
  if w <? l + 1 + len word
  then ((((b ++ [32]) ++ [10]) ++ pref1) ++ word, 0 + len pref1 + len word)
  else ((b ++ [32]) ++ word, l + 1 + len word).
Proof.
  intros Hl. unfold wrapWord.
  destruct (Z.ltb_spec 0 l) as [_|?]; [|lia]. by destruct (w <? _).
Qed.

Lemma wrapWord_first w pref1 word :
  wrapWord w pref1 ([], 0) word =
  if w <? len word
  then (([10] ++ pref1) ++ word, 0 + len pref1 + len word)
  else (word, len word).
Proof.
  unfold wrapWord. change (0 <? 0) with false. cbn iota.
  rewrite Z.add_0_l. by destruct (w <? _).
Qed.

Lemma foldl_wrapWord_line w pref1 words pre :
  0 < len (Join pre [32]) → len (Join pre [32]) ≤ w →
  (len (Join (pre ++ words) [32]) ≤ w ∧
   (foldl (wrapWord w pref1) (Join pre [32], len (Join pre [32])) words).1
   = Join (pre ++ words) [32]) ∨
  (w < len (Join (pre ++ words) [32]) ∧
   10 ∈ (foldl (wrapWord w pref1) (Join pre [32], len (Join pre [32]))
           words).1).
Proof.
  revert pre; induction words as [|word words IH]; intros pre Hpos Hfit.
  - left. by rewrite app_nil_r.
  - assert (pre ≠ []) as Hpre by (by intros ->).
    pose proof (Join_snoc pre word [32] Hpre) as Hsnoc.
    pose proof (Join_len_mono (pre ++ [word]) words [32]) as Hmono.
    rewrite <-app_assoc in Hmono. cbn [app] in Hmono.
    assert (len (Join (pre ++ [word]) [32])
            = len (Join pre [32]) + 1 + len word) as Hlen.
    { rewrite Hsnoc, !len_app. change (len [32]) with 1. lia. }
    cbn [foldl]. rewrite wrapWord_next by done.
    destruct (Z.ltb_spec w (len (Join pre [32]) + 1 + len word)) as [Hw|Hw].
    + right. split; [lia|]. apply foldl_wrapWord_newline. cbn [fst].
      rewrite !elem_of_app. left; left; right. by apply elem_of_cons; left.
    + pose proof (len_nonneg word).
      replace ((Join pre [32] ++ [32]) ++ word, len (Join pre [32]) + 1 + len word)
        with (Join (pre ++ [word]) [32], len (Join (pre ++ [word]) [32]))
        by (rewrite Hlen, Hsnoc, <-app_assoc; reflexivity).
      specialize (IH (pre ++ [word])). rewrite <-app_assoc in IH.
      apply IH; lia.
Qed.

(** X13: a paragraph stays on one line exactly when its words, joined by
    single spaces, fit the width; the line is then these words joined, and
    otherwise (the width not negative) the text has a line break. *)
Theorem wrapParagraph_one_line (s : gostring) (w : Z) :
  (len (Join (Fields s) [32]) ≤ w →
   wrapParagraph s w = Join (Fields s) [32]) ∧
  (0 ≤ w → w < len (Join (Fields s) [32]) → 10 ∈ wrapParagraph s w).
Proof.
  unfold wrapParagraph. pose proof (Fields_words s) as Hws.
  destruct (Fields s) as [|word words]; [simpl; split; [done|lia]|].
  rewrite bool_decide_false by done. cbn [foldl].
  apply Forall_cons in Hws as [[Hne _] _].
  pose proof (len_pos word Hne) as Hpos.
  pose proof (Join_len_mono [word] words [32]) as Hmono.
  cbn [app] in Hmono. change (Join [word] [32]) with word in Hmono.
  rewrite wrapWord_first.
  destruct (Z.ltb_spec w (len word)) as [Hw|Hw].
  - split; [lia|]. intros _ _. apply foldl_wrapWord_newline. cbn [fst].
    rewrite !elem_of_app. left; left. by apply elem_of_cons; left.
  - destruct (foldl_wrapWord_line w (pref1Of (word :: words)) words [word])
      as [[Hfit Heq]|[Hlong Hin]]; [done|simpl; lia| |].
    + split; [done|]. cbn [app] in Hfit. lia.
    + split; [|done]. cbn [app] in Hlong. lia.
Qed.

Lemma Join_Split s sep : Join (Split s sep) [sep] = s.
Proof.
  induction s as [|c s IH]; [done|]. simpl.
  destruct (Split s sep) as [|l ls] eqn:E; [by destruct (Split_nonempty s sep)|].
  destruct (Z.eqb_spec c sep) as [->|_].
  - change (Join ([] :: l :: ls) [sep]) with (sep :: Join (l :: ls) [sep]).
    by rewrite IH.
  - rewrite <-IH. by destruct ls.
Qed.

Lemma Fields_Join lines : Fields (Join lines [10]) = lines ≫= Fields.
Proof.
  induction lines as [|e lines IH]; [done|].
  destruct lines as [|e' lines].
  - csimpl. by rewrite app_nil_r.
  - change (Join (e :: e' :: lines) [10])
      with (e ++ 10 :: Join (e' :: lines) [10]).
    rewrite Fields_app_space by done. by rewrite IH.
Qed.

Lemma Fields_lines s : Fields s = linesOf s ≫= Fields.
Proof. unfold linesOf. by rewrite <-Fields_Join, Join_Split. Qed.

(** X14: wrapping changes white space only: the words of the wrapped text
    are the words of the text, in their order, whatever the width. *)
Theorem wrap_keeps_words (s : gostring) (w : Z) :
  Fields (wrap s w) = Fields s.
Proof.
  rewrite (Fields_lines (wrap s w)), linesOf_wrap, (Fields_lines s).
  induction (linesOf s) as [|para paras IH]; [done|].
  csimpl. rewrite bind_app, IH. f_equal.
  by rewrite <-Fields_lines, wrapParagraph_keeps_words_aux.
Qed.

(** ** The milestone synchronisation as a whole *)

Section Synchronisation.

Context {W : Type} (gh : Client W).

Lemma fetched_app t1 t2 : fetched (t1 ++ t2) = fetched t1 ++ fetched t2.
Proof. apply omap_app. Qed.

Lemma edited_app t1 t2 : edited (t1 ++ t2) = edited t1 ++ edited t2.
Proof. apply omap_app. Qed.

Lemma listing_quiet owner repo t :
  Forall (isListing owner repo) t →
  fetched t = [] ∧ edited t = [] ∧ count isCreateMilestone t = 0%nat ∧
  ∀ c, mutating c = true ∨ (∃ o r s h, c = RepositoriesCompareCommits o r s h) →
       ∀ err, Called c err ∉ t.
Proof.
  induction 1 as [|e t (opts & err & ->) Ht (IH1 & IH2 & IH3 & IH4)].
  - repeat split; try done. intros c _ err. apply not_elem_of_nil.
  - repeat split; try done. intros c Hc err' [Heq|Hin]%elem_of_cons.
    + injection Heq as -> _. destruct Hc as [?|(? & ? & ? & ? & ?)]; done.
    + by apply (IH4 c Hc err').
Qed.

Lemma markIssue_calls owner repo stone force dryRun fx w :
  let t := trace (markIssue gh owner repo stone force dryRun fx w) in
  fetched t = [fx] ∧ (length (edited t) ≤ 1)%nat ∧
  (dryRun = true → edited t = []) ∧ count isCreateMilestone t = 0%nat ∧
  ∀ o r s h err, Called (RepositoriesCompareCommits o r s h) err ∉ t.
Proof.
  cbv zeta. rewrite markIssue_trace.
  destruct (decisionOf force stone _) as [e| | | |issue] eqn:Hd; cbn.
  1-4: repeat split; try done; try lia; intros o r s h err Hin;
       apply list_elem_of_In in Hin; cbn in Hin; intuition discriminate.
  destruct dryRun; cbn.
  - repeat split; try done; try lia. intros o r s h err Hin.
    apply list_elem_of_In in Hin; cbn in Hin; intuition discriminate.
  - unfold editEvents. cbv zeta.
    destruct (Issues_Edit _ _ _ _ _ _).1; cbn;
      (repeat split; try done; try lia; intros o r s h err Hin;
       apply list_elem_of_In in Hin; cbn in Hin; intuition discriminate).
Qed.

Lemma forRange_markIssue_calls owner repo stone force dryRun fixes w :
  let t := trace (forRange fixes (markIssue gh owner repo stone force dryRun) w) in
  fetched t = fixes ∧ (length (edited t) ≤ length fixes)%nat ∧
  (dryRun = true → edited t = []) ∧ count isCreateMilestone t = 0%nat ∧
  ∀ o r s h err, Called (RepositoriesCompareCommits o r s h) err ∉ t.
Proof.
  cbv zeta. revert w; induction fixes as [|fx fixes IH]; intros w.
  - repeat split; try done. intros o r s h err. apply not_elem_of_nil.
  - cbn [forRange]. rewrite trace_bind.
    destruct (markIssue_calls owner repo stone force dryRun fx w)
      as (H1 & H2 & H3 & H4 & H5).
    destruct (IH (world (markIssue gh owner repo stone force dryRun fx w)))
      as (I1 & I2 & I3 & I4 & I5).
    rewrite fetched_app, edited_app, count_app, length_app, H1, I1, H4, I4.
    repeat split; try done.
    + cbn [length]. lia.
    + intros Hdry. by rewrite H3, I3.
    + intros o r s h err [Hin|Hin]%elem_of_app; [by eapply H5|by eapply I5].
Qed.

Lemma syncIssues_value owner repo since to stone force dryRun w :
  value (syncIssues gh owner repo since to stone force dryRun w) =
  match (Repositories_CompareCommits gh owner repo since to w).1 with
  | Ok _ => None
  | Err err => Some (str "listing commits: " ++ err)
  end.
Proof.
  unfold syncIssues, listCommits. run_prog.
  by destruct (Repositories_CompareCommits gh owner repo since to w).1.
Qed.

Lemma syncIssues_trace owner repo since to stone force dryRun w :
  let commits := Repositories_CompareCommits gh owner repo since to w in
  trace (syncIssues gh owner repo since to stone force dryRun w) =
  Called (RepositoriesCompareCommits owner repo since to) (resultErr commits.1)
  :: match commits.1 with
     | Ok cs =>
         trace (forRange (getFixes cs)
                  (markIssue gh owner repo stone force dryRun) commits.2)
     | Err _ => []
     end.
Proof.
  cbv zeta. unfold syncIssues, listCommits. run_prog.
  destruct (Repositories_CompareCommits gh owner repo since to w).1; [|done].
  run_prog. by rewrite app_nil_r.
Qed.

(** [createMilestone] is the lookup, the creation of the milestone when the
    lookup has failed and the run is not dry, and the synchronisation of the
    issues. *)
Lemma createMilestone_trace owner repo since to milestone force dryRun w :
  let lookup := getMilestone gh owner repo milestone w in
  let created := Issues_CreateMilestone gh owner repo
                   (milestoneTitled milestone) (world lookup) in
  let create := Called (IssuesCreateMilestone owner repo
                          (milestoneTitled milestone)) in
  trace (createMilestone gh owner repo since to milestone force dryRun w) =
  trace lookup ++
  match value lookup with
  | Ok stone =>
      trace (syncIssues gh owner repo since to (Some stone) force dryRun
               (world lookup))
  | Err _ =>
      creatingLog milestone ::
      if dryRun then
        trace (syncIssues gh owner repo since to None force dryRun
                 (world lookup))
      else
        match created.1 with
        | Err err => [create (Some err)]
        | Ok stone =>
            create None ::
            trace (syncIssues gh owner repo since to (Some stone) force
                     dryRun created.2)
        end
  end.
Proof.
  intros lookup created create. unfold createMilestone.
  rewrite trace_bind. fold lookup. f_equal.
  destruct (value lookup) as [stone|err].
  - run_prog. reflexivity.
  - destruct dryRun.
    + run_prog. reflexivity.
    + run_prog. fold created.
      destruct created.1; run_prog; reflexivity.
Qed.

Lemma createMilestone_value owner repo since to milestone force dryRun w :
  let lookup := getMilestone gh owner repo milestone w in
  let created := Issues_CreateMilestone gh owner repo
                   (milestoneTitled milestone) (world lookup) in
  value (createMilestone gh owner repo since to milestone force dryRun w) =
  match value lookup with
  | Ok stone =>
      value (syncIssues gh owner repo since to (Some stone) force dryRun
               (world lookup))
  | Err _ =>
      if dryRun then
        value (syncIssues gh owner repo since to None force dryRun
                 (world lookup))
      else
        match created.1 with
        | Err err => Some err
        | Ok stone =>
            value (syncIssues gh owner repo since to (Some stone) force
                     dryRun created.2)
        end
  end.
Proof.
  intros lookup created. unfold createMilestone.
  rewrite value_bind. fold lookup.
  destruct (value lookup) as [stone|err].
  - run_prog. reflexivity.
  - destruct dryRun.
    + run_prog. reflexivity.
    + run_prog. fold created.
      destruct created.1; run_prog; reflexivity.
Qed.

Lemma syncIssues_calls owner repo since to stone force dryRun w :
  let s := syncIssues gh owner repo since to stone force dryRun w in
  let commits := Repositories_CompareCommits gh owner repo since to w in
  count isCreateMilestone (trace s) = 0%nat ∧
  match commits.1 with
  | Ok cs =>
      value s = None ∧ fetched (trace s) = getFixes cs ∧
      (length (edited (trace s)) ≤ length (getFixes cs))%nat ∧
      (dryRun = true → edited (trace s) = []) ∧
      Called (RepositoriesCompareCommits owner repo since to) None ∈ trace s
  | Err cause =>
      value s = Some (str "listing commits: " ++ cause) ∧
      trace s = [Called (RepositoriesCompareCommits owner repo since to)
                   (Some cause)]
  end.
Proof.
  cbv zeta. rewrite syncIssues_value, syncIssues_trace. cbv zeta.
  destruct (Repositories_CompareCommits gh owner repo since to w).1
    as [cs|cause]; [|done].
  destruct (forRange_markIssue_calls owner repo stone force dryRun
              (getFixes cs)
              (Repositories_CompareCommits gh owner repo since to w).2)
    as (H1 & H2 & H3 & H4 & _).
  cbn [resultErr]. repeat split; try done.
  apply elem_of_cons. by left.
Qed.

End Synchronisation.

(** X15: the milestone synchronisation fails only when the milestone cannot
    be created or the commits cannot be listed; it has then fetched and
    edited no issue, the failed call is its last event, and the error is the
    service's own for the creation, prefixed for the listing. Once the
    commits are listed it succeeds, whatever happens to the issues. *)
Theorem createMilestone_failure {W} (gh : Client W)
    (owner repo since to milestone : gostring) (force dryRun : bool) (w : W) :
  let run := createMilestone gh owner repo since to milestone force dryRun w in
  (∀ err, value run = Some err →
     fetched (trace run) = [] ∧ edited (trace run) = [] ∧
     ((dryRun = false ∧
       last (trace run) =
         Some (Called (IssuesCreateMilestone owner repo
                         (milestoneTitled milestone)) (Some err))) ∨
      (∃ cause, err = str "listing commits: " ++ cause ∧
         last (trace run) =
           Some (Called (RepositoriesCompareCommits owner repo since to)
                   (Some cause))))) ∧
  (value run = None ↔
   Called (RepositoriesCompareCommits owner repo since to) None ∈ trace run).
Proof.
  intros run. subst run.
  pose proof (createMilestone_trace gh owner repo since to milestone force
                dryRun w) as Ht.
  pose proof (createMilestone_value gh owner repo since to milestone force
                dryRun w) as Hv.
  destruct (listing_quiet owner repo _
              (getMilestone_trace gh owner repo milestone w))
    as (L1 & L2 & _ & L4).
  cbv zeta in Ht, Hv.
  set (lookup := getMilestone gh owner repo milestone w) in *.
  clearbody lookup.
  generalize dependent (createMilestone gh owner repo since to milestone
                          force dryRun w).
  intros run Ht Hv.
  assert (∀ err, Called (RepositoriesCompareCommits owner repo since to) err
                 ∉ trace lookup) as Lc.
  { intros err. apply L4. right. by eexists _, _, _, _. }
  assert (∀ stone w',
    let s := syncIssues gh owner repo since to stone force dryRun w' in
    ∀ pre, fetched pre = [] → edited pre = [] →
      (∀ err, Called (RepositoriesCompareCommits owner repo since to) err
              ∉ pre) →
      (∀ err, value s = Some err →
         fetched (pre ++ trace s) = [] ∧ edited (pre ++ trace s) = [] ∧
         ∃ cause, err = str "listing commits: " ++ cause ∧
           last (pre ++ trace s) =
             Some (Called (RepositoriesCompareCommits owner repo since to)
                     (Some cause))) ∧
      (value s = None ↔
       Called (RepositoriesCompareCommits owner repo since to) None
         ∈ pre ++ trace s)) as Hsync.
  { intros stone w' s pre P1 P2 P3. subst s.
    destruct (syncIssues_calls gh owner repo since to stone force dryRun w')
      as [_ Hs]. cbv zeta in Hs.
    destruct (Repositories_CompareCommits gh owner repo since to w').1
      as [cs|cause].
    - destruct Hs as (Hval & _ & _ & _ & Hin). rewrite Hval.
      split; [done|]. split; [|done]. intros _. apply elem_of_app. by right.
    - destruct Hs as [Hval Htr]. rewrite Hval, Htr.
      split.
      + intros err [= <-]. rewrite fetched_app, edited_app, P1, P2.
        split; [done|]. split; [done|]. exists cause. split; [done|].
        apply last_snoc.
      + split; [done|]. intros [Hin|Hin]%elem_of_app; [by apply P3 in Hin|].
        by apply list_elem_of_singleton in Hin. }
  destruct (value lookup) as [stone|lerr].
  - rewrite Ht, Hv.
    destruct (Hsync (Some stone) (world lookup) (trace lookup) L1 L2 Lc)
      as [Hfail Hok].
    split; [|done]. intros err Herr.
    destruct (Hfail err Herr) as (? & ? & ?). auto.
  - destruct dryRun.
    + rewrite Ht, Hv.
      destruct (Hsync None (world lookup)
                  (trace lookup ++ [creatingLog milestone])) as [Hfail Hok].
      { by rewrite fetched_app, L1. }
      { by rewrite edited_app, L2. }
      { intros err [Hin|Hin]%elem_of_app; [by apply Lc in Hin|].
        by apply list_elem_of_singleton in Hin. }
      rewrite <-app_assoc in Hfail, Hok. cbn [app] in Hfail, Hok.
      split; [|done]. intros err Herr.
      destruct (Hfail err Herr) as (? & ? & ?). auto.
    + destruct (Issues_CreateMilestone gh owner repo
                  (milestoneTitled milestone) (world lookup)).1
        as [stone|cerr].
      * rewrite Ht, Hv.
        destruct (Hsync (Some stone)
                    (Issues_CreateMilestone gh owner repo
                       (milestoneTitled milestone) (world lookup)).2
                    (trace lookup ++
                     [creatingLog milestone;
                      Called (IssuesCreateMilestone owner repo
                                (milestoneTitled milestone)) None]))
          as [Hfail Hok].
        { by rewrite fetched_app, L1. }
        { by rewrite edited_app, L2. }
        { intros err [Hin|Hin]%elem_of_app; [by apply Lc in Hin|].
          apply list_elem_of_In in Hin. cbn in Hin. intuition discriminate. }
        rewrite <-app_assoc in Hfail, Hok. cbn [app] in Hfail, Hok.
        split; [|done]. intros err Herr.
        destruct (Hfail err Herr) as (? & ? & ?). auto.
      * rewrite Ht, Hv. split.
        -- intros err [= <-]. rewrite fetched_app, edited_app, L1, L2.
           split; [done|]. split; [done|]. left. split; [done|].
           by rewrite last_app.
        -- split; [done|]. intros [Hin|Hin]%elem_of_app; [by apply Lc in Hin|].
           apply list_elem_of_In in Hin. cbn in Hin. intuition discriminate.
Qed.

Lemma createMilestone_fetches_aux {W} (gh : Client W) owner repo since to
    stone force dryRun w' pre :
  let s := syncIssues gh owner repo since to stone force dryRun w' in
  fetched pre = [] → edited pre = [] → value s = None →
  ∃ w' cs,
    (Repositories_CompareCommits gh owner repo since to w').1 = Ok cs ∧
    fetched (pre ++ trace s) = getFixes cs ∧
    (length (edited (pre ++ trace s)) ≤ length (getFixes cs))%nat ∧
    (dryRun = true → edited (pre ++ trace s) = []).
Proof.
  intros s P1 P2 Hnone. subst s.
  destruct (syncIssues_calls gh owner repo since to stone force dryRun w')
    as [_ Hs]. cbv zeta in Hs.
  destruct (Repositories_CompareCommits gh owner repo since to w').1
    as [cs|cause] eqn:Hcs.
  - destruct Hs as (_ & Hf & He & Hd & _). exists w', cs.
    rewrite fetched_app, edited_app, P1, P2. cbn [app]. done.
  - destruct Hs as [Hval _]. congruence.
Qed.

(** X16: a milestone synchronisation that succeeds has fetched the issues
    the commits refer to, each once and in ascending order of number: the
    numbers fetched are the result of [getFixes] on the commits listed. It
    has edited at most as many issues, and none in a dry run. *)
Theorem createMilestone_fetches {W} (gh : Client W)
    (owner repo since to milestone : gostring) (force dryRun : bool) (w : W) :
  let run := createMilestone gh owner repo since to milestone force dryRun w in
  value run = None →
  ∃ w' cs,
    (Repositories_CompareCommits gh owner repo since to w').1 = Ok cs ∧
    fetched (trace run) = getFixes cs ∧
    (length (edited (trace run)) ≤ length (getFixes cs))%nat ∧
    (dryRun = true → edited (trace run) = []).
Proof.
  intros run. subst run.
  pose proof (createMilestone_trace gh owner repo since to milestone force
                dryRun w) as Ht.
  pose proof (createMilestone_value gh owner repo since to milestone force
                dryRun w) as Hv.
  destruct (listing_quiet owner repo _
              (getMilestone_trace gh owner repo milestone w))
    as (L1 & L2 & _ & _).
  cbv zeta in Ht, Hv.
  set (lookup := getMilestone gh owner repo milestone w) in *.
  clearbody lookup.
  generalize dependent (createMilestone gh owner repo since to milestone
                          force dryRun w).
  intros run Ht Hv. rewrite Ht, Hv. clear Ht Hv.
  destruct (value lookup) as [stone|lerr].
  - by apply createMilestone_fetches_aux.
  - destruct dryRun.
    + intros Hnone.
      destruct (createMilestone_fetches_aux gh owner repo since to None force
                  true (world lookup)
                  (trace lookup ++ [creatingLog milestone]))
        as (w' & cs & H); [by rewrite fetched_app, L1
                          |by rewrite edited_app, L2|done|].
      rewrite <-app_assoc in H. by exists w', cs.
    + destruct (Issues_CreateMilestone gh owner repo
                  (milestoneTitled milestone) (world lookup)).1
        as [stone|cerr]; [|done].
      intros Hnone.
      destruct (createMilestone_fetches_aux gh owner repo since to
                  (Some stone) force false
                  (Issues_CreateMilestone gh owner repo
                     (milestoneTitled milestone) (world lookup)).2
                  (trace lookup ++
                   [creatingLog milestone;
                    Called (IssuesCreateMilestone owner repo
                              (milestoneTitled milestone)) None]))
        as (w' & cs & H); [by rewrite fetched_app, L1
                          |by rewrite edited_app, L2|done|].
      rewrite <-app_assoc in H. by exists w', cs.
Qed.

Lemma createMilestone_fetches_witness :
  ∃ w' cs,
    (Repositories_CompareCommits memClient (str "acme") (str "tool")
       (str "v0.9") (str "HEAD") w').1 = Ok cs ∧
    fetched (trace (createMilestone memClient (str "acme") (str "tool")
                      (str "v0.9") (str "HEAD") (str "v1.0.0") false false
                      repoFresh)) = getFixes cs ∧
    (length (edited (trace (createMilestone memClient (str "acme")
                              (str "tool") (str "v0.9") (str "HEAD")
                              (str "v1.0.0") false false repoFresh)))
     ≤ length (getFixes cs))%nat ∧
    (false = true →
     edited (trace (createMilestone memClient (str "acme") (str "tool")
                      (str "v0.9") (str "HEAD") (str "v1.0.0") false false
                      repoFresh)) = []).
Proof.
  apply (createMilestone_fetches memClient (str "acme") (str "tool")
           (str "v0.9") (str "HEAD") (str "v1.0.0") false false repoFresh).
  vm_compute. reflexivity.
Defined.

Example createMilestone_repoFresh_fetched :
  fetched (trace (createMilestone memClient (str "acme") (str "tool")
                    (str "v0.9") (str "HEAD") (str "v1.0.0") false false
                    repoFresh)) = [7; 8; 9; 10] ∧
  edited (trace (createMilestone memClient (str "acme") (str "tool")
                   (str "v0.9") (str "HEAD") (str "v1.0.0") false false
                   repoFresh)) = [7; 9].
Proof. by vm_compute. Qed.

Lemma count_zero_filter p t : count p t = 0%nat → List.filter p t = [].
Proof. unfold count. apply nil_length_inv. Qed.

(** X17: the milestone is created at most once: never when the lookup has
    found it or the run is dry, and otherwise once, whatever the error of
    the lookup was, with the title asked for and nothing else set. *)
Theorem createMilestone_creation {W} (gh : Client W)
    (owner repo since to milestone : gostring) (force dryRun : bool) (w : W) :
  let run := createMilestone gh owner repo since to milestone force dryRun w in
  let lookup := getMilestone gh owner repo milestone w in
  List.filter isCreateMilestone (trace run) =
  match value lookup with
  | Ok _ => []
  | Err _ =>
      if dryRun then []
      else [Called (IssuesCreateMilestone owner repo
                      (milestoneTitled milestone))
              (resultErr (Issues_CreateMilestone gh owner repo
                            (milestoneTitled milestone) (world lookup)).1)]
  end.
Proof.
  intros run lookup. subst run.
  pose proof (createMilestone_trace gh owner repo since to milestone force
                dryRun w) as Ht.
  destruct (listing_quiet owner repo _
              (getMilestone_trace gh owner repo milestone w))
    as (_ & _ & L3%count_zero_filter & _).
  cbv zeta in Ht. fold lookup in Ht, L3. clearbody lookup.
  generalize dependent (createMilestone gh owner repo since to milestone
                          force dryRun w).
  intros run Ht. rewrite Ht, List.filter_app, L3. clear Ht. cbn [app].
  assert (∀ stone w',
    List.filter isCreateMilestone
      (trace (syncIssues gh owner repo since to stone force dryRun w')) = [])
    as Hs.
  { intros stone w'. apply count_zero_filter.
    apply (syncIssues_calls gh owner repo since to stone force dryRun w'). }
  destruct (value lookup) as [stone|lerr]; [apply Hs|].
  destruct dryRun; [apply Hs|].
  destruct (Issues_CreateMilestone gh owner repo (milestoneTitled milestone)
              (world lookup)).1 as [stone|cerr]; [|done].
  cbn [List.filter isCreateMilestone creatingLog resultErr]. by rewrite Hs.
Qed.

(** X18: when the closing of the milestone fails, [createRelease] returns
    the text "closing milestone: %!w(MISSING)" whatever the cause was (the
    format has a verb and no operand), and the release stays created: only a
    final release gets there, after the creation has succeeded. *)
Theorem createRelease_closing_error {W} (gh : Client W)
    (owner repo release changelog : gostring) (w : W)
    (number : Z) (stone : Milestone) (cause : error) :
  let run := createRelease gh owner repo release changelog w in
  Called (IssuesEditMilestone owner repo number stone) (Some cause)
    ∈ trace run →
  value run = Some (str "closing milestone: %!w(MISSING)") ∧
  Called (RepositoriesCreateRelease owner repo (releaseOf release changelog))
    None ∈ trace run ∧
  stone = milestoneClosed ∧ release = milestoneOf release.
Proof.
  intros run. subst run.
  pose proof (createRelease_trace gh owner repo release changelog w) as Ht.
  pose proof (createRelease_value gh owner repo release changelog w) as Hv.
  pose proof (getMilestone_trace gh owner repo (milestoneOf release) w) as Hl.
  cbv zeta in Ht, Hv.
  set (lookup := getMilestone gh owner repo (milestoneOf release) w) in *.
  clearbody lookup.
  generalize dependent (createRelease gh owner repo release changelog w).
  intros run Ht Hv. rewrite Ht, Hv. clear Ht Hv run.
  intros [Hin|Hin]%elem_of_app.
  { rewrite Forall_forall in Hl. by apply Hl in Hin as (opts & e & [=]). }
  destruct (value lookup) as [found|lerr]; [|by apply elem_of_nil in Hin].
  unfold releaseEvents in *. cbv zeta in *.
  apply elem_of_cons in Hin as [[=]|Hin].
  destruct (Repositories_CreateRelease gh owner repo
              (releaseOf release changelog) (world lookup)).1 as [cerr|];
    [by apply elem_of_nil in Hin|].
  destruct (bool_decide (release ≠ milestoneOf release)) eqn:Hpre;
    [by apply elem_of_nil in Hin|].
  apply list_elem_of_singleton in Hin. injection Hin as -> -> Hcause.
  rewrite <-Hcause. split; [done|]. split.
  - apply elem_of_app. right. apply elem_of_cons. by left.
  - split; [done|]. apply bool_decide_eq_false in Hpre.
    by destruct (decide (release = milestoneOf release)).
Qed.

Lemma createRelease_closing_error_witness :
  value (createRelease lockedClient (str "acme") (str "tool") (str "v1.0.0")
           (str "Bugfixes") repoV100)
    = Some (str "closing milestone: %!w(MISSING)") ∧
  Called (RepositoriesCreateRelease (str "acme") (str "tool")
            (releaseOf (str "v1.0.0") (str "Bugfixes"))) None
    ∈ trace (createRelease lockedClient (str "acme") (str "tool")
               (str "v1.0.0") (str "Bugfixes") repoV100) ∧
  milestoneClosed = milestoneClosed ∧
  str "v1.0.0" = milestoneOf (str "v1.0.0").
Proof.
  apply (createRelease_closing_error lockedClient (str "acme") (str "tool")
           (str "v1.0.0") (str "Bugfixes") repoV100 1 milestoneClosed
           (str "422 Validation Failed")).
  apply list_elem_of_In. vm_compute. tauto.
Defined.

Lemma listIssuesPage_error {W} (gh : Client W) owner repo stone st w err :
  value (listIssuesPage gh owner repo stone st w) = inr (Err err) →
  ∃ cause, err = str "listing issues: " ++ cause.
Proof.
  unfold listIssuesPage. destruct st as [page issues]. run_prog.
  destruct (Issues_ListByRepo gh owner repo _ w).1 as [[is_ resp]|cause].
  - destruct (_ <=? _); run_prog; by intros [=].
  - run_prog. intros [= <-]. by exists cause.
Qed.

(** X19: the changelog makes no creating or editing call. When it fails it
    has written nothing, and the error is the cause behind the prefix
    "getting milestone: " or "listing issues: "; when it succeeds, what the
    writer held before is still there, in front of what was written. *)
Theorem changelog_failure {W} (gh : Client W)
    (wr owner repo release : gostring) (markdownLinks : bool)
    (skipLabels : list gostring) (withSubject : bool) (w : W) :
  let run := changelog gh wr owner repo release markdownLinks skipLabels
               withSubject w in
  mutations (trace run) = [] ∧
  (∀ err, (value run).2 = Some err →
     (value run).1 = wr ∧
     ∃ cause, err = str "getting milestone: " ++ cause ∨
              err = str "listing issues: " ++ cause) ∧
  ((value run).2 = None → ∃ body, (value run).1 = wr ++ body).
Proof.
  intros run. split; [apply mutations_reads, changelog_reads|]. split.
  - intros err Herr. split.
    + destruct (value run) as [out e] eqn:E. cbn [fst snd] in *. subst e.
      by apply changelog_failed in E.
    + revert Herr. subst run. unfold changelog. rewrite value_bind.
      destruct (value (getMilestone _ _ _ _ _)) as [stone|cause].
      2:{ intros [= <-]. exists cause. by left. }
      rewrite value_bind.
      destruct (value (forLoop _ _ _)) as [st|[issues|lerr]] eqn:E.
      * intros [= <-]. exists []. by right.
      * by intros [=].
      * intros [= <-].
        apply (forLoop_value
                 (λ r, if r is Err e
                       then ∃ cause, e = str "listing issues: " ++ cause
                       else True)) in E.
        -- destruct E as [cause ->]. exists cause. by right.
        -- intros st' w' [issues'|e'] Hbody; [done|].
           by apply listIssuesPage_error in Hbody.
  - intros Hnone. destruct (value run) as [out e] eqn:E.
    cbn [fst snd] in *. subst e.
    apply changelog_ok in E as (stone & issues & _ & _ & ->).
    rewrite writeChangelog_app. by eexists.
Qed.

(** ** The order of the changelog *)

Lemma issueLe_trans : Transitive issueLe.
Proof. intros a b c. unfold issueLe. lia. Qed.

Lemma issueLe_total : Total issueLe.
Proof. intros a b. unfold issueLe. lia. Qed.

Lemma StronglySorted_filter {A} (R : relation A) (p : A → bool) l :
  StronglySorted R l → StronglySorted R (List.filter p l).
Proof.
  induction 1 as [|x l Hl IH Hx]; [constructor|]. simpl.
  destruct (p x); [|done]. constructor; [done|].
  rewrite Forall_forall in Hx |- *. intros y Hy%list_elem_of_In.
  apply List.filter_In in Hy as [Hy _]. by apply Hx, list_elem_of_In.
Qed.

Lemma filter_Permutation_bool {A} (p : A → bool) l l' :
  l ≡ₚ l' → List.filter p l ≡ₚ List.filter p l'.
Proof.
  induction 1 as [|x l l' Hp IH|x y l|l l' l'' _ IH1 _ IH2]; simpl.
  - done.
  - destruct (p x); [by constructor|done].
  - destruct (p x), (p y); try done. apply perm_swap.
  - by etrans.
Qed.

Lemma inBucket_partition skipLabels l :
  inBucket skipLabels Bugfixes l ++ inBucket skipLabels Enhancements l
    ++ inBucket skipLabels Other l
  ≡ₚ List.filter (survives skipLabels) l.
Proof.
  unfold inBucket. induction l as [|i l IH]; [done|]. simpl.
  destruct (survives skipLabels i); simpl; [|done].
  destruct (bucketOf i); simpl.
  - by constructor.
  - rewrite <-Permutation_middle. by constructor.
  - rewrite app_assoc, <-Permutation_middle, <-app_assoc. by constructor.
Qed.

(** X20: in each of the three blocks of the changelog the issues stand in
    ascending order of number, and the three blocks together hold the issues
    listed for the milestone that are no pull requests and carry no label of
    the skip list, each as often as it was listed. *)
Theorem changelog_buckets_ascending (skipLabels : list gostring)
    (issues : list Issue) :
  let b := bucketIssues skipLabels (sortIssues issues) in
  StronglySorted issueLe (bugs b) ∧
  StronglySorted issueLe (enhancements b) ∧
  StronglySorted issueLe (other b) ∧
  bugs b ++ enhancements b ++ other b
    ≡ₚ List.filter (survives skipLabels) issues.
Proof.
  intros b. subst b. rewrite bucketIssues_spec. cbn [bugs enhancements other].
  assert (StronglySorted issueLe (sortIssues issues)) as Hs.
  { apply (@StronglySorted_merge_sort _ issueLe _ issueLe_trans issueLe_total). }
  repeat split; try (by apply StronglySorted_filter).
  rewrite inBucket_partition. apply filter_Permutation_bool.
  apply merge_sort_Permutation.
Qed.

(** X21: when the milestone has no description and every issue listed is a
    pull request or carries a label of the skip list, the changelog consists
    of the heading, and of nothing when the heading is off: the body of the
    release is then empty. *)
Theorem changelog_nothing_to_report (skipLabels : list gostring)
    (issues : list Issue) (wr owner repo release : gostring)
    (markdownLinks withSubject : bool) (stone : Milestone) :
  Milestone_GetDescription stone = [] →
  Forall (λ i, survives skipLabels i = false) issues →
  writeChangelog wr owner repo release markdownLinks withSubject stone
    (bucketIssues skipLabels (sortIssues issues))
  = if withSubject then wr ++ heading owner repo release markdownLinks
    else wr.
Proof.
  intros Hd Hs. rewrite bucketIssues_spec.
  assert (∀ b, inBucket skipLabels b (sortIssues issues) = []) as Hb.
  { intros b. apply elem_of_nil_inv. intros i (Hi & Hsurv & _)%elem_of_inBucket.
    unfold sortIssues in Hi. rewrite merge_sort_Permutation in Hi.
    rewrite Forall_forall in Hs. apply Hs in Hi. congruence. }
  unfold writeChangelog, printBucket. cbn [bugs enhancements other].
  rewrite !Hb, Hd. cbn [length].
  rewrite !bool_decide_false by (try lia; by intros ?). done.
Qed.

Lemma changelog_nothing_to_report_witness :
  writeChangelog [] (str "acme") (str "tool") (str "v1.0.0") false false
    stoneV100
    (bucketIssues []
       (sortIssues [mkIssue 9 "closed" "lib: handle empty config" [] None
                      true]))
  = [].
Proof.
  apply (changelog_nothing_to_report []
           [mkIssue 9 "closed" "lib: handle empty config" [] None true]
           [] (str "acme") (str "tool") (str "v1.0.0") false false stoneV100).
  - reflexivity.
  - repeat constructor.
Defined.

(** ** The release command and its dry-run flag *)

Lemma releaseRun_created {W} (gh : Client W) owner repo release skipLabels w :
  let cl := changelog gh [] owner repo release false skipLabels false w in
  let run := releaseRun gh owner repo release skipLabels w in
  value run = None →
  Called (RepositoriesCreateRelease owner repo
            (releaseOf release (value cl).1)) None ∈ trace run.
Proof.
  intros cl run. subst run.
  pose proof (releaseRun_value gh owner repo release skipLabels w) as Hv.
  pose proof (releaseRun_trace gh owner repo release skipLabels w) as Ht.
  cbv zeta in Hv, Ht. fold cl in Hv, Ht. clearbody cl.
  generalize dependent (releaseRun gh owner repo release skipLabels w).
  intros run Hv Ht. rewrite Hv, Ht. clear Hv Ht run.
  destruct (value cl).2 as [err|]; [done|].
  pose proof (createRelease_value gh owner repo release (value cl).1
                (world cl)) as Hv.
  pose proof (createRelease_trace gh owner repo release (value cl).1
                (world cl)) as Ht.
  cbv zeta in Hv, Ht.
  set (lookup := getMilestone gh owner repo (milestoneOf release) (world cl))
    in *.
  clearbody lookup.
  generalize dependent (createRelease gh owner repo release (value cl).1
                          (world cl)).
  intros run Hv Ht. rewrite Hv, Ht. clear Hv Ht run.
  destruct (value lookup) as [stone|lerr]; [|done].
  unfold releaseEvents. cbv zeta.
  destruct (Repositories_CreateRelease gh owner repo _ (world lookup)).1
    as [cerr|]; [done|].
  intros _. rewrite !elem_of_app. right; right. apply elem_of_cons. by left.
Qed.

(** X22: the release command does not look at its dry-run flag: the run is
    the same whether the flag is set or not, and a run that succeeds has
    created the release, with the changelog it rendered as body. *)
Theorem release_ignores_dryRun {W} (gh : Client W) (o : releaseOptions)
    (common : commonOptions) (w : W) :
  let run := releaseOptions_Run gh (withDryRun true o) common w in
  let cl := changelog gh [] (common_Owner common) (common_Repo common)
              (release_Release o) false (release_SkipLabels o) false w in
  run = releaseOptions_Run gh (withDryRun false o) common w ∧
  (value run = None →
   Called (RepositoriesCreateRelease (common_Owner common)
             (common_Repo common)
             (releaseOf (release_Release o) (value cl).1)) None
     ∈ mutations (trace run)).
Proof.
  intros run cl. split; [done|]. intros Hnone.
  apply list_elem_of_In, List.filter_In. split; [|done].
  apply list_elem_of_In.
  by apply (releaseRun_created gh (common_Owner common) (common_Repo common)
              (release_Release o) (release_SkipLabels o) w).
Qed.

(** A dry run of the release command on [repoV100] creates the release and
    closes the milestone. *)
Example release_dry_run_v100 :
  let o := {| release_DryRun := true; release_SkipLabels := [];
              release_Release := str "v1.0.0" |} in
  let common := {| common_Owner := str "acme"; common_Repo := str "tool" |} in
  value (releaseOptions_Run memClient o common repoV100) = None ∧
  length (mem_releases (world (releaseOptions_Run memClient o common
                                 repoV100))) = 1%nat ∧
  count isMutation (trace (releaseOptions_Run memClient o common repoV100))
    = 2%nat.
Proof. by vm_compute. Qed.

(** ** The labels of an issue *)

Lemma stringLe_total s t : stringLe s t = true ∨ stringLe t s = true.
Proof.
  revert t; induction s as [|a s IH]; intros [|b t]; simpl; auto.
  destruct (Z.ltb_spec a b), (Z.ltb_spec b a), (Z.eqb_spec a b),
    (Z.eqb_spec b a); simpl; auto; try lia.
Qed.

Lemma stringLe_trans s t u :
  stringLe s t = true → stringLe t u = true → stringLe s u = true.
Proof.
  revert t u; induction s as [|a s IH]; intros [|b t] [|c u]; simpl; auto;
    try done.
  rewrite !orb_true_iff, !andb_true_iff, !Z.ltb_lt, !Z.eqb_eq.
  intros [?|[-> Hst]] [?|[-> Htu]]; auto; try (left; lia).
  right. split; [done|]. by apply (IH t).
Qed.

Lemma stringLeRel_trans : Transitive stringLeRel.
Proof.
  intros s t u. unfold stringLeRel. rewrite !Is_true_true.
  apply stringLe_trans.
Qed.

Lemma stringLeRel_total : Total stringLeRel.
Proof.
  intros s t. unfold stringLeRel. rewrite !Is_true_true.
  apply stringLe_total.
Qed.

(** X23: [labels] gives the names of the labels of the issue, each as often
    as the issue has it, in ascending order; [contains] on it tells whether
    the issue carries the label, so the order plays no role for the skip
    list and the partition. *)
Theorem labels_sorted (issue : Issue) :
  StronglySorted stringLeRel (labels issue) ∧
  labels issue ≡ₚ Label_GetName <$> Issue_Labels issue ∧
  ∀ s, contains s (labels issue) = true
       ↔ s ∈ Label_GetName <$> Issue_Labels issue.
Proof.
  unfold labels, sortStrings. split; [|split].
  - apply (@StronglySorted_merge_sort _ stringLeRel _ stringLeRel_trans
             stringLeRel_total).
  - apply merge_sort_Permutation.
  - intros s. by rewrite contains_spec, merge_sort_Permutation.
Qed.
